(** * dumbcas: the content-addressed store, its scan, and the collector

    A shallow embedding of the storage engine of dumbcas (cas.go, gc.go,
    utils.go and the in-memory table of cas_test.go), followed by the
    properties of the store that the design document states.

    Conventions of the embedding.
    - A Go [string] holding a path is the list of its "/"-separated
      segments; an absolute path starts with the empty segment, so
      "/a/b" is [""; "a"; "b"] and the empty string is [[]].
    - The disk is a tree of directories and regular files.  Permission
      and device errors are not modelled: a system call fails only for
      the structural reasons spelled out in the [os_*] functions.
    - A method that touches the disk takes the disk and returns its
      result together with the new disk. *)

From Stdlib Require Import Ascii String.
From Stdlib.Strings Require Import Byte.
From stdpp Require Import gmap strings list fin_maps.

Set Default Proof Using "Type".
#[local] Set Warnings "-register-all".


#[export] Instance byte_eq_decision : EqDecision byte := byte_eq_dec.

(** ** Errors *)

Inductive Errno := ENOENT | EEXIST | ENOTDIR | EISDIR | ENOTEMPTY.

Abbreviation path := (list string).

(** [ErrInvalid], [ErrExist] and [ErrNotExist] are the sentinels of package
    os; [PathError] is the *os.PathError of a failed system call;
    [Errorf] is a value built by fmt.Errorf or errors.New, kept as its
    format string. *)
Inductive error :=
| ErrInvalid
| ErrExist
| ErrNotExist
| PathError (op : string) (p : path) (e : Errno)
| Errorf (format : string).

Definition underlyingErrno (err : error) : option Errno :=
  match err with
  | PathError _ _ e => Some e
  | _ => None
  end.

(** os.IsExist *)
Definition os_IsExist (err : error) : bool :=
  match err with
  | ErrExist => true
  | PathError _ _ EEXIST | PathError _ _ ENOTEMPTY => true
  | _ => false
  end.

(** os.IsNotExist *)
Definition os_IsNotExist (err : error) : bool :=
  match err with
  | ErrNotExist => true
  | PathError _ _ ENOENT => true
  | _ => false
  end.

(** ** Regular expressions *)

Definition isLowerHex (a : ascii) : bool :=
  let n := nat_of_ascii a in
  ((48 <=? n) && (n <=? 57) || (97 <=? n) && (n <=? 102))%nat.

(** A compiled pattern: [HexExactly n] is [^[a-f0-9]{n}$], the only shape
    cas.go compiles; [Pattern accepts] is any other pattern, given by the
    strings it matches. *)
Inductive Regexp :=
| HexExactly (n : nat)
| Pattern (accepts : string → bool).

Definition MatchString (re : Regexp) (s : string) : bool :=
  match re with
  | HexExactly n =>
      (String.length s =? n) && forallb isLowerHex (list_ascii_of_string s)
  | Pattern accepts => accepts s
  end.

(** FindStringSubmatch: [None] is the nil slice; otherwise element 0 is
    the whole match and element 1 the group. *)
Definition FindStringSubmatch (re : Regexp) (s : string) : option (list string) :=
  if MatchString re s then Some [s; s] else None.

(** Go slices [s[:n]] and [s[n:]]. *)
Definition sliceTo (n : nat) (s : string) : string := String.substring 0 n s.
Definition sliceFrom (n : nat) (s : string) : string :=
  String.substring n (String.length s - n) s.

(** ** Paths *)

Definition path_IsAbs (p : path) : bool :=
  match p with
  | "" :: _ => true
  | _ => false
  end.

(** path.Clean on segments: drops "." and empty inner segments and
    resolves "..".  [acc] is the reversed list of segments kept so far. *)
Fixpoint cleanSegs (abs : bool) (acc : list string) (segs : list string) : list string :=
  match segs with
  | [] => rev acc
  | s :: rest =>
      if decide (s = "" ∨ s = ".") then cleanSegs abs acc rest
      else if decide (s = "..") then
        match acc with
        | [] => if abs then cleanSegs abs [] rest else cleanSegs abs [".."] rest
        | a :: acc' =>
            if decide (a = "..") then cleanSegs abs (".." :: acc) rest
            else cleanSegs abs acc' rest
        end
      else cleanSegs abs (s :: acc) rest
  end.

Definition path_Clean (p : path) : path :=
  match p with
  | "" :: segs => "" :: cleanSegs true [] segs
  | _ => match cleanSegs false [] p with
         | [] => ["."]
         | q => q
         end
  end.

(** path.Join of operands that are already clean: the non-empty operands
    one after the other. *)
Definition path_Join (elems : list path) : path :=
  concat (filter (λ e, e ≠ []) elems).

(** ** The disk *)

Inductive node :=
| File (data : list byte)
| Dir (entries : gmap string node).

(** Follows [p] down from [n]. *)
Fixpoint walk (n : node) (p : path) : Errno + node :=
  match p with
  | [] => inr n
  | x :: q =>
      match n with
      | File _ => inl ENOTDIR
      | Dir m =>
          match m !! x with
          | None => inl ENOENT
          | Some n' => walk n' q
          end
      end
  end.

Definition fs_get (n : node) (p : path) : option node :=
  match walk n p with
  | inr n' => Some n'
  | inl _ => None
  end.

(** Rewrites the entry named by the last segment of [p] in its parent
    directory; nothing changes when the parent is not a directory. *)
Fixpoint fs_alter (f : option node → option node) (p : path) (n : node) : node :=
  match p with
  | [] => n
  | x :: q =>
      match n with
      | File _ => n
      | Dir m =>
          match q with
          | [] => Dir (partial_alter f x m)
          | _ => Dir (alter (fs_alter f q) x m)
          end
      end
  end.

Definition fs_put (p : path) (n' : node) : node → node := fs_alter (λ _, Some n') p.
Definition fs_remove (p : path) : node → node := fs_alter (λ _, None) p.

(** The segments below "/" of an absolute path; a relative path (only
    the empty one ever reaches a system call here) names nothing. *)
Definition rooted (p : path) : option path :=
  match p with
  | "" :: segs => Some segs
  | _ => None
  end.

Definition stat (fs : node) (p : path) : Errno + node :=
  match rooted p with
  | Some segs => walk fs segs
  | None => inl ENOENT
  end.

Definition parentOf (p : path) : path := removelast p.

(** os.Open *)
Definition os_Open (fs : node) (p : path) : error + node :=
  match stat fs p with
  | inr n => inr n
  | inl e => inl (PathError "open" p e)
  end.

(** ioutil.ReadAll on an open handle. *)
Definition ReadAll (f : node) : error + list byte :=
  match f with
  | File data => inr data
  | Dir _ => inl (PathError "read" [] EISDIR)
  end.

(** os.OpenFile(p, O_WRONLY|O_CREATE|O_EXCL): the file must not exist and
    its parent must be a directory; the new file is empty. *)
Definition os_OpenFile_excl (fs : node) (p : path) : option error * node :=
  match stat fs p with
  | inr _ => (Some (PathError "open" p EEXIST), fs)
  | inl ENOENT =>
      match stat fs (parentOf p), rooted p with
      | inr (Dir _), Some ((_ :: _) as segs) => (None, fs_put segs (File []) fs)
      | _, _ => (Some (PathError "open" p ENOENT), fs)
      end
  | inl e => (Some (PathError "open" p e), fs)
  end.

(** os.Create: creates or truncates. *)
Definition os_Create (fs : node) (p : path) : option error * node :=
  match stat fs p with
  | inr (Dir _) => (Some (PathError "open" p EISDIR), fs)
  | inr (File _) =>
      match rooted p with
      | Some segs => (None, fs_put segs (File []) fs)
      | None => (Some (PathError "open" p ENOENT), fs)
      end
  | inl _ =>
      match os_OpenFile_excl fs p with
      | (None, fs') => (None, fs')
      | (Some e, fs') => (Some e, fs')
      end
  end.

(** os.Mkdir *)
Definition os_Mkdir (fs : node) (p : path) : option error * node :=
  match stat fs p with
  | inr _ => (Some (PathError "mkdir" p EEXIST), fs)
  | inl ENOENT =>
      match stat fs (parentOf p), rooted p with
      | inr (Dir _), Some ((_ :: _) as segs) => (None, fs_put segs (Dir ∅) fs)
      | _, _ => (Some (PathError "mkdir" p ENOENT), fs)
      end
  | inl e => (Some (PathError "mkdir" p e), fs)
  end.

(** os.MkdirAll: [done] is the prefix already known to be a directory,
    [todo] the segments still to be entered or created. *)
Fixpoint mkdirAllFrom (fs : node) (done todo : path) : option error * node :=
  match todo with
  | [] => (None, fs)
  | x :: rest =>
      let here := done ++ [x] in
      match stat fs here with
      | inr (Dir _) => mkdirAllFrom fs here rest
      | inr (File _) => (Some (PathError "mkdir" here ENOTDIR), fs)
      | inl _ =>
          match os_Mkdir fs here with
          | (None, fs') => mkdirAllFrom fs' here rest
          | (Some e, fs') => (Some e, fs')
          end
      end
  end.

Definition os_MkdirAll (fs : node) (p : path) : option error * node :=
  match p with
  | "" :: segs => mkdirAllFrom fs [""] segs
  | _ => (Some (PathError "mkdir" p ENOENT), fs)
  end.

(** The names in a directory, in the order the map lists them.  Go gives
    them in directory order, which the program does not depend on. *)
Definition dirNames (m : gmap string node) : list string := (map_to_list m).*1.

(** utils.go, readDirNames: "Reads a directory list and guarantees to
    return a list." *)
Definition readDirNames (fs : node) (dirPath : path) : list string * option error :=
  match os_Open fs dirPath with
  | inl err => ([], Some err)
  | inr (Dir m) => (dirNames m, None)
  | inr (File _) => ([], Some (PathError "readdirent" dirPath ENOTDIR))
  end.

(** A disk is the live tree together with what has been quarantined. *)
Record disk := Disk {
  root : node;
  quarantine : list (path * path * node)
}.

(** ** SHA-1 and hex

    crypto/sha1 and encoding/hex, written out. *)

Module SHA1.
Open Scope Z_scope.

Definition rotl (n x : Z) : Z :=
  Z.lor (Z.shiftl x n) (Z.shiftr x (32 - n)) mod 2 ^ 32.

(** [k] bytes of [n], most significant first. *)
Fixpoint bigEndian (k : nat) (n : Z) : list Z :=
  match k with
  | O => []
  | S k' => bigEndian k' (n / 256) ++ [n mod 256]
  end.

Definition pad (msg : list byte) : list Z :=
  let len := length msg in
  map (λ b, Z.of_N (Byte.to_N b)) msg
    ++ [128] ++ replicate ((119 - len mod 64) mod 64)%nat 0
    ++ bigEndian 8 (8 * Z.of_nat len).

Fixpoint words (bs : list Z) : list Z :=
  match bs with
  | a :: b :: c :: d :: rest =>
      (a * 2 ^ 24 + b * 2 ^ 16 + c * 2 ^ 8 + d) :: words rest
  | _ => []
  end.

Fixpoint extend (n : nat) (w : list Z) : list Z :=
  match n with
  | O => w
  | S n' =>
      let i := length w in
      let at_ k := nth (i - k) w 0 in
      extend n' (w ++ [rotl 1 (Z.lxor (Z.lxor (at_ 3%nat) (at_ 8%nat))
                                      (Z.lxor (at_ 14%nat) (at_ 16%nat)))])
  end.

Definition round (st : Z * Z * Z * Z * Z) (iw : nat * Z) : Z * Z * Z * Z * Z :=
  let '(a, b, c, d, e) := st in
  let '(i, w) := iw in
  let '(f, k) :=
    if (i <? 20)%nat then
      (Z.lor (Z.land b c) (Z.land (Z.lxor b (2 ^ 32 - 1)) d), 0x5A827999)
    else if (i <? 40)%nat then (Z.lxor (Z.lxor b c) d, 0x6ED9EBA1)
    else if (i <? 60)%nat then
      (Z.lor (Z.lor (Z.land b c) (Z.land b d)) (Z.land c d), 0x8F1BBCDC)
    else (Z.lxor (Z.lxor b c) d, 0xCA62C1D6) in
  ((rotl 5 a + f + e + k + w) mod 2 ^ 32, a, rotl 30 b, c, d).

Definition block (h : Z * Z * Z * Z * Z) (ws : list Z) : Z * Z * Z * Z * Z :=
  let '(h0, h1, h2, h3, h4) := h in
  let w := extend 64 ws in
  let '(a, b, c, d, e) := fold_left round (combine (seq 0 80) w) h in
  ((h0 + a) mod 2 ^ 32, (h1 + b) mod 2 ^ 32, (h2 + c) mod 2 ^ 32,
   (h3 + d) mod 2 ^ 32, (h4 + e) mod 2 ^ 32).

Fixpoint blocks (fuel : nat) (h : Z * Z * Z * Z * Z) (ws : list Z) : Z * Z * Z * Z * Z :=
  match fuel, ws with
  | S fuel', _ :: _ => blocks fuel' (block h (take 16 ws)) (drop 16 ws)
  | _, _ => h
  end.

Definition hexDigit (d : Z) : ascii :=
  ascii_of_nat (Z.to_nat (if d <? 10 then 48 + d else 87 + d)).

(** [k] hex digits of [n], most significant first. *)
Fixpoint hexFixed (k : nat) (n : Z) : list ascii :=
  match k with
  | O => []
  | S k' => hexFixed k' (n / 16) ++ [hexDigit (n mod 16)]
  end.

Definition sum (msg : list byte) : Z * Z * Z * Z * Z :=
  let ws := words (pad msg) in
  blocks (length ws)
    (0x67452301, 0xEFCDAB89, 0x98BADCFE, 0x10325476, 0xC3D2E1F0) ws.

(** hex.EncodeToString of the twenty bytes of the sum. *)
Definition hex (h : Z * Z * Z * Z * Z) : string :=
  let '(h0, h1, h2, h3, h4) := h in
  string_of_list_ascii
    (hexFixed 8 h0 ++ hexFixed 8 h1 ++ hexFixed 8 h2 ++ hexFixed 8 h3 ++ hexFixed 8 h4).
End SHA1.

(** utils.go, sha1Bytes *)
Definition sha1Bytes (content : list byte) : string := SHA1.hex (SHA1.sum content).

(** An Entry of a snapshot tree, as TagRecurse reads it: the digest of
    the content ([""] when absent) and the children by name. *)
Inductive Entry := MkEntry (Sha1 : string) (Files : list (string * Entry)).

Definition Sha1 (e : Entry) : string := let '(MkEntry s _) := e in s.
Definition Files (e : Entry) : list (string * Entry) := let '(MkEntry _ f) := e in f.

(** What the program takes from outside its own sources: the name of the
    quarantine directory (a constant of trash.go), the JSON decoder of an
    Entry (encoding/json) and the working directory of the process. *)
Class Env := {
  TrashName : string;
  decodeEntry : list byte → error + Entry;
  Getwd : error + path
}.

(** An io.Reader: the bytes it delivers, then the error it ends with
    ([None] for a clean end of input). *)
Record Reader := { rd_data : list byte; rd_err : option error }.

(** bytes.NewBuffer *)
Definition NewBuffer (data : list byte) : Reader :=
  {| rd_data := data; rd_err := None |}.

(** A string without separator, as a path. *)
Definition seg (s : string) : path := if decide (s = "") then [] else [s].

(** ** Trash *)

Module Trash.
Section Trash.
Context `{Env}.

Record trash := { rootDir : path; trashDir : path }.

(** Creates the directory [dir] unless something is already there. *)
Definition ensureDir (fs : node) (dir : path) : node :=
match stat fs dir with
| inl ENOENT => (os_Mkdir fs dir).2
| _ => fs
end.

(** Modelled from the spec: MakeTrash is declared in trash.go, which is
not among the given sources; the quarantine area lives under the
directory it is handed, in the directory named [TrashName]. *)
Definition MakeTrash (rootDir : path) : trash :=
{| rootDir := rootDir; trashDir := path_Join [rootDir; seg TrashName] |}.

(** Modelled from the spec: Move is declared in trash.go, which is not
among the given sources.  "Move(relativePath) relocates a path from
inside the store into a quarantine subtree, creating parent
structure as needed; it must never throw away data silently"; it
fails when the path is absent.  The relocated payload is kept as a
Trash entry (where it was quarantined, the relative path it used to
live at, the payload); the quarantine directory is created on first
use. *)
Definition Move (t : trash) (relPath : path) (d : disk) : option error * disk :=
let src := path_Join [rootDir t; relPath] in
match stat (root d) src, rooted src with
| inr payload, Some segs =>
  let fs1 := ensureDir (root d) (trashDir t) in
  (None, {| root := fs_remove segs fs1;
            quarantine := quarantine d ++ [(trashDir t, relPath, payload)] |})
| inl e, _ => (Some (PathError "rename" src e), d)
| inr _, None => (Some (PathError "rename" src ENOENT), d)
end.
End Trash.
End Trash.

(** ** cas.go *)

Record CasEntry := { Item : string; Error : option error }.

(** A ReadSeekCloser: an open *os.File, or the Buffer of cas_test.go
    ("Adds noop Close() to a bytes.Reader"). *)
Inductive ReadSeekCloser :=
| OsFile (f : node)
| Buffer (data : list byte).

(** ioutil.ReadAll on a handle. *)
Definition ReadAllHandle (h : ReadSeekCloser) : error + list byte :=
  match h with
  | OsFile f => ReadAll f
  | Buffer data => inr data
  end.

Definition casName : string := "cas".
Definition needFsckName : string := "need_fsck".
Definition hashLength : nat := 40.
(** "Creates 16^3 (4096) directories. Preferable values are 2 or 3." *)
Definition splitAt : nat := 3.

(** The hexadecimal digits of [n], least significant first. *)
Fixpoint hexDigitsRev (fuel : nat) (n : N) : list ascii :=
  match fuel with
  | O => []
  | S fuel' =>
      let d := N.to_nat (n mod 16)%N in
      let c := if (d <? 10)%nat then ascii_of_nat (48 + d) else ascii_of_nat (87 + d) in
      if (n <? 16)%N then [c] else c :: hexDigitsRev fuel' (n / 16)%N
  end.

(** fmt.Sprintf("%0*x", width, i) *)
Definition Sprintf_0x (width : nat) (i : N) : string :=
  let digits := rev (hexDigitsRev (S (N.to_nat (N.log2 i))) i) in
  string_of_list_ascii
    (replicate (width - length digits) "0"%char ++ digits).

(** [prefixLength * 4] on uint and [1 << _] on int, both 64 bits wide. *)
Definition prefixSpace (prefixLength : N) : Z :=
  if (prefixLength =? 0)%N then 0%Z
  else
    let shift := ((prefixLength * 4) mod 2 ^ 64)%N in
    let v := (Z.shiftl 1 (Z.of_N shift) mod 2 ^ 64)%Z in
    if (v <? 2 ^ 63)%Z then v else (v - 2 ^ 64)%Z.

(** What a handler answers: http.Error with its message and status code,
    or http.ServeFile with the name of the file it is handed. *)
Inductive HttpReply :=
| http_Error (error : string) (code : nat)
| http_ServeFile (name : path).

Definition StatusBadRequest : nat := 400.
Definition StatusNotImplemented : nat := 501.

Module Cas.
Section Cas.
Context `{Env}.

Record casTable := {
rootDir : path;
casDir : path;
prefixLength : nat;
validPath : Regexp;
trash : Trash.trash
}.

(** "Converts an entry in the table into a proper file path." *)
Definition filePath (c : casTable) (hash : string) : path :=
match FindStringSubmatch (validPath c) hash with
| None => []
| Some match_ =>
  let m0 := nth 0 match_ "" in
  let fullPath :=
    path_Join [casDir c; seg (sliceTo (prefixLength c) m0);
               seg (sliceFrom (prefixLength c) m0)] in
  if negb (path_IsAbs fullPath) then [] else fullPath
end.

(** The loop of MakeCasTable that creates the shard directories
[i], [i+1], ...: [todo] of them are left. *)
Fixpoint makePrefixes (casDir : path) (prefixLength : nat) (todo : nat) (i : N)
(fs : node) : option error * node :=
match todo with
| O => (None, fs)
| S todo' =>
  let prefix := Sprintf_0x prefixLength i in
  match os_Mkdir fs (path_Join [casDir; seg prefix]) with
  | (Some err, fs') =>
      if negb (os_IsExist err) then (Some (Errorf "Failed to create %s: %s\n"), fs')
      else makePrefixes casDir prefixLength todo' (i + 1)%N fs'
  | (None, fs') => makePrefixes casDir prefixLength todo' (i + 1)%N fs'
  end
end.

Definition MakeCasTable (rootDir : path) (d : disk) : (error + casTable) * disk :=
if negb (path_IsAbs rootDir) then (inl (Errorf "MakeCasTable(%s) is not valid"), d)
else
let rootDir := path_Clean rootDir in
let casDir := path_Join [rootDir; seg casName] in
let prefixLength := splitAt in
let table := {| rootDir := rootDir; casDir := casDir; prefixLength := prefixLength;
                validPath := HexExactly hashLength;
                trash := Trash.MakeTrash casDir |} in
match os_Mkdir (root d) casDir with
| (Some err, _) =>
    if negb (os_IsExist err)
    then (inl (Errorf "MakeCasTable(%s): failed to create %s: %s"), d)
    else (inr table, d)
| (None, fs1) =>
    match makePrefixes casDir prefixLength
            (Z.to_nat (prefixSpace (N.of_nat prefixLength))) 0%N fs1 with
    | (Some err, fs2) => (inl err, {| root := fs2; quarantine := quarantine d |})
    | (None, fs2) => (inr table, {| root := fs2; quarantine := quarantine d |})
    end
end.

(** "Signals that an fsck is required." *)
Definition NeedFsck (c : casTable) (d : disk) : disk :=
{| root := (os_Create (root d) (path_Join [casDir c; seg needFsckName])).2;
 quarantine := quarantine d |}.

Definition WarnIfFsckIsNeeded (c : casTable) (d : disk) : bool :=
match os_Open (root d) (path_Join [casDir c; seg needFsckName]) with
| inl _ => false
| inr _ => true
end.

(** The inner loop of Enumerate, over the names found in one shard. *)
Fixpoint scanItems (c : casTable) (reRest : Regexp) (prefix : string)
(subitems : list string) (d : disk) : list CasEntry * disk :=
match subitems with
| [] => ([], d)
| item :: rest =>
  if negb (MatchString reRest item) then
    let d1 := (Trash.Move (trash c) (path_Join [seg prefix; seg item]) d).2 in
    let d2 := NeedFsck c d1 in
    scanItems c reRest prefix rest d2
  else
    let '(out, d') := scanItems c reRest prefix rest d in
    ({| Item := prefix +:+ item; Error := None |} :: out, d')
end.

(** The body of the outer loop of Enumerate, for one name found in the
    cas directory. *)
Definition scanPrefix (c : casTable) (rePrefix reRest : Regexp) (prefix : string)
    (d : disk) : list CasEntry * disk :=
  if decide (prefix = TrashName) then ([], d)
  else if negb (MatchString rePrefix prefix) then
    let d1 := (Trash.Move (trash c) (seg prefix) d).2 in
    let d2 := NeedFsck c d1 in
    ([], d2)
  else
    let prefixPath := path_Join [casDir c; seg prefix] in
    match readDirNames (root d) prefixPath with
    | (_, Some err) =>
        ([{| Item := ""; Error := Some (Errorf "Failed reading %s") |}], NeedFsck c d)
    | (subitems, None) => scanItems c reRest prefix subitems d
    end.

(** The outer loop of Enumerate, over the names found in the cas
    directory.  [interrupted i] is what IsInterrupted() answers when
    the loop reaches its [i]-th name. *)
Fixpoint scanPrefixes (c : casTable) (rePrefix reRest : Regexp)
    (interrupted : nat → bool) (i : nat) (prefixes : list string) (d : disk)
    : list CasEntry * disk :=
  match prefixes with
  | [] => ([], d)
  | prefix :: rest =>
      if interrupted i then ([], d)
      else
        let '(out1, d1) := scanPrefix c rePrefix reRest prefix d in
        let '(out2, d2) := scanPrefixes c rePrefix reRest interrupted (S i) rest d1 in
        (out1 ++ out2, d2)
  end.

(** "Enumerates all the entries in the table. If a file or directory is
found in the directory tree that doesn't match the expected format,
it will be moved into the trash."  The result is what the channel
delivers until it is closed. *)
Definition Enumerate (c : casTable) (interrupted : nat → bool) (d : disk)
: list CasEntry * disk :=
let rePrefix := HexExactly (prefixLength c) in
let reRest := HexExactly (hashLength - prefixLength c) in
match readDirNames (root d) (casDir c) with
| (_, Some err) => ([{| Item := ""; Error := Some (Errorf "Failed reading ss") |}], d)
| (prefixes, None) => scanPrefixes c rePrefix reRest interrupted 0 prefixes d
end.

(** "Adds an entry with the hash calculated already if not alreaady
present."  io.Copy writes what the source delivers and returns the
error the source ends with. *)
Definition AddEntry (c : casTable) (source : Reader) (hash : string) (d : disk)
: option error * disk :=
let dst := filePath c hash in
match os_OpenFile_excl (root d) dst with
| (Some err, _) =>
  if os_IsExist err then (Some err, d)
  else (Some (Errorf "Failed to copy(dst) %s: %s"), d)
| (None, fs1) =>
  let fs2 := match rooted dst with
             | Some segs => fs_put segs (File (rd_data source)) fs1
             | None => fs1
             end in
  (rd_err source, {| root := fs2; quarantine := quarantine d |})
end.

Definition Open (c : casTable) (hash : string) (d : disk) : error + ReadSeekCloser :=
let fp := filePath c hash in
if decide (fp = []) then inl ErrInvalid
else match os_Open (root d) fp with
   | inl err => inl err
   | inr f => inr (OsFile f)
   end.

Definition Remove (c : casTable) (hash : string) (d : disk) : option error * disk :=
match FindStringSubmatch (validPath c) hash with
| None => (Some (Errorf "Remove(%s) is invalid"), d)
| Some _ =>
  Trash.Move (trash c)
    (path_Join [seg (sliceTo (prefixLength c) hash);
                seg (sliceFrom (prefixLength c) hash)]) d
end.

(** "Expects the format "/<hash>". In particular, refuses "/<hash>/"."
[urlPath] is r.URL.Path. *)
Definition ServeHTTP (c : casTable) (urlPath : string) : HttpReply :=
if bool_decide (urlPath = "")
   || negb (bool_decide (String.get 0 urlPath = Some "/"%char))
then http_Error ("Internal failure. CasTable received an invalid url: " +:+ urlPath)
                StatusNotImplemented
else
  let casItem := filePath c (sliceFrom 1 urlPath) in
  if decide (casItem = []) then
    http_Error ("Invalid CAS url: " +:+ urlPath) StatusBadRequest
  else http_ServeFile casItem.
End Cas.
End Cas.

(** ** utils.go *)

Section CommonFlag.
Context `{Env}.

(** filepath.Abs *)
Definition filepath_Abs (p : path) : error + path :=
  if path_IsAbs p then inr (path_Clean p)
  else match Getwd with
       | inl err => inl err
       | inr wd => inr (path_Clean (path_Join [wd; p]))
       end.

(** CommonFlag reads and rewrites the global [Root]; here [Root] is an
    argument and the table it returns carries the rewritten value. *)
Definition CommonFlag (Root : path) (createRoot bypassFsck : bool) (d : disk)
    : (error + Cas.casTable) * disk :=
  if decide (Root = []) then (inl (Errorf "Must provide -root"), d)
  else
    match filepath_Abs Root with
    | inl _ => (inl (Errorf "Failed to find %s"), d)
    | inr Root =>
        let made :=
          if createRoot then
            match os_MkdirAll (root d) Root with
            | (Some err, fs1) =>
                if negb (os_IsExist err) then inl (Errorf "Failed to create %s: %s")
                else inr {| root := fs1; quarantine := quarantine d |}
            | (None, fs1) => inr {| root := fs1; quarantine := quarantine d |}
            end
          else inr d in
        match made with
        | inl err => (inl err, d)
        | inr d1 =>
            match Cas.MakeCasTable Root d1 with
            | (inl err, d2) => (inl err, d2)
            | (inr cas, d2) =>
                if Cas.WarnIfFsckIsNeeded cas d2 && negb bypassFsck
                then (inl (Errorf "Can't run if fsck is needed. Please run fsck first."), d2)
                else (inr cas, d2)
            end
        end
    end.
End CommonFlag.

(** ** cas_test.go: the table kept in memory *)

Module Mock.
Record mockCasTable := {
  entries : gmap string (list byte);
  needFsck : bool
}.

(** "First make a copy of the keys", then deliver them. *)
Definition Enumerate (m : mockCasTable) : list CasEntry * mockCasTable :=
  (map (λ k, {| Item := k; Error := None |}) (map_to_list (entries m)).*1, m).

Definition AddEntry (m : mockCasTable) (source : Reader) (item : string)
    : option error * mockCasTable :=
  match entries m !! item with
  | Some _ => (Some ErrExist, m)
  | None =>
      match rd_err source with
      | None => (None, {| entries := <[item := rd_data source]> (entries m);
                          needFsck := needFsck m |})
      | Some err => (Some err, m)
      end
  end.

Definition Open (m : mockCasTable) (item : string) : error + ReadSeekCloser :=
  match entries m !! item with
  | None => inl (Errorf "Missing: %s")
  | Some data => inr (Buffer data)
  end.

Definition Remove (m : mockCasTable) (item : string) : option error * mockCasTable :=
  match entries m !! item with
  | None => (Some ErrNotExist, m)
  | Some _ => (None, {| entries := delete item (entries m); needFsck := needFsck m |})
  end.

Definition SetFsckBit (m : mockCasTable) : mockCasTable :=
  {| entries := entries m; needFsck := true |}.

Definition GetFsckBit (m : mockCasTable) : bool := needFsck m.

Definition ClearFsckBit (m : mockCasTable) : mockCasTable :=
  {| entries := entries m; needFsck := false |}.
End Mock.

(** ** The CasTable interface

    The methods that gc.go and AddBytes call, over the state [T] of an
    implementation. *)
Class CasTable (T : Type) := {
  Enumerate : T → list CasEntry * T;
  AddEntry : Reader → string → T → option error * T;
  Open : string → T → error + ReadSeekCloser;
  Remove : string → T → option error * T;
  SetFsckBit : T → T
}.

#[export] Instance mockCasTable_CasTable : CasTable Mock.mockCasTable := {|
  Enumerate := Mock.Enumerate;
  AddEntry source item m := Mock.AddEntry m source item;
  Open item m := Mock.Open m item;
  Remove item m := Mock.Remove m item;
  SetFsckBit := Mock.SetFsckBit
|}.

(** A casTable on a disk; its consistency bit is the marker file that
    NeedFsck creates. *)
Definition casTable_CasTable `{Env} (c : Cas.casTable) (interrupted : nat → bool)
    : CasTable disk := {|
  Enumerate := Cas.Enumerate c interrupted;
  AddEntry := Cas.AddEntry c;
  Open := Cas.Open c;
  Remove := Cas.Remove c;
  SetFsckBit := Cas.NeedFsck c
|}.

(** "Utility function when the data is already in memory but not yet
    hashed." *)
Definition AddBytes {T} `{CasTable T} (c : T) (data : list byte)
    : string * option error * T :=
  let hash := sha1Bytes data in
  let '(err, c') := AddEntry (NewBuffer data) hash c in
  (hash, err, c').

(** ** gc.go *)

Record Node := { Node_Entry : string }.

(** What the channel of NodesTable.Enumerate delivers. *)
Record NodeEntry := { NE_Node : Node; NE_Error : option error }.

Module Gc.
Section Gc.
Context `{Env} {T : Type} `{CasTable T}.

Fixpoint TagRecurse (entries : gmap string bool) (entry : Entry) : gmap string bool :=
match entry with
| MkEntry sha1 files =>
  let entries := if decide (sha1 ≠ "") then <[sha1 := true]> entries else entries in
  fold_left (λ entries i, let '(_, i) := i in TagRecurse entries i) files entries
end.

(** Modelled from the spec: LoadEntry is declared in entry.go, which is
not among the given sources.  "LoadEntry(store, digest) reads and
decodes that blob; a malformed or missing blob is a hard failure
for the caller". *)
Definition LoadEntry (cas : T) (hash : string) : error + Entry :=
match Open hash cas with
| inl err => inl err
| inr f =>
  match ReadAllHandle f with
  | inl err => inl err
  | inr data => decodeEntry data
  end
end.

(** The first loop of main: every enumerated item starts untagged. *)
Fixpoint tagEnumerated (items : list CasEntry) (entries : gmap string bool)
: error + gmap string bool :=
match items with
| [] => inr entries
| item :: rest =>
  match Error item with
  | Some err => inl err
  | None => tagEnumerated rest (<[Item item := false]> entries)
  end
end.

(** The second loop of main: "Load all the nodes." *)
Fixpoint tagNodes (cas : T) (items : list NodeEntry) (entries : gmap string bool)
: error + gmap string bool :=
match items with
| [] => inr entries
| item :: rest =>
  match NE_Error item with
  | Some err => inl err
  | None =>
      let entries := <[Node_Entry (NE_Node item) := true]> entries in
      match LoadEntry cas (Node_Entry (NE_Node item)) with
      | inl err => inl err
      | inr entry => tagNodes cas rest (TagRecurse entries entry)
      end
  end
end.

(** The keys still untagged, in the order the map lists them (Go
ranges over a map in no particular order). *)
Definition orphansOf (entries : gmap string bool) : list string :=
(filter (λ kv, kv.2 = false) (map_to_list entries)).*1.

(** The last loop of main. *)
Fixpoint sweep (orphans : list string) (cas : T) : option error * T :=
match orphans with
| [] => (None, cas)
| orphan :: rest =>
  match Remove orphan cas with
  | (Some err, cas') =>
      (Some (Errorf "Internal error while removing %s: %s"), SetFsckBit cas')
  | (None, cas') => sweep rest cas'
  end
end.

(** gcRun.main.  [parse] is the outcome of c.Parse, which opens the two
tables; [nodes] is what c.nodes.Enumerate() delivers. *)
Definition main (parse : option error) (cas : T) (nodes : list NodeEntry)
: option error * T :=
match parse with
| Some err => (Some err, cas)
| None =>
  let '(items, cas1) := Enumerate cas in
  match tagEnumerated items ∅ with
  | inl err =>
      (Some (Errorf "Failed enumerating the CAS table %s"), SetFsckBit cas1)
  | inr entries =>
      match tagNodes cas1 nodes entries with
      | inl err => (Some err, cas1)
      | inr entries => sweep (orphansOf entries) cas1
      end
  end
end.
End Gc.
End Gc.

(** ** Vocabulary of the statements *)

(** [c] is a table that MakeCasTable has returned. *)
Definition made `{Env} (c : Cas.casTable) : Prop :=
  ∃ rootDir d, (Cas.MakeCasTable rootDir d).1 = inr c.

(** [c] is the table of the cas directory whose segments below "/" are
    [cs]. *)
Definition tableAt `{Env} (cs : path) (c : Cas.casTable) : Prop :=
  Cas.casDir c = "" :: cs
  ∧ Cas.prefixLength c = splitAt
  ∧ Cas.validPath c = HexExactly hashLength
  ∧ Cas.trash c = Trash.MakeTrash (Cas.casDir c).

(** What the program may assume of its environment: the quarantine
    directory has a name, which is neither the name of a shard nor the
    name of the marker file. *)
Class EnvOK (E : Env) : Prop := {
  TrashName_nonempty : TrashName ≠ "";
  TrashName_not_shard : MatchString (HexExactly splitAt) TrashName = false;
  TrashName_not_marker : TrashName ≠ needFsckName
}.

Definition validDigest (h : string) : bool := MatchString (HexExactly hashLength) h.
Definition validPrefix (p : string) : bool := MatchString (HexExactly splitAt) p.
Definition validRest (r : string) : bool := MatchString (HexExactly (hashLength - splitAt)) r.

(** Where the blob of digest [h] lives below "/", in the cas directory
    with segments [cs]. *)
Definition blobSegs (cs : path) (h : string) : path :=
  cs ++ [sliceTo splitAt h; sliceFrom splitAt h].

(** What one step of a scan may do to the tree while it works on the
    names in [S] of the cas directory and the names in [R] of their
    shards: write the marker file, create the quarantine directory,
    detach an entry of the cas directory whose name is no shard name, or
    detach an entry of a shard whose name is no blob name. *)
Inductive scanStep `{Env} (cs : path) (S R : string → Prop) : node → node → Prop :=
| ss_marker fs :
    scanStep cs S R fs (fs_put (cs ++ [needFsckName]) (File []) fs)
| ss_trash fs :
    walk fs (cs ++ [TrashName]) = inl ENOENT →
    scanStep cs S R fs (fs_put (cs ++ [TrashName]) (Dir ∅) fs)
| ss_top fs x :
    S x → x ≠ "" → validPrefix x = false → x ≠ TrashName →
    scanStep cs S R fs (fs_remove (cs ++ [x]) fs)
| ss_item fs p r :
    S p → R r → validPrefix p = true → validRest r = false →
    scanStep cs S R fs (fs_remove (cs ++ [p; r]) fs).

(** The two patterns Enumerate compiles for a table made by
    MakeCasTable, and the quarantine directory of the cas directory with
    segments [cs]. *)
Abbreviation rePrefix := (HexExactly splitAt).
Abbreviation reRest := (HexExactly (hashLength - splitAt)).
Abbreviation trashSegs cs := ("" :: cs ++ [TrashName]).

(** No entry of the cas directory with segments [cs], and no entry of a
    directory in it, has the empty name. *)
Definition namesOK (cs : path) (fs : node) : Prop :=
  ∀ l m, l = cs ∨ (∃ p, l = cs ++ [p]) → walk fs l = inr (Dir m) → m !! "" = None.

(** The shards among [prefixes] have no entry with the empty name. *)
Definition shardsNamed (cs : path) (prefixes : list string) (d : disk) : Prop :=
  ∀ p, p ∈ prefixes → validPrefix p = true →
       ∀ m, walk (root d) (cs ++ [p]) = inr (Dir m) → m !! "" = None.

(** No shutdown signal arrives during a scan. *)
Definition uninterrupted (interrupted : nat → bool) : Prop := ∀ i, interrupted i = false.


(** ** A small store, for the examples *)

Definition digest1 : string := Eval vm_compute in sha1Bytes (list_byte_of_string "content1").
Definition digest2 : string := Eval vm_compute in sha1Bytes (list_byte_of_string "content2").

(** The tree {file1 → "content1", dir1/dir2/file2 → "content2"}. *)
Definition exampleTree : Entry :=
  MkEntry "" [("file1", MkEntry digest1 []);
              ("dir1", MkEntry "" [("dir2", MkEntry "" [("file2", MkEntry digest2 [])])])].

Definition exampleTreeBytes : list byte := list_byte_of_string "{tree1}".
Definition digestTree : string := Eval vm_compute in sha1Bytes exampleTreeBytes.

(** An environment: the quarantine directory is called "trash", the
    decoder knows the one tree of the examples. *)
Definition exampleEnv : Env := {|
  TrashName := "trash";
  decodeEntry data :=
    if decide (data = exampleTreeBytes) then inr exampleTree
    else inl (Errorf "invalid character");
  Getwd := inr [""; "home"]
|}.

(** The table of the store rooted at "/r". *)
Definition exampleTable : Cas.casTable := {|
  Cas.rootDir := [""; "r"];
  Cas.casDir := [""; "r"; "cas"];
  Cas.prefixLength := 3;
  Cas.validPath := HexExactly 40;
  Cas.trash := {| Trash.rootDir := [""; "r"; "cas"];
                  Trash.trashDir := [""; "r"; "cas"; "trash"] |}
|}.

(** A disk on which "/r/cas" holds the shards of the three digests,
    empty. *)
Definition exampleDisk : disk := {|
  root := Dir {[ "r" := Dir {[ "cas" :=
            Dir {[ sliceTo 3 digest1 := Dir ∅;
                   sliceTo 3 digest2 := Dir ∅;
                   sliceTo 3 digestTree := Dir ∅ ]} ]} ]};
  quarantine := []
|}.


(** What an uninterrupted Enumerate delivers for the shard named [p]
    holding [n]: its well-formed names, or the error of a shard that
    cannot be listed. *)
Definition itemsOfShard (p : string) (n : node) : list CasEntry :=
  match n with
  | Dir m =>
      map (λ r, {| Item := p +:+ r; Error := None |})
          (filter (λ r, validRest r = true) (dirNames m))
  | File _ => [{| Item := ""; Error := Some (Errorf "Failed reading %s") |}]
  end.

(** ... for the name [p] of the cas directory holding [top] ... *)
Definition itemsOfName `{Env} (top : gmap string node) (p : string) : list CasEntry :=
  if decide (p = TrashName) then []
  else if validPrefix p then
    match top !! p with
    | Some n => itemsOfShard p n
    | None => []
    end
  else [].

(** ... and for the whole cas directory. *)
Definition itemsOfStore `{Env} (top : gmap string node) : list CasEntry :=
  flat_map (itemsOfName top) (dirNames top).


(** The segments below "/" of the cas directory of [c]. *)
Definition casSegs (c : Cas.casTable) : path :=
  match Cas.casDir c with
  | "" :: segs => segs
  | _ => []
  end.

(** Several Enumerate passes one after the other, each with its own
    answers of IsInterrupted(): what each pass delivers, and the disk
    after the last. *)
Fixpoint passes `{Env} (c : Cas.casTable) (runs : list (nat → bool)) (d : disk)
    : list (list CasEntry) * disk :=
  match runs with
  | [] => ([], d)
  | interrupted :: rest =>
      let '(items, d1) := Cas.Enumerate c interrupted d in
      let '(outs, d2) := passes c rest d1 in
      (items :: outs, d2)
  end.

(** Apart from the quarantine directory, the cas directory [top] holds
    only shards, and the shards only blobs. *)
Definition cleanStore `{Env} (top : gmap string node) : Prop :=
  ∀ x n, top !! x = Some n → x ≠ TrashName →
    validPrefix x = true
    ∧ ∃ m, n = Dir m ∧ ∀ r, is_Some (m !! r) → validRest r = true.


(** [namesOK], as a check on the cas directory [top]. *)
Definition namesOKb (top : gmap string node) : bool :=
  match top !! "" with
  | Some _ => false
  | None =>
      forallb (λ kv, match kv.2 with
                     | Dir m => match m !! "" with Some _ => false | None => true end
                     | File _ => true
                     end)
              (map_to_list top)
  end.


(** A cas directory that holds the blob of "content1" next to a file
    "junk" in the same shard, the blob of "content2", and a directory
    "lost+found"; and the disk that has it at "/r/cas". *)
Definition corruptTop : gmap string node :=
  {[ sliceTo 3 digest1 :=
       Dir {[ sliceFrom 3 digest1 := File (list_byte_of_string "content1");
              "junk" := File (list_byte_of_string "x") ]};
     sliceTo 3 digest2 :=
       Dir {[ sliceFrom 3 digest2 := File (list_byte_of_string "content2") ]};
     "lost+found" := Dir ∅ ]}.

Definition corruptDisk : disk := {|
  root := Dir {[ "r" := Dir {[ "cas" := Dir corruptTop ]} ]};
  quarantine := []
|}.

(** A cas directory that holds the blob of "content1" and the quarantine
    directory, into which "junk" has been moved before; and the disk
    that has it at "/r/cas". *)
Definition trashedTop : gmap string node :=
  {[ sliceTo 3 digest1 :=
       Dir {[ sliceFrom 3 digest1 := File (list_byte_of_string "content1") ]};
     "trash" := Dir ∅ ]}.

Definition trashedDisk : disk := {|
  root := Dir {[ "r" := Dir {[ "cas" := Dir trashedTop ]} ]};
  quarantine := [([""; "r"; "cas"; "trash"], [sliceTo 3 digest1; "junk"],
                  File (list_byte_of_string "x"))]
|}.


(** A segment that path.Clean keeps as it is. *)
Definition normalSeg (s : string) : Prop := s ≠ "" ∧ s ≠ "." ∧ s ≠ "..".

(** The marker file of the store rooted at [rootDir], as MakeCasTable and
    WarnIfFsckIsNeeded compute its path. *)
Definition markerOf (rootDir : path) : path :=
  path_Join [path_Join [path_Clean rootDir; seg casName]; seg needFsckName].

(** A disk on which the store at "/r" has its marker set. *)
Definition flaggedDisk : disk := {|
  root := Dir {[ "r" := Dir {[ "cas" := Dir {[ "need_fsck" := File [] ]} ]} ]};
  quarantine := []
|}.


(** ** Vocabulary of the collector's statements *)

(** The digests TagRecurse tags in a tree: every non-empty Sha1. *)
Fixpoint digestsOf (entry : Entry) : list string :=
  match entry with
  | MkEntry sha1 files =>
      (if decide (sha1 ≠ "") then [sha1] else [])
      ++ flat_map (λ i, let '(_, i) := i in digestsOf i) files
  end.

(** What a table must do for the collector to be right about it.  [wf]
    is what every state of the table satisfies; what Open answers is
    how the blobs of a state are observed. *)
Class CasTableLaws {T : Type} `{CasTable T} (wf : T → Prop) : Prop := {
  Enumerate_wf cas : wf cas → wf (Enumerate cas).2;
  Enumerate_Open cas h : wf cas → Open h (Enumerate cas).2 = Open h cas;
  Remove_wf cas h : wf cas → wf (Remove h cas).2;
  Remove_gone cas cas' h :
    wf cas → Remove h cas = (None, cas') → ∃ err, Open h cas' = inl err;
  Remove_other cas h h' :
    wf cas → h' ≠ h → Open h' (Remove h cas).2 = Open h' cas;
  Remove_failed cas cas' h err :
    wf cas → Remove h cas = (Some err, cas') → Open h cas' = Open h cas;
  SetFsckBit_wf cas : wf cas → wf (SetFsckBit cas);
  SetFsckBit_Open cas h : Open h (SetFsckBit cas) = Open h cas
}.

Section GcVocabulary.
Context `{Env} {T : Type} `{CasTable T}.

(** The digests the first pass of a run enumerates. *)
Definition enumerated (cas : T) : list string := Item <$> (Enumerate cas).1.

(** The digests the nodes mark, on the table as the first pass leaves
    it: each root Entry digest, and what TagRecurse tags in its tree. *)
Definition markedBy (cas : T) (nodes : list NodeEntry) : list string :=
  flat_map (λ item,
              Node_Entry (NE_Node item)
              :: match Gc.LoadEntry cas (Node_Entry (NE_Node item)) with
                 | inr entry => digestsOf entry
                 | inl _ => []
                 end)
           nodes.

(** The mark phase fails at some node: the Node Store delivers an error,
    or the root Entry of a node does not load. *)
Definition markFails (cas : T) (nodes : list NodeEntry) : Prop :=
  ∃ item, item ∈ nodes
          ∧ (is_Some (NE_Error item)
             ∨ ∃ err, Gc.LoadEntry cas (Node_Entry (NE_Node item)) = inl err).
End GcVocabulary.


(** A mock table with the tree blob of the examples, the blob of
    "content1" that the tree refers to, and a blob nothing refers to;
    the tree also refers to [digest2], which the table does not hold. *)
Definition digestOrphan : string :=
  Eval vm_compute in sha1Bytes (list_byte_of_string "content3").

Definition exampleMock : Mock.mockCasTable := {|
  Mock.entries :=
    <[digestTree := exampleTreeBytes]>
      (<[digest1 := list_byte_of_string "content1"]>
         (<[digestOrphan := list_byte_of_string "content3"]> ∅));
  Mock.needFsck := false
|}.

Definition exampleNodes : list NodeEntry :=
  [{| NE_Node := {| Node_Entry := digestTree |}; NE_Error := None |}].

(** An empty mock table, and a node whose root Entry is not there. *)
Definition emptyMock : Mock.mockCasTable :=
  {| Mock.entries := ∅; Mock.needFsck := false |}.

Definition danglingNodes : list NodeEntry :=
  [{| NE_Node := {| Node_Entry := digest1 |}; NE_Error := None |}].


(** [e'] is [e] or lies below it in the tree. *)
Inductive subEntry (e' : Entry) : Entry → Prop :=
| sub_here : subEntry e' e'
| sub_below sha1 files name child :
    (name, child) ∈ files → subEntry e' child → subEntry e' (MkEntry sha1 files).

(** A disk with nothing on it. *)
Definition emptyDisk : disk := {| root := Dir ∅; quarantine := [] |}.


(** The sixteen characters of the patterns, the 4096 names of three of
    them, and the names the loop of MakeCasTable goes through from [i]
    on. *)
Definition hexChars : list ascii := list_ascii_of_string "0123456789abcdef".

Definition allPrefixes : list string :=
  a ← hexChars; b ← hexChars; c ← hexChars; [String a (String b (String c ""))].

Definition shardNames (n : nat) (i : N) (todo : nat) : list string :=
  (λ k, Sprintf_0x n (i + N.of_nat k)) <$> seq 0 todo.

(** A disk that holds the empty directory "/r". *)
Definition freshDisk : disk :=
  {| root := Dir {[ "r" := Dir ∅ ]}; quarantine := [] |}.


(** ** utils.go: hashing and listing *)

(** What reading an open file delivers: its bytes, or the error of
    reading a directory. *)
Definition fileReader (f : node) : Reader :=
  match ReadAll f with
  | inr data => {| rd_data := data; rd_err := None |}
  | inl err => {| rd_data := []; rd_err := Some err |}
  end.

(** sha1File: the digest of what the reader delivers, unless io.Copy
    fails. *)
Definition sha1File (f : Reader) : string * option error :=
  match rd_err f with
  | Some err => ("", Some err)
  | None => (SHA1.hex (SHA1.sum (rd_data f)), None)
  end.

Definition sha1FilePath (fs : node) (filePath : path) : string * option error :=
  match os_Open fs filePath with
  | inl err => ("", Some err)
  | inr f => sha1File (fileReader f)
  end.

Definition sha1String (content : string) : string :=
  SHA1.hex (SHA1.sum (list_byte_of_string content)).

Definition isDir (fs : node) (p : path) : bool :=
  match stat fs p with
  | inr (Dir _) => true
  | _ => false
  end.

(** io.EOF *)
Definition EOF : error := Errorf "EOF".

(** f.Readdir(n) on the open file [f] of which [pos] entries have been
    read: the next [n] entries at most, io.EOF when none is left, and an
    error when [f] is no directory. *)
Definition Readdir (f : node) (dirPath : path) (pos n : nat)
    : list (string * node) * option error :=
  match f with
  | File _ => ([], Some (PathError "readdirent" dirPath ENOTDIR))
  | Dir m =>
      match drop pos (map_to_list m) with
      | [] => ([], Some EOF)
      | rest => (take n rest, None)
      end
  end.

(** The name readDirFancy gives an entry: "/" is appended to the name of
    a directory. *)
Definition fancyName (d : string * node) : string :=
  match d.2 with
  | Dir _ => d.1 +:+ "/"
  | File _ => d.1
  end.

(** The loop of readDirFancy; every round but the last reads at least
    one entry, and [fuel] bounds the number of rounds. *)
Fixpoint readDirFancyLoop (fuel : nat) (f : node) (dirPath : path) (pos : nat)
    (names : list string) : list string :=
  match fuel with
  | O => names
  | S fuel' =>
      let '(dirs, err) := Readdir f dirPath pos 1024 in
      if bool_decide (is_Some err) || (length dirs =? 0) then names
      else readDirFancyLoop fuel' f dirPath (pos + length dirs)
             (names ++ map fancyName dirs)
  end.

(** readDirFancy: "Reads a directory list and guarantees to return a
    list."  The error it returns is the one of os.Open: the [err] of the
    loop is a variable of its own. *)
Definition readDirFancy (fs : node) (dirPath : path) : list string * option error :=
  match os_Open fs dirPath with
  | inl err => ([], Some err)
  | inr f =>
      let entries := match f with Dir m => length (map_to_list m) | File _ => 0 end in
      (readDirFancyLoop (S entries) f dirPath 0 [], None)
  end.


(** ** cas_test.go: testCasTableImpl *)

(** The two methods of the table that testCasTableImpl calls beside
    those of [CasTable]. *)
Class CasTableFsck (T : Type) := {
  GetFsckBit : T → bool;
  ClearFsckBit : T → T
}.

#[export] Instance mockCasTable_CasTableFsck : CasTableFsck Mock.mockCasTable := {|
  GetFsckBit := Mock.GetFsckBit;
  ClearFsckBit := Mock.ClearFsckBit
|}.

(** The loop "for v := range cas.Enumerate()" of the test: every item is
    [file1], and [count] of them are seen. *)
Definition onlyItem (file1 : string) (items : list CasEntry) : bool :=
  forallb (λ v, bool_decide (Item v = file1)) items && (length items =? 1).

(** testCasTableImpl, for the content [content] in the place of
    "content1": [true] when no assertion of the test fails. *)
Definition testCasTableImplOn {T : Type} `{CasTable T} `{CasTableFsck T}
    (content : list byte) (cas : T) : bool :=
  let '(items, cas) := Enumerate cas in
  let noValue := match items with [] => true | _ => false end in
  let '(file1, err, cas) := AddBytes cas content in
  let added := match err with None => true | Some _ => false end in
  let '(items, cas) := Enumerate cas in
  let once := onlyItem file1 items in
  let '(file2, err, cas) := AddBytes cas content in
  let exists_ := match err with Some e => os_IsExist e | None => false end in
  let sameHash := bool_decide (file1 = file2) in
  let '(items, cas) := Enumerate cas in
  let stillOnce := onlyItem file1 items in
  let read :=
    match Open file1 cas with
    | inl _ => false
    | inr f =>
        match ReadAllHandle f with
        | inl _ => false
        | inr data => bool_decide (data = content)
        end
    end in
  let refused := match Open "0" cas with inl _ => true | inr _ => false end in
  let '(err, cas) := Remove file1 cas in
  let removed := match err with None => true | Some _ => false end in
  let '(err, cas) := Remove file1 cas in
  let gone := match err with None => false | Some _ => true end in
  let unset := negb (GetFsckBit cas) in
  let cas := SetFsckBit cas in
  let set := GetFsckBit cas in
  let cas := ClearFsckBit cas in
  let cleared := negb (GetFsckBit cas) in
  noValue && added && once && exists_ && sameHash && stillOnce && read && refused
  && removed && gone && unset && set && cleared.

Definition testCasTableImpl {T : Type} `{CasTable T} `{CasTableFsck T} (cas : T) : bool :=
  testCasTableImplOn (list_byte_of_string "content1") cas.


(** ** utils.go: EnumerateTree *)

#[export] Instance Errno_eq_decision : EqDecision Errno.
Proof. solve_decision. Defined.

#[export] Instance error_eq_decision : EqDecision error.
Proof. solve_decision. Defined.




Section EnumerateTree.
(** [interrupted k] is what IsInterrupted() answers at its [k]-th call;
    [fs] is the disk, which the walk does not change.  A walk returns
    what it has sent on the channel, its result, and the number of calls
    of IsInterrupted() so far. *)
Variable interrupted : nat → bool.
Variable fs : node.




End EnumerateTree.










(** A cas directory in which a regular file bears the shard name "abc",
    and the disk that has it at "/r/cas". *)
Definition brokenTop : gmap string node :=
  {[ "abc" := File (list_byte_of_string "x") ]}.

Definition brokenDisk : disk := {|
  root := Dir {[ "r" := Dir {[ "cas" := Dir brokenTop ]} ]};
  quarantine := []
|}.


(** ** The two tables side by side *)

(** The store on [d] holds nothing but shards, and the shards nothing
    but blobs that are regular files (the quarantine directory apart). *)
Definition tidy `{Env} (cs : path) (d : disk) : Prop :=
  namesOK cs (root d)
  ∧ ∃ top, walk (root d) cs = inr (Dir top)
           ∧ ∀ x n, top !! x = Some n → x ≠ TrashName →
               validPrefix x = true
               ∧ ∃ ms, n = Dir ms
                       ∧ ∀ r n', ms !! r = Some n' →
                           validRest r = true ∧ ∃ data, n' = File data.

(** The table in memory [m] holds what the store on [d] holds: the same
    digests with the same bytes, and no other key. *)
Definition agrees (cs : path) (d : disk) (m : Mock.mockCasTable) : Prop :=
  ∀ h, Mock.entries m !! h
       = if validDigest h then
           match walk (root d) (blobSegs cs h) with
           | inr (File data) => Some data
           | _ => None
           end
         else None.

(** * Properties *)

(** ** Strings and patterns *)

Lemma substring_0_app (a b : string) :
  String.substring 0 (String.length a) (a +:+ b) = a.
Proof. induction a as [|ch a IH]; simpl; [by destruct b | by rewrite IH]. Qed.

Lemma substring_full (s : string) : String.substring 0 (String.length s) s = s.
Proof. induction s as [|ch s IH]; simpl; [done | by rewrite IH]. Qed.

Lemma substring_skip_app (a b : string) (m : nat) :
  String.substring (String.length a) m (a +:+ b) = String.substring 0 m b.
Proof. induction a as [|ch a IH]; simpl; [done | by rewrite IH]. Qed.

Lemma length_app_string (a b : string) :
  String.length (a +:+ b) = String.length a + String.length b.
Proof. induction a as [|ch a IH]; simpl; [done | by rewrite IH]. Qed.

Lemma sliceTo_app (a b : string) : sliceTo (String.length a) (a +:+ b) = a.
Proof. apply substring_0_app. Qed.

Lemma sliceFrom_app (a b : string) : sliceFrom (String.length a) (a +:+ b) = b.
Proof.
  unfold sliceFrom. rewrite substring_skip_app, length_app_string.
  replace (String.length a + String.length b - String.length a)
    with (String.length b) by lia.
  apply substring_full.
Qed.

Lemma slice_split (n : nat) (s : string) :
  n ≤ String.length s →
  ∃ a b, s = a +:+ b ∧ String.length a = n.
Proof.
  revert s. induction n as [|n IH]; intros s Hn.
  - by exists "", s.
  - destruct s as [|ch s]; simpl in Hn; [lia|].
    destruct (IH s) as (a & b & -> & Ha); [lia|].
    exists (String ch a), b. simpl. by rewrite Ha.
Qed.

Lemma slices_join (n : nat) (s : string) :
  n ≤ String.length s → sliceTo n s +:+ sliceFrom n s = s.
Proof.
  intros Hn. destruct (slice_split n s Hn) as (a & b & -> & <-).
  by rewrite sliceTo_app, sliceFrom_app.
Qed.

Lemma list_ascii_app (a b : string) :
  list_ascii_of_string (a +:+ b) = list_ascii_of_string a ++ list_ascii_of_string b.
Proof. induction a as [|ch a IH]; simpl; [done | by rewrite IH]. Qed.

Lemma MatchString_hex_length (n : nat) (s : string) :
  MatchString (HexExactly n) s = true → String.length s = n.
Proof. simpl. intros [Hl _]%andb_prop. by apply Nat.eqb_eq. Qed.

(** A string of [n + m] hex digits is a string of [n] followed by a
    string of [m]. *)
Lemma MatchString_hex_app (n m : nat) (a b : string) :
  String.length a = n →
  MatchString (HexExactly (n + m)) (a +:+ b)
  = MatchString (HexExactly n) a && MatchString (HexExactly m) b.
Proof.
  intros Ha. simpl. rewrite length_app_string, list_ascii_app, forallb_app, Ha.
  rewrite Nat.eqb_refl. simpl.
  destruct (decide (String.length b = m)) as [->|Hne].
  - rewrite !Nat.eqb_refl.
    replace (n + String.length b =? n + String.length b) with true
      by (symmetry; apply Nat.eqb_eq; lia).
    simpl. by destruct (forallb isLowerHex (list_ascii_of_string a)).
  - replace (n + String.length b =? n + m) with false
      by (symmetry; apply Nat.eqb_neq; lia).
    replace (String.length b =? m) with false
      by (symmetry; by apply Nat.eqb_neq).
    simpl. by rewrite andb_false_r.
Qed.

Lemma MatchString_hex_slices (n m : nat) (s : string) :
  MatchString (HexExactly (n + m)) s = true →
  MatchString (HexExactly n) (sliceTo n s) = true
  ∧ MatchString (HexExactly m) (sliceFrom n s) = true.
Proof.
  intros Hs. pose proof (MatchString_hex_length _ _ Hs) as Hl.
  destruct (slice_split n s) as (a & b & -> & Ha); [lia|].
  rewrite (MatchString_hex_app n m a b Ha) in Hs.
  apply andb_prop in Hs as [Hm1 Hm2].
  subst n. by rewrite sliceTo_app, sliceFrom_app.
Qed.

Lemma app_string_inj (a a' b b' : string) :
  String.length a = String.length a' → a +:+ b = a' +:+ b' → a = a' ∧ b = b'.
Proof.
  revert a'. induction a as [|ch a IH]; intros [|ch' a'] Hl Heq; simpl in *; try done.
  injection Heq as -> Heq. destruct (IH a') as [-> ->]; [lia | done | done].
Qed.

Lemma seg_nonempty (s : string) : s ≠ "" → seg s = [s].
Proof. intros Hs. unfold seg. by destruct (decide (s = "")). Qed.

Lemma hex_nonempty (n : nat) (s : string) :
  MatchString (HexExactly (S n)) s = true → s ≠ "".
Proof. intros Hs%MatchString_hex_length ->. simpl in Hs. lia. Qed.

(** ** The disk tree *)

Lemma walk_app (n : node) (p q : path) :
  walk n (p ++ q) = match walk n p with inr n' => walk n' q | inl e => inl e end.
Proof.
  revert n. induction p as [|x p IH]; intros n; simpl; [done|].
  destruct n as [|m]; [done|]. destruct (m !! x); [apply IH | done].
Qed.

Lemma walk_errno (n : node) (p : path) (e : Errno) :
  walk n p = inl e → e = ENOENT ∨ e = ENOTDIR.
Proof.
  revert n. induction p as [|x p IH]; intros n; simpl; [done|].
  destruct n as [|m]; [intros [= <-]; by right|].
  destruct (m !! x); [apply IH | intros [= <-]; by left].
Qed.

Lemma walk_snoc_dir (n : node) (p : path) (x : string) (m : gmap string node) :
  walk n p = inr (Dir m) →
  walk n (p ++ [x]) = match m !! x with Some n' => inr n' | None => inl ENOENT end.
Proof. intros Hp. rewrite walk_app, Hp. simpl. by destruct (m !! x). Qed.

(** A path that leads somewhere leads through directories. *)
Lemma walk_prefix_dir (n n' : node) (p q : path) :
  q ≠ [] → walk n (p ++ q) = inr n' → ∃ m, walk n p = inr (Dir m).
Proof.
  intros Hq. rewrite walk_app. destruct (walk n p) as [|[data|m]]; [done| |by eauto].
  destruct q; [done|]. done.
Qed.

Lemma fs_alter_cons (f : option node → option node) (x : string) (q : path)
    (m : gmap string node) :
  q ≠ [] → fs_alter f (x :: q) (Dir m) = Dir (alter (fs_alter f q) x m).
Proof. by destruct q. Qed.

(** Altering below [l ++ [x]] leaves alone whatever lies below
    [l ++ [y]] for another name [y]. *)
Lemma walk_alter_diverge (f : option node → option node) (l : path) (x y : string)
    (p q : path) (n : node) :
  x ≠ y → walk (fs_alter f (l ++ x :: p) n) (l ++ y :: q) = walk n (l ++ y :: q).
Proof.
  intros Hxy. revert n. induction l as [|a l IH]; intros n.
  - destruct n as [|m]; [done|]. destruct p as [|z p]; simpl.
    + by rewrite lookup_partial_alter_ne.
    + by rewrite lookup_alter_ne.
  - destruct n as [|m]; [done|].
    rewrite <- !app_comm_cons, fs_alter_cons by (by destruct l).
    simpl. rewrite lookup_alter. destruct (decide (a = a)); [|done].
    destruct (m !! a); simpl; [apply IH | done].
Qed.

(** Altering an entry of the directory at [l]: the directory afterwards. *)
Lemma walk_alter_parent (f : option node → option node) (l : path) (x : string)
    (n : node) (m : gmap string node) :
  walk n l = inr (Dir m) →
  walk (fs_alter f (l ++ [x]) n) l = inr (Dir (partial_alter f x m)).
Proof.
  revert n. induction l as [|a l IH]; intros n Hl.
  - simpl in Hl. injection Hl as ->. done.
  - destruct n as [|m0]; [done|]. simpl in Hl.
    destruct (m0 !! a) as [n1|] eqn:Ha; [|done].
    rewrite <- app_comm_cons, fs_alter_cons by (by destruct l).
    simpl. rewrite lookup_alter. destruct (decide (a = a)); [|done].
    rewrite Ha. simpl. by apply IH.
Qed.

Lemma walk_alter_same (f : option node → option node) (l : path) (x : string)
    (q : path) (n : node) (m : gmap string node) :
  walk n l = inr (Dir m) →
  walk (fs_alter f (l ++ [x]) n) (l ++ x :: q)
  = match f (m !! x) with Some n' => walk n' q | None => inl ENOENT end.
Proof.
  intros Hl. rewrite walk_app, (walk_alter_parent f l x n m Hl). simpl.
  by rewrite lookup_partial_alter_eq.
Qed.

(** Nothing changes when the parent is not a directory. *)
Lemma fs_alter_no_parent (f : option node → option node) (l : path) (x : string)
    (n : node) :
  (∀ m, walk n l ≠ inr (Dir m)) → fs_alter f (l ++ [x]) n = n.
Proof.
  revert n. induction l as [|a l IH]; intros n Hl.
  - destruct n as [|m]; [done|]. by destruct (Hl m).
  - destruct n as [|m0]; [done|].
    rewrite <- app_comm_cons, fs_alter_cons by (by destruct l).
    f_equal. apply map_eq. intros k. rewrite lookup_alter.
    destruct (decide (a = k)) as [<-|]; [|done].
    destruct (m0 !! a) as [n1|] eqn:Ha; [|done]. simpl. f_equal.
    apply IH. intros m Hw. apply (Hl m). simpl. by rewrite Ha.
Qed.

(** ** The table that MakeCasTable builds *)

Lemma path_Join2 (a : path) (x : string) : a ≠ [] → path_Join [a; [x]] = a ++ [x].
Proof. intros Ha. destruct a; [done|]. reflexivity. Qed.

Lemma path_Join3 (a : path) (x y : string) :
  a ≠ [] → path_Join [a; [x]; [y]] = a ++ [x; y].
Proof. intros Ha. destruct a; [done|]. reflexivity. Qed.

Lemma path_Join_segs (x y : string) : path_Join [[x]; [y]] = [x; y].
Proof. reflexivity. Qed.

Lemma path_Clean_abs (p : path) :
  path_IsAbs p = true → ∃ segs, path_Clean p = "" :: segs.
Proof.
  destruct p as [|s p]; [done|]. simpl.
  destruct s as [|ch s]; [|done]. intros _. simpl. eauto.
Qed.

Section Made.
Context `{Env}.

#[local] Arguments Cas.makePrefixes : simpl never.
#[local] Arguments prefixSpace : simpl never.
#[local] Arguments os_Mkdir : simpl never.

Lemma made_tableAt (c : Cas.casTable) : made c → ∃ cs, tableAt cs c.
Proof.
  intros (rootDir & d & Hmk). unfold Cas.MakeCasTable in Hmk.
  destruct (path_IsAbs rootDir) eqn:Habs; simpl in Hmk; [|done].
  destruct (path_Clean_abs rootDir Habs) as [segs Hclean].
  assert (Hjoin : path_Join [path_Clean rootDir; seg casName] = "" :: segs ++ [casName]).
  { rewrite Hclean. reflexivity. }
  rewrite Hjoin in Hmk.
  assert (c = {| Cas.rootDir := path_Clean rootDir;
                 Cas.casDir := "" :: segs ++ [casName];
                 Cas.prefixLength := splitAt;
                 Cas.validPath := HexExactly hashLength;
                 Cas.trash := Trash.MakeTrash ("" :: segs ++ [casName]) |}) as ->.
  { destruct (os_Mkdir (root d) ("" :: segs ++ [casName])) as [[err|] fs1].
    - destruct (os_IsExist err); simpl in Hmk; [by injection Hmk | done].
    - destruct (Cas.makePrefixes _ _ _ _ _) as [[err|] fs2]; simpl in Hmk;
        [done | by injection Hmk]. }
  exists (segs ++ [casName]). by repeat split.
Qed.

Section Table.
Variables (cs : path) (c : Cas.casTable).
Hypothesis Hc : tableAt cs c.

Lemma tableAt_casDir : Cas.casDir c = "" :: cs.
Proof using Hc. apply Hc. Qed.

Lemma tableAt_trash :
  Cas.trash c = {| Trash.rootDir := "" :: cs;
                   Trash.trashDir := path_Join ["" :: cs; seg TrashName] |}.
Proof using Hc.
  destruct Hc as (Hd & _ & _ & ->). by rewrite Hd.
Qed.

Lemma filePath_valid (h : string) :
  validDigest h = true →
  Cas.filePath c h = "" :: cs ++ [sliceTo splitAt h; sliceFrom splitAt h].
Proof using Hc.
  intros Hh. destruct Hc as (Hd & Hp & Hv & _).
  unfold Cas.filePath, FindStringSubmatch. rewrite Hv, Hp, Hd.
  unfold validDigest in Hh. rewrite Hh. simpl nth.
  destruct (MatchString_hex_slices splitAt (hashLength - splitAt) h Hh) as [H1 H2].
  rewrite (seg_nonempty (sliceTo splitAt h)) by apply (hex_nonempty 2), H1.
  rewrite (seg_nonempty (sliceFrom splitAt h)) by apply (hex_nonempty 36), H2.
  rewrite path_Join3 by done. done.
Qed.

Lemma filePath_invalid (h : string) :
  validDigest h = false → Cas.filePath c h = [].
Proof using Hc.
  intros Hh. destruct Hc as (_ & _ & Hv & _).
  unfold Cas.filePath, FindStringSubmatch. rewrite Hv.
  unfold validDigest in Hh. by rewrite Hh.
Qed.

Lemma Open_valid (h : string) (d : disk) :
  validDigest h = true →
  Cas.Open c h d
  = match walk (root d) (cs ++ [sliceTo splitAt h; sliceFrom splitAt h]) with
    | inr f => inr (OsFile f)
    | inl e => inl (PathError "open" (Cas.filePath c h) e)
    end.
Proof using Hc.
  intros Hh. unfold Cas.Open. rewrite (filePath_valid h Hh).
  destruct (decide _) as [Heq|_]; [done|].
  unfold os_Open, stat. simpl.
  by destruct (walk (root d) _).
Qed.

Lemma Open_invalid (h : string) (d : disk) :
  validDigest h = false → Cas.Open c h d = inl ErrInvalid.
Proof using Hc.
  intros Hh. unfold Cas.Open. rewrite (filePath_invalid h Hh).
  by destruct (decide _).
Qed.
End Table.
End Made.

(** ** Exclusive creation, Open and Remove *)

Lemma stat_rooted (fs : node) (segs : path) : stat fs ("" :: segs) = walk fs segs.
Proof. done. Qed.

Lemma parentOf_snoc (l : path) (x : string) : parentOf ("" :: l ++ [x]) = "" :: l.
Proof. unfold parentOf. rewrite app_comm_cons. apply removelast_last. Qed.

Lemma os_OpenFile_excl_spec (fs : node) (l : path) (x : string) :
  os_OpenFile_excl fs ("" :: l ++ [x])
  = match walk fs (l ++ [x]) with
    | inr _ => (Some (PathError "open" ("" :: l ++ [x]) EEXIST), fs)
    | inl ENOENT =>
        match walk fs l with
        | inr (Dir _) => (None, fs_put (l ++ [x]) (File []) fs)
        | _ => (Some (PathError "open" ("" :: l ++ [x]) ENOENT), fs)
        end
    | inl e => (Some (PathError "open" ("" :: l ++ [x]) e), fs)
    end.
Proof.
  unfold os_OpenFile_excl. rewrite stat_rooted, parentOf_snoc, stat_rooted.
  destruct (walk fs (l ++ [x])) as [[]|]; try done.
  destruct (walk fs l) as [|[|m]]; try done.
  simpl. by destruct l.
Qed.

Lemma os_OpenFile_excl_relative (fs : node) :
  os_OpenFile_excl fs [] = (Some (PathError "open" [] ENOENT), fs).
Proof. done. Qed.

(** What a put leaves at the place it wrote. *)
Lemma walk_put_same (fs : node) (l : path) (x : string) (n' : node)
    (m : gmap string node) :
  walk fs l = inr (Dir m) → walk (fs_put (l ++ [x]) n' fs) (l ++ [x]) = inr n'.
Proof. intros Hl. unfold fs_put. by rewrite (walk_alter_same _ l x [] fs m Hl). Qed.

Lemma walk_put_parent (fs : node) (l : path) (x : string) (n' : node)
    (m : gmap string node) :
  walk fs l = inr (Dir m) → walk (fs_put (l ++ [x]) n' fs) l = inr (Dir (<[x := n']> m)).
Proof. intros Hl. unfold fs_put. by rewrite (walk_alter_parent _ l x fs m Hl). Qed.

Lemma walk_remove_same (fs : node) (l : path) (x : string) (q : path)
    (m : gmap string node) :
  walk fs l = inr (Dir m) → walk (fs_remove (l ++ [x]) fs) (l ++ x :: q) = inl ENOENT.
Proof. intros Hl. unfold fs_remove. by rewrite (walk_alter_same _ l x q fs m Hl). Qed.

Lemma walk_remove_parent (fs : node) (l : path) (x : string) (m : gmap string node) :
  walk fs l = inr (Dir m) → walk (fs_remove (l ++ [x]) fs) l = inr (Dir (delete x m)).
Proof. intros Hl. unfold fs_remove. by rewrite (walk_alter_parent _ l x fs m Hl). Qed.

Lemma cons_middle_snoc {A} (l : list A) (x y : A) : l ++ [x; y] = (l ++ [x]) ++ [y].
Proof. by rewrite <- app_assoc. Qed.

Section TableOps.
Context `{Env}.
Variables (cs : path) (c : Cas.casTable).
Hypothesis Hc : tableAt cs c.

Lemma AddEntry_invalid (source : Reader) (h : string) (d : disk) :
  validDigest h = false →
  Cas.AddEntry c source h d = (Some (Errorf "Failed to copy(dst) %s: %s"), d).
Proof using Hc.
  intros Hh. unfold Cas.AddEntry. by rewrite (filePath_invalid cs c Hc h Hh).
Qed.

(** The three ways AddEntry can go for a well-formed digest. *)
Lemma AddEntry_valid (source : Reader) (h : string) (d : disk) :
  validDigest h = true →
  Cas.AddEntry c source h d
  = match walk (root d) (blobSegs cs h) with
    | inr _ => (Some (PathError "open" (Cas.filePath c h) EEXIST), d)
    | inl ENOENT =>
        match walk (root d) (cs ++ [sliceTo splitAt h]) with
        | inr (Dir _) =>
            (rd_err source,
             {| root := fs_put (blobSegs cs h) (File (rd_data source))
                          (fs_put (blobSegs cs h) (File []) (root d));
                quarantine := quarantine d |})
        | _ => (Some (Errorf "Failed to copy(dst) %s: %s"), d)
        end
    | inl _ => (Some (Errorf "Failed to copy(dst) %s: %s"), d)
    end.
Proof using Hc.
  intros Hh. unfold Cas.AddEntry, blobSegs.
  rewrite (filePath_valid cs c Hc h Hh), !cons_middle_snoc, os_OpenFile_excl_spec.
  destruct (walk (root d) _) as [e|] eqn:Hw; [|done].
  destruct (walk_errno _ _ _ Hw) as [-> | ->]; [|done].
  destruct (walk (root d) (cs ++ _)) as [|[|m]]; done.
Qed.

(** When the exclusive create succeeds, the file holds afterwards what
    the source delivered, whatever error the source ended with. *)
Lemma AddEntry_created (source : Reader) (h : string) (d : disk) :
  (os_OpenFile_excl (root d) (Cas.filePath c h)).1 = None →
  validDigest h = true
  ∧ (Cas.AddEntry c source h d).1 = rd_err source
  ∧ walk (root (Cas.AddEntry c source h d).2) (blobSegs cs h)
    = inr (File (rd_data source)).
Proof using Hc.
  intros Hex. destruct (validDigest h) eqn:Hh.
  2: { by rewrite (filePath_invalid cs c Hc h Hh) in Hex. }
  split; [done|]. rewrite (AddEntry_valid source h d Hh).
  rewrite (filePath_valid cs c Hc h Hh), cons_middle_snoc, os_OpenFile_excl_spec in Hex.
  unfold blobSegs. rewrite !cons_middle_snoc.
  destruct (walk (root d) ((cs ++ _) ++ _)) as [[]|]; try done.
  destruct (walk (root d) (cs ++ _)) as [|[|m]] eqn:Hsh; try done.
  split; [done|]. simpl.
  eapply walk_put_same. by eapply walk_put_parent.
Qed.

(** An AddEntry that reports no error has created the file. *)
Lemma AddEntry_ok_created (source : Reader) (h : string) (d d1 : disk) :
  Cas.AddEntry c source h d = (None, d1) →
  (os_OpenFile_excl (root d) (Cas.filePath c h)).1 = None.
Proof using Hc.
  unfold Cas.AddEntry.
  destruct (os_OpenFile_excl (root d) (Cas.filePath c h)) as [[err|] fs1]; [|done].
  by destruct (os_IsExist err).
Qed.

(** Once something lives at the digest, AddEntry refuses and changes
    nothing. *)
Lemma AddEntry_exists (source : Reader) (h : string) (d : disk) (n : node) :
  validDigest h = true → walk (root d) (blobSegs cs h) = inr n →
  ∃ err, Cas.AddEntry c source h d = (Some err, d) ∧ os_IsExist err = true.
Proof using Hc.
  intros Hh Hn. rewrite (AddEntry_valid source h d Hh), Hn. eauto.
Qed.
End TableOps.

(** ** Moving to the Trash *)

Lemma os_Mkdir_spec (fs : node) (l : path) (x : string) :
  os_Mkdir fs ("" :: l ++ [x])
  = match walk fs (l ++ [x]) with
    | inr _ => (Some (PathError "mkdir" ("" :: l ++ [x]) EEXIST), fs)
    | inl ENOENT =>
        match walk fs l with
        | inr (Dir _) => (None, fs_put (l ++ [x]) (Dir ∅) fs)
        | _ => (Some (PathError "mkdir" ("" :: l ++ [x]) ENOENT), fs)
        end
    | inl e => (Some (PathError "mkdir" ("" :: l ++ [x]) e), fs)
    end.
Proof.
  unfold os_Mkdir. rewrite stat_rooted, parentOf_snoc, stat_rooted.
  destruct (walk fs (l ++ [x])) as [[]|]; try done.
  destruct (walk fs l) as [|[|m]]; try done.
  simpl. by destruct l.
Qed.

(** ensureDir only ever adds the entry [x] to the directory at [l]. *)
Lemma ensureDir_cases (fs : node) (l : path) (x : string) :
  Trash.ensureDir fs ("" :: l ++ [x]) = fs
  ∨ (walk fs (l ++ [x]) = inl ENOENT
     ∧ Trash.ensureDir fs ("" :: l ++ [x]) = fs_put (l ++ [x]) (Dir ∅) fs).
Proof.
  unfold Trash.ensureDir. rewrite stat_rooted, os_Mkdir_spec.
  destruct (walk fs (l ++ [x])) as [[]|] eqn:Hw; try by left.
  destruct (walk fs l) as [|[|m]]; try by left. by right.
Qed.

Lemma ensureDir_other (fs : node) (l : path) (x y : string) (q : path) :
  x ≠ y →
  walk (Trash.ensureDir fs ("" :: l ++ [x])) (l ++ y :: q) = walk fs (l ++ y :: q).
Proof.
  intros Hxy. destruct (ensureDir_cases fs l x) as [-> | [_ ->]]; [done|].
  unfold fs_put. by apply walk_alter_diverge.
Qed.

(** What exists stays where it is when the quarantine directory is
    created. *)
Lemma ensureDir_keeps (fs : node) (l : path) (x y : string) (q : path) (n : node) :
  walk fs (l ++ y :: q) = inr n →
  walk (Trash.ensureDir fs ("" :: l ++ [x])) (l ++ y :: q) = inr n.
Proof.
  intros Hn. destruct (decide (x = y)) as [<-|Hxy].
  - destruct (ensureDir_cases fs l x) as [-> | [Hno _]]; [done|].
    replace (l ++ x :: q) with ((l ++ [x]) ++ q) in Hn by (by rewrite <- app_assoc).
    rewrite walk_app, Hno in Hn. done.
  - by rewrite ensureDir_other.
Qed.

Lemma ensureDir_parent (fs : node) (l : path) (x : string) (m : gmap string node) :
  walk fs l = inr (Dir m) →
  ∃ m', walk (Trash.ensureDir fs ("" :: l ++ [x])) l = inr (Dir m')
        ∧ ∀ y, y ≠ x → m' !! y = m !! y.
Proof.
  intros Hl. destruct (ensureDir_cases fs l x) as [-> | [_ ->]]; [by eauto|].
  rewrite (walk_put_parent fs l x _ m Hl). eexists; split; [done|].
  intros y Hy. by rewrite lookup_insert_ne.
Qed.

Section Quarantine.
Context {E : Env} {EOK : EnvOK E}.
Variables (cs : path) (c : Cas.casTable).
Hypothesis Hc : tableAt cs c.

Lemma tableAt_trashDir : Trash.trashDir (Cas.trash c) = "" :: cs ++ [TrashName].
Proof using Hc EOK.
  rewrite (tableAt_trash cs c Hc). simpl.
  rewrite (seg_nonempty _ TrashName_nonempty). done.
Qed.

Lemma Move_spec (rel : path) (d : disk) :
  rel ≠ [] →
  Trash.Move (Cas.trash c) rel d
  = match walk (root d) (cs ++ rel) with
    | inr payload =>
        (None,
         {| root := fs_remove (cs ++ rel)
                      (Trash.ensureDir (root d) ("" :: cs ++ [TrashName]));
            quarantine := quarantine d ++ [("" :: cs ++ [TrashName], rel, payload)] |})
    | inl e => (Some (PathError "rename" ("" :: cs ++ rel) e), d)
    end.
Proof using Hc EOK.
  intros Hrel. unfold Trash.Move. rewrite tableAt_trashDir.
  rewrite (tableAt_trash cs c Hc). simpl Trash.rootDir.
  assert (path_Join ["" :: cs; rel] = "" :: cs ++ rel) as ->.
  { destruct rel; [done|]. unfold path_Join. simpl. by rewrite app_nil_r. }
  rewrite stat_rooted. simpl rooted.
  by destruct (walk (root d) (cs ++ rel)).
Qed.

Lemma Remove_valid (h : string) (d : disk) :
  validDigest h = true →
  Cas.Remove c h d
  = Trash.Move (Cas.trash c) [sliceTo splitAt h; sliceFrom splitAt h] d.
Proof using Hc.
  intros Hh. destruct Hc as (_ & Hp & Hv & _).
  unfold Cas.Remove, FindStringSubmatch. rewrite Hv, Hp.
  unfold validDigest in Hh. rewrite Hh.
  destruct (MatchString_hex_slices splitAt (hashLength - splitAt) h Hh) as [H1 H2].
  rewrite (seg_nonempty (sliceTo splitAt h)) by apply (hex_nonempty 2), H1.
  rewrite (seg_nonempty (sliceFrom splitAt h)) by apply (hex_nonempty 36), H2.
  done.
Qed.

Lemma Remove_invalid (h : string) (d : disk) :
  validDigest h = false → Cas.Remove c h d = (Some (Errorf "Remove(%s) is invalid"), d).
Proof using Hc.
  intros Hh. destruct Hc as (_ & _ & Hv & _).
  unfold Cas.Remove, FindStringSubmatch. rewrite Hv.
  unfold validDigest in Hh. by rewrite Hh.
Qed.

(** Remove of a digest that is there: it succeeds and the digest is
    gone afterwards. *)
Lemma Remove_present (h : string) (d : disk) (n : node) :
  validDigest h = true → walk (root d) (blobSegs cs h) = inr n →
  ∃ d2, Cas.Remove c h d = (None, d2)
        ∧ walk (root d2) (blobSegs cs h) = inl ENOENT
        ∧ quarantine d2
          = quarantine d
            ++ [("" :: cs ++ [TrashName], [sliceTo splitAt h; sliceFrom splitAt h], n)].
Proof using Hc EOK.
  intros Hh Hn. rewrite (Remove_valid h d Hh), Move_spec by done.
  unfold blobSegs in *. rewrite Hn. eexists; split; [done|]. split; [|done].
  simpl root. rewrite cons_middle_snoc.
  destruct (walk_prefix_dir (root d) n (cs ++ [sliceTo splitAt h])
              [sliceFrom splitAt h]) as [m Hm];
    [done | by rewrite <- cons_middle_snoc |].
  eapply (walk_remove_same _ _ _ []).
  rewrite <- (app_nil_r (cs ++ _)), <- app_assoc. simpl.
  eapply ensureDir_keeps. rewrite <- Hm. f_equal.
Qed.

Lemma Remove_absent (h : string) (d : disk) (e : Errno) :
  validDigest h = true → walk (root d) (blobSegs cs h) = inl e →
  ∃ err, Cas.Remove c h d = (Some err, d).
Proof using Hc EOK.
  intros Hh Hn. rewrite (Remove_valid h d Hh), Move_spec by done.
  unfold blobSegs in Hn. rewrite Hn. eauto.
Qed.
End Quarantine.

(** ** The example store *)

Lemma exampleEnv_ok : EnvOK exampleEnv.
Proof. by split. Qed.

Lemma exampleTable_made : @made exampleEnv exampleTable.
Proof. exists [""; "r"], exampleDisk. vm_compute. reflexivity. Qed.

(** ** Open, AddEntry and Remove on a table *)

(** C7 (amended): for every string that does not match ^[a-f0-9]{40}$,
    Open on a table made by MakeCasTable returns no handle and fails with
    os.ErrInvalid; this is not the not-found condition of a missing file
    (os.IsNotExist is false for it). *)
Theorem Open_malformed_is_ErrInvalid {E : Env} (c : Cas.casTable) (hash : string)
    (d : disk) :
  made c → validDigest hash = false →
  Cas.Open c hash d = inl ErrInvalid ∧ os_IsNotExist ErrInvalid = false.
Proof.
  intros [cs Hc]%made_tableAt Hh. split; [|done].
  by apply (Open_invalid cs c Hc).
Qed.

Lemma Open_malformed_is_ErrInvalid_witness :
  @made exampleEnv exampleTable ∧ validDigest "0" = false
  ∧ Cas.Open exampleTable "0" exampleDisk = inl ErrInvalid
  ∧ os_IsNotExist ErrInvalid = false.
Proof.
  split; [exact exampleTable_made|]. split; [reflexivity|].
  apply (@Open_malformed_is_ErrInvalid exampleEnv);
    [exact exampleTable_made | reflexivity].
Defined.

(** C7, as stated, fails: Open of the malformed digest "0" does not fail
    with the not-found condition, whereas Open of a well-formed digest
    whose file is missing does. *)
Lemma Open_malformed_not_NotExist :
  validDigest "0" = false
  ∧ ¬ (∃ err, Cas.Open exampleTable "0" exampleDisk = inl err
              ∧ os_IsNotExist err = true)
  ∧ (∃ err, Cas.Open exampleTable digest1 exampleDisk = inl err
            ∧ os_IsNotExist err = true).
Proof.
  split; [reflexivity|]. split.
  - intros (err & Hopen & Hne). vm_compute in Hopen. injection Hopen as <-.
    discriminate Hne.
  - eexists. split; [vm_compute; reflexivity | reflexivity].
Qed.

(** C6: when AddEntry has stored a byte sequence under a digest, Open of
    that digest succeeds and reading the handle yields the same bytes;
    Remove then succeeds, after which Open fails with the not-found
    condition and a second Remove fails too. *)
Theorem AddEntry_Open_Remove_roundtrip {E : Env} {EOK : EnvOK E} (c : Cas.casTable)
    (source : Reader) (hash : string) (d d1 : disk) :
  made c → Cas.AddEntry c source hash d = (None, d1) →
  (∃ f, Cas.Open c hash d1 = inr f ∧ ReadAllHandle f = inr (rd_data source))
  ∧ ∃ d2, Cas.Remove c hash d1 = (None, d2)
          ∧ (∃ err, Cas.Open c hash d2 = inl err ∧ os_IsNotExist err = true)
          ∧ (∃ err, Cas.Remove c hash d2 = (Some err, d2)).
Proof.
  intros [cs Hc]%made_tableAt Hadd.
  pose proof (AddEntry_ok_created cs c Hc source hash d d1 Hadd) as Hex.
  destruct (AddEntry_created cs c Hc source hash d Hex) as (Hh & _ & Hw).
  rewrite Hadd in Hw. simpl in Hw. split.
  - exists (OsFile (File (rd_data source))). split; [|done].
    rewrite (Open_valid cs c Hc hash d1 Hh).
    unfold blobSegs in Hw. by rewrite Hw.
  - destruct (Remove_present cs c Hc hash d1 _ Hh Hw) as (d2 & Hrm & Hgone & _).
    exists d2. split; [done|]. split.
    + eexists. rewrite (Open_valid cs c Hc hash d2 Hh).
      unfold blobSegs in Hgone. rewrite Hgone. done.
    + by apply (Remove_absent cs c Hc hash d2 ENOENT).
Qed.

Lemma AddEntry_Open_Remove_roundtrip_witness :
  ∃ d1, Cas.AddEntry exampleTable (NewBuffer (list_byte_of_string "content1"))
          digest1 exampleDisk = (None, d1)
  ∧ (∃ f, Cas.Open exampleTable digest1 d1 = inr f
          ∧ ReadAllHandle f = inr (list_byte_of_string "content1"))
  ∧ ∃ d2, Cas.Remove exampleTable digest1 d1 = (None, d2)
          ∧ (∃ err, Cas.Open exampleTable digest1 d2 = inl err
                    ∧ os_IsNotExist err = true)
          ∧ (∃ err, Cas.Remove exampleTable digest1 d2 = (Some err, d2)).
Proof.
  eexists. split; [vm_compute; reflexivity|].
  apply (@AddEntry_Open_Remove_roundtrip exampleEnv exampleEnv_ok exampleTable
           (NewBuffer (list_byte_of_string "content1")) digest1 exampleDisk);
    [exact exampleTable_made | vm_compute; reflexivity].
Defined.

(** C9: AddEntry is not atomic when the copy fails.  If the exclusive
    create of a fresh digest succeeds and the source then ends with an
    error, AddEntry returns that error, the file stays in the store with
    the bytes copied so far, and every later AddEntry for the digest
    reports AlreadyExists and leaves the disk as it is. *)
Theorem AddEntry_failed_copy_stays {E : Env} (c : Cas.casTable) (source : Reader)
    (hash : string) (d : disk) (err : error) :
  made c → rd_err source = Some err →
  (os_OpenFile_excl (root d) (Cas.filePath c hash)).1 = None →
  ∃ d1, Cas.AddEntry c source hash d = (Some err, d1)
        ∧ (∃ f, Cas.Open c hash d1 = inr f ∧ ReadAllHandle f = inr (rd_data source))
        ∧ ∀ later, ∃ err', Cas.AddEntry c later hash d1 = (Some err', d1)
                           ∧ os_IsExist err' = true.
Proof.
  intros [cs Hc]%made_tableAt Herr Hex.
  destruct (AddEntry_created cs c Hc source hash d Hex) as (Hh & Hres & Hw).
  exists (Cas.AddEntry c source hash d).2. split.
  - rewrite <- Herr, <- Hres. by destruct (Cas.AddEntry c source hash d).
  - split.
    + exists (OsFile (File (rd_data source))). split; [|done].
      rewrite (Open_valid cs c Hc hash _ Hh).
      unfold blobSegs in Hw. by rewrite Hw.
    + intros later. by eapply (AddEntry_exists cs c Hc).
Qed.

Lemma AddEntry_failed_copy_stays_witness :
  let source := {| rd_data := list_byte_of_string "cont";
                   rd_err := Some (Errorf "unexpected EOF") |} in
  ∃ d1, Cas.AddEntry exampleTable source digest1 exampleDisk
        = (Some (Errorf "unexpected EOF"), d1)
        ∧ (∃ f, Cas.Open exampleTable digest1 d1 = inr f
                ∧ ReadAllHandle f = inr (list_byte_of_string "cont"))
        ∧ ∀ later, ∃ err', Cas.AddEntry exampleTable later digest1 d1 = (Some err', d1)
                           ∧ os_IsExist err' = true.
Proof.
  intros source.
  apply (@AddEntry_failed_copy_stays exampleEnv exampleTable source digest1
           exampleDisk (Errorf "unexpected EOF"));
    [exact exampleTable_made | reflexivity | vm_compute; reflexivity].
Defined.

(** ** What a scan may do to the tree *)

Lemma marker_not_shard : validPrefix needFsckName = false.
Proof. reflexivity. Qed.

Lemma walk_alter_ancestor (f : option node → option node) (l p : path) (n : node)
    (m : gmap string node) :
  p ≠ [] → walk n l = inr (Dir m) →
  ∃ m', walk (fs_alter f (l ++ p) n) l = inr (Dir m').
Proof.
  intros Hp. revert n. induction l as [|a l IH]; intros n Hl.
  - simpl in Hl. injection Hl as ->.
    destruct p as [|x [|y q]]; [done | simpl; eauto..].
  - destruct n as [|m0]; [done|]. simpl in Hl.
    destruct (m0 !! a) as [n1|] eqn:Ha; [|done].
    rewrite <- app_comm_cons, fs_alter_cons by (by destruct l, p).
    simpl. rewrite lookup_alter. destruct (decide (a = a)); [|done].
    rewrite Ha. simpl. by apply IH.
Qed.

Section ScanSteps.
Context {E : Env} {EOK : EnvOK E}.
Variable cs : path.

Lemma TrashName_not_validPrefix : validPrefix TrashName = false.
Proof using EOK. apply TrashName_not_shard. Qed.

Lemma scanStep_mono (S S' R R' : string → Prop) (fs fs' : node) :
  (∀ x, S x → S' x) → (∀ x, R x → R' x) →
  scanStep cs S R fs fs' → scanStep cs S' R' fs fs'.
Proof.
  intros HS HR Hstep.
  destruct Hstep; [constructor | by constructor | constructor; auto..].
Qed.

Lemma scanSteps_mono (S S' R R' : string → Prop) (fs fs' : node) :
  (∀ x, S x → S' x) → (∀ x, R x → R' x) →
  rtc (scanStep cs S R) fs fs' → rtc (scanStep cs S' R') fs fs'.
Proof.
  intros HS HR. induction 1 as [|fs fs1 fs2 Hstep _ IH]; [constructor|].
  eapply rtc_l; [by eapply scanStep_mono | done].
Qed.

(** Names the scan is not working on, other than the marker and the
    quarantine directory, keep everything below them. *)
Lemma scanStep_other (S R : string → Prop) (fs fs' : node) (y : string) (q : path) :
  scanStep cs S R fs fs' → ¬ S y → y ≠ needFsckName → y ≠ TrashName →
  walk fs' (cs ++ y :: q) = walk fs (cs ++ y :: q).
Proof.
  intros Hstep HS Hnf Htr. destruct Hstep as [fs|fs _|fs x Hx _ _ _|fs p r Hp _ _ _].
  - by apply walk_alter_diverge.
  - by apply walk_alter_diverge.
  - apply walk_alter_diverge. by intros ->.
  - apply (walk_alter_diverge _ cs p y [r]). by intros ->.
Qed.

Lemma scanSteps_other (S R : string → Prop) (fs fs' : node) (y : string) (q : path) :
  rtc (scanStep cs S R) fs fs' → ¬ S y → y ≠ needFsckName → y ≠ TrashName →
  walk fs' (cs ++ y :: q) = walk fs (cs ++ y :: q).
Proof.
  intros Hsteps HS Hnf Htr. induction Hsteps as [|fs fs1 fs2 Hstep _ IH]; [done|].
  rewrite IH. by eapply scanStep_other.
Qed.

(** A well-formed blob path is never touched. *)
Lemma scanStep_blob (S R : string → Prop) (fs fs' : node) (p r : string) (q : path) :
  scanStep cs S R fs fs' → validPrefix p = true → validRest r = true →
  walk fs' (cs ++ p :: r :: q) = walk fs (cs ++ p :: r :: q).
Proof using EOK.
  intros Hstep Hp Hr. destruct Hstep as [fs|fs _|fs x _ _ Hx _|fs p' r' _ _ _ Hr'].
  - apply walk_alter_diverge. intros <-. by rewrite marker_not_shard in Hp.
  - apply walk_alter_diverge. intros <-. by rewrite TrashName_not_validPrefix in Hp.
  - apply walk_alter_diverge. intros ->. congruence.
  - destruct (decide (p' = p)) as [->|Hne].
    + replace (cs ++ p :: r :: q) with ((cs ++ [p]) ++ r :: q)
        by (by rewrite <- app_assoc).
      rewrite cons_middle_snoc.
      rewrite <- (app_nil_r ((cs ++ [p]) ++ [r'])), <- app_assoc.
      apply walk_alter_diverge. intros ->. congruence.
    + by apply (walk_alter_diverge _ cs p' p [r']).
Qed.

Lemma scanSteps_blob (S R : string → Prop) (fs fs' : node) (p r : string) (q : path) :
  rtc (scanStep cs S R) fs fs' → validPrefix p = true → validRest r = true →
  walk fs' (cs ++ p :: r :: q) = walk fs (cs ++ p :: r :: q).
Proof using EOK.
  intros Hsteps Hp Hr. induction Hsteps as [|fs fs1 fs2 Hstep _ IH]; [done|].
  rewrite IH. by eapply scanStep_blob.
Qed.

(** In a shard, the names the scan is not working on keep everything
    below them. *)
Lemma scanStep_item_other (S R : string → Prop) (fs fs' : node) (p r : string)
    (q : path) :
  scanStep cs S R fs fs' → validPrefix p = true → ¬ R r →
  walk fs' (cs ++ p :: r :: q) = walk fs (cs ++ p :: r :: q).
Proof using EOK.
  intros Hstep Hp Hr. destruct Hstep as [fs|fs _|fs x _ _ Hx _|fs p' r' _ Hr' _ _].
  - apply walk_alter_diverge. intros <-. by rewrite marker_not_shard in Hp.
  - apply walk_alter_diverge. intros <-. by rewrite TrashName_not_validPrefix in Hp.
  - apply walk_alter_diverge. intros ->. congruence.
  - destruct (decide (p' = p)) as [->|Hne].
    + replace (cs ++ p :: r :: q) with ((cs ++ [p]) ++ r :: q)
        by (by rewrite <- app_assoc).
      rewrite cons_middle_snoc.
      rewrite <- (app_nil_r ((cs ++ [p]) ++ [r'])), <- app_assoc.
      apply walk_alter_diverge. by intros ->.
    + by apply (walk_alter_diverge _ cs p' p [r']).
Qed.

Lemma scanSteps_item_other (S R : string → Prop) (fs fs' : node) (p r : string)
    (q : path) :
  rtc (scanStep cs S R) fs fs' → validPrefix p = true → ¬ R r →
  walk fs' (cs ++ p :: r :: q) = walk fs (cs ++ p :: r :: q).
Proof using EOK.
  intros Hsteps Hp Hr. induction Hsteps as [|fs fs1 fs2 Hstep _ IH]; [done|].
  rewrite IH. by eapply scanStep_item_other.
Qed.

(** What is in the quarantine directory stays there. *)
Lemma scanStep_trash (S R : string → Prop) (fs fs' : node) (q : path) (n : node) :
  scanStep cs S R fs fs' →
  walk fs (cs ++ TrashName :: q) = inr n → walk fs' (cs ++ TrashName :: q) = inr n.
Proof using EOK.
  intros Hstep Hn. destruct Hstep as [fs|fs Hno|fs x _ _ _ Hx|fs p r _ _ Hp _].
  - rewrite <- Hn. apply walk_alter_diverge. intros Heq. symmetry in Heq.
    by apply TrashName_not_marker in Heq.
  - replace (cs ++ TrashName :: q) with ((cs ++ [TrashName]) ++ q) in Hn
      by (by rewrite <- app_assoc).
    by rewrite walk_app, Hno in Hn.
  - rewrite <- Hn. by apply walk_alter_diverge.
  - rewrite <- Hn. apply (walk_alter_diverge _ cs p TrashName [r]). intros ->.
    by rewrite TrashName_not_validPrefix in Hp.
Qed.

Lemma scanSteps_trash (S R : string → Prop) (fs fs' : node) (q : path) (n : node) :
  rtc (scanStep cs S R) fs fs' →
  walk fs (cs ++ TrashName :: q) = inr n → walk fs' (cs ++ TrashName :: q) = inr n.
Proof using EOK.
  intros Hsteps. induction Hsteps as [|fs fs1 fs2 Hstep _ IH]; [done|].
  intros Hn. apply IH. by eapply scanStep_trash.
Qed.

(** The cas directory stays a directory. *)
Lemma scanStep_casDir (S R : string → Prop) (fs fs' : node) (m : gmap string node) :
  scanStep cs S R fs fs' → walk fs cs = inr (Dir m) → ∃ m', walk fs' cs = inr (Dir m').
Proof.
  intros Hstep Hm. destruct Hstep; by eapply walk_alter_ancestor.
Qed.

Lemma scanSteps_casDir (S R : string → Prop) (fs fs' : node) (m : gmap string node) :
  rtc (scanStep cs S R) fs fs' → walk fs cs = inr (Dir m) →
  ∃ m', walk fs' cs = inr (Dir m').
Proof.
  intros Hsteps. revert m. induction Hsteps as [|fs fs1 fs2 Hstep _ IH]; [by eauto|].
  intros m Hm. destruct (scanStep_casDir _ _ _ _ _ Hstep Hm) as [m1 Hm1]. by eapply IH.
Qed.

(** A name the scan is not working on stays in the cas directory. *)
Lemma scanStep_exists (S R : string → Prop) (fs fs' : node) (y : string) (n : node) :
  scanStep cs S R fs fs' → ¬ S y → walk fs (cs ++ [y]) = inr n →
  ∃ n', walk fs' (cs ++ [y]) = inr n'.
Proof using EOK.
  intros Hstep HS Hn.
  destruct (walk_prefix_dir fs n cs [y]) as [m Hm]; [done..|].
  destruct (decide (y = TrashName)) as [->|Htr].
  { exists n. by eapply scanStep_trash. }
  destruct (decide (y = needFsckName)) as [->|Hnf].
  - destruct Hstep as [fs|fs _|fs x Hx _ _ _|fs p r Hp _ _ _].
    + eexists. by eapply walk_put_same.
    + exists n. rewrite <- Hn. by apply walk_alter_diverge.
    + exists n. rewrite <- Hn. apply walk_alter_diverge. by intros ->.
    + exists n. rewrite <- Hn. apply (walk_alter_diverge _ cs p _ [r]). by intros ->.
  - exists n. rewrite <- Hn. by eapply scanStep_other.
Qed.

Lemma scanSteps_exists (S R : string → Prop) (fs fs' : node) (y : string) (n : node) :
  rtc (scanStep cs S R) fs fs' → ¬ S y → walk fs (cs ++ [y]) = inr n →
  ∃ n', walk fs' (cs ++ [y]) = inr n'.
Proof using EOK.
  intros Hsteps HS. revert n. induction Hsteps as [|fs fs1 fs2 Hstep _ IH]; [by eauto|].
  intros n Hn. destruct (scanStep_exists _ _ _ _ _ _ Hstep HS Hn) as [n1 Hn1]. by eapply IH.
Qed.
End ScanSteps.

(** ** The scan, step by step *)

Section Scan.
Context {E : Env} {EOK : EnvOK E}.
Variables (cs : path) (c : Cas.casTable).
Hypothesis Hc : tableAt cs c.

Lemma markerPath : path_Join [Cas.casDir c; seg needFsckName] = "" :: cs ++ [needFsckName].
Proof using Hc. by rewrite (tableAt_casDir cs c Hc). Qed.

Lemma NeedFsck_quarantine (d : disk) : quarantine (Cas.NeedFsck c d) = quarantine d.
Proof. done. Qed.

Lemma NeedFsck_steps (S R : string → Prop) (d : disk) :
  rtc (scanStep cs S R) (root d) (root (Cas.NeedFsck c d)).
Proof using Hc.
  unfold Cas.NeedFsck. simpl. rewrite markerPath. unfold os_Create.
  rewrite stat_rooted, os_OpenFile_excl_spec. simpl rooted.
  destruct (walk (root d) (cs ++ [needFsckName])) as [e|[data|m]] eqn:Hw; simpl.
  - destruct e; simpl; try apply rtc_refl.
    destruct (walk (root d) cs) as [|[|m]]; simpl; try apply rtc_refl.
    apply rtc_once. constructor.
  - apply rtc_once. constructor.
  - apply rtc_refl.
Qed.

(** After NeedFsck the marker is there, whatever was there before. *)
Lemma NeedFsck_flagged (d : disk) (m : gmap string node) :
  walk (root d) cs = inr (Dir m) → Cas.WarnIfFsckIsNeeded c (Cas.NeedFsck c d) = true.
Proof using Hc.
  intros Hm. unfold Cas.WarnIfFsckIsNeeded, Cas.NeedFsck, os_Open. simpl.
  rewrite markerPath. unfold os_Create.
  rewrite !stat_rooted, os_OpenFile_excl_spec. simpl rooted.
  destruct (walk (root d) (cs ++ [needFsckName])) as [e|[data|m']] eqn:Hw; simpl.
  - destruct (walk_errno _ _ _ Hw) as [-> | ->].
    + rewrite Hm. simpl. by rewrite (walk_put_same _ _ _ _ m Hm).
    + rewrite (walk_snoc_dir _ _ _ m Hm) in Hw. by destruct (m !! needFsckName).
  - by rewrite (walk_put_same _ _ _ _ m Hm).
  - by rewrite Hw.
Qed.

Lemma WarnIfFsckIsNeeded_spec (d : disk) :
  Cas.WarnIfFsckIsNeeded c d
  = match walk (root d) (cs ++ [needFsckName]) with inr _ => true | inl _ => false end.
Proof using Hc.
  unfold Cas.WarnIfFsckIsNeeded, os_Open. rewrite markerPath, stat_rooted.
  by destruct (walk (root d) _).
Qed.

(** Moving a name of the cas directory that is no shard name. *)
Lemma Move_top_steps (S R : string → Prop) (x : string) (d : disk) :
  S x → x ≠ "" → validPrefix x = false → x ≠ TrashName →
  rtc (scanStep cs S R) (root d) (root (Trash.Move (Cas.trash c) [x] d).2).
Proof using Hc EOK.
  intros HS Hne Hx Htr. rewrite (Move_spec cs c Hc) by done.
  destruct (walk (root d) (cs ++ [x])); [apply rtc_refl|]. simpl.
  destruct (ensureDir_cases (root d) cs TrashName) as [-> | [Hno ->]].
  - apply rtc_once. by constructor.
  - eapply rtc_l; [by apply ss_trash|]. apply rtc_once. by constructor.
Qed.

(** Moving a name of a shard that is no blob name. *)
Lemma Move_item_steps (S R : string → Prop) (p r : string) (d : disk) :
  S p → R r → validPrefix p = true → validRest r = false →
  rtc (scanStep cs S R) (root d) (root (Trash.Move (Cas.trash c) [p; r] d).2).
Proof using Hc EOK.
  intros HS HR Hp Hr. rewrite (Move_spec cs c Hc) by done.
  destruct (walk (root d) (cs ++ [p; r])); [apply rtc_refl|]. simpl.
  destruct (ensureDir_cases (root d) cs TrashName) as [-> | [Hno ->]].
  - apply rtc_once. by constructor.
  - eapply rtc_l; [by apply ss_trash|]. apply rtc_once. by constructor.
Qed.

Lemma Move_quarantine (rel : path) (d : disk) :
  rel ≠ [] →
  quarantine (Trash.Move (Cas.trash c) rel d).2
  = match walk (root d) (cs ++ rel) with
    | inr payload => quarantine d ++ [("" :: cs ++ [TrashName], rel, payload)]
    | inl _ => quarantine d
    end.
Proof using Hc EOK.
  intros Hrel. rewrite (Move_spec cs c Hc) by done.
  by destruct (walk (root d) (cs ++ rel)).
Qed.

Lemma seg_valid_prefix (p : string) : validPrefix p = true → seg p = [p].
Proof. intros Hp. apply seg_nonempty, (hex_nonempty 2), Hp. Qed.

Lemma seg_item (r : string) : r ≠ "" → seg r = [r].
Proof. apply seg_nonempty. Qed.
End Scan.

(** ** The inner loop of Enumerate *)

Section ScanItems.
Context {E : Env} {EOK : EnvOK E}.
Variables (cs : path) (c : Cas.casTable).
Hypothesis Hc : tableAt cs c.

(** What the loop delivers does not depend on the disk. *)
Lemma scanItems_items (p : string) (subitems : list string) (d : disk) :
  (Cas.scanItems c reRest p subitems d).1
  = map (λ r, {| Item := p +:+ r; Error := None |})
        (filter (λ r, validRest r = true) subitems).
Proof.
  revert d. induction subitems as [|r rest IH]; intros d; [done|].
  cbn [Cas.scanItems]. change (MatchString reRest r) with (validRest r).
  destruct (validRest r) eqn:Hr; simpl negb; cbv iota.
  - rewrite filter_cons_True by done. specialize (IH d).
    destruct (Cas.scanItems c reRest p rest d) as [out d'].
    simpl in *. by rewrite IH.
  - rewrite filter_cons_False by (by rewrite Hr). apply IH.
Qed.

Lemma scanItems_steps (S : string → Prop) (p : string) (subitems : list string)
    (d : disk) :
  S p → validPrefix p = true → "" ∉ subitems →
  rtc (scanStep cs S (.∈ subitems)) (root d)
      (root (Cas.scanItems c reRest p subitems d).2).
Proof using Hc EOK.
  intros HS Hp. revert d. induction subitems as [|r rest IH]; intros d Hne; [apply rtc_refl|].
  apply not_elem_of_cons in Hne as [Hr0 Hne].
  cbn [Cas.scanItems]. change (MatchString reRest r) with (validRest r).
  destruct (validRest r) eqn:Hr; simpl negb; cbv iota.
  - specialize (IH d Hne). destruct (Cas.scanItems c reRest p rest d) as [out d'].
    simpl. eapply scanSteps_mono; [done | | exact IH]. intros x Hx. by right.
  - rewrite (seg_valid_prefix p Hp), (seg_nonempty r) by done. rewrite path_Join_segs.
    etrans; [|etrans].
    + apply (Move_item_steps cs c Hc S (.∈ r :: rest) p r d); [done | by left | done..].
    + apply (NeedFsck_steps cs c Hc).
    + eapply scanSteps_mono; [done | | apply IH; done]. intros x Hx. by right.
Qed.

(** The loop only ever adds to the quarantine, and only names of this
    shard that are no blob names. *)
Lemma scanItems_quarantine (p : string) (subitems : list string) (d : disk) :
  validPrefix p = true → "" ∉ subitems →
  ∃ extra,
    quarantine (Cas.scanItems c reRest p subitems d).2 = quarantine d ++ extra
    ∧ ∀ e, e ∈ extra →
        ∃ r n, e = (trashSegs cs, [p; r], n) ∧ r ∈ subitems ∧ validRest r = false.
Proof using Hc EOK.
  intros Hp. revert d. induction subitems as [|r rest IH]; intros d Hne.
  { exists []. split; [by rewrite app_nil_r | by intros e ?%elem_of_nil]. }
  apply not_elem_of_cons in Hne as [Hr0 Hne].
  cbn [Cas.scanItems]. change (MatchString reRest r) with (validRest r).
  destruct (validRest r) eqn:Hr; simpl negb; cbv iota.
  - destruct (IH d Hne) as (extra & Hq & Hex).
    destruct (Cas.scanItems c reRest p rest d) as [out d']. simpl in *.
    exists extra. split; [done|]. intros e He.
    destruct (Hex e He) as (r' & n & -> & Hin & Hr'). exists r', n.
    split; [done|]. split; [by right | done].
  - rewrite (seg_valid_prefix p Hp), (seg_nonempty r) by done. rewrite path_Join_segs.
    destruct (IH (Cas.NeedFsck c (Trash.Move (Cas.trash c) [p; r] d).2) Hne)
      as (extra & Hq & Hex).
    rewrite Hq, NeedFsck_quarantine, (Move_quarantine cs c Hc) by done.
    destruct (walk (root d) (cs ++ [p; r])) as [e|n].
    + exists extra. split; [done|]. intros e' He.
      destruct (Hex e' He) as (r' & n & -> & Hin & Hr'). exists r', n.
      split; [done|]. split; [by right | done].
    + exists ((trashSegs cs, [p; r], n) :: extra). split; [by rewrite <- app_assoc|].
      intros e' [->|He]%elem_of_cons.
      * exists r, n. split; [done|]. split; [by left | done].
      * destruct (Hex e' He) as (r' & n' & -> & Hin & Hr'). exists r', n'.
        split; [done|]. split; [by right | done].
Qed.
End ScanItems.

Section ScanItemsMoved.
Context {E : Env} {EOK : EnvOK E}.
Variables (cs : path) (c : Cas.casTable).
Hypothesis Hc : tableAt cs c.

Lemma Move_top_gone (x : string) (d : disk) (n : node) :
  walk (root d) (cs ++ [x]) = inr n →
  walk (root (Trash.Move (Cas.trash c) [x] d).2) (cs ++ [x]) = inl ENOENT.
Proof using Hc EOK.
  intros Hn. rewrite (Move_spec cs c Hc) by done. rewrite Hn. simpl.
  destruct (walk_prefix_dir (root d) n cs [x]) as [m Hm]; [done..|].
  destruct (ensureDir_parent (root d) cs TrashName m Hm) as (m' & Hm' & _).
  by eapply (walk_remove_same _ _ _ []).
Qed.

Lemma Move_item_gone (p r : string) (d : disk) (n : node) :
  walk (root d) (cs ++ [p; r]) = inr n →
  walk (root (Trash.Move (Cas.trash c) [p; r] d).2) (cs ++ [p; r]) = inl ENOENT.
Proof using Hc EOK.
  intros Hn. rewrite (Move_spec cs c Hc) by done. rewrite Hn. simpl.
  rewrite cons_middle_snoc in *.
  destruct (walk_prefix_dir (root d) n (cs ++ [p]) [r]) as [m Hm]; [done..|].
  eapply (walk_remove_same _ _ _ []).
  rewrite <- (app_nil_r (cs ++ _)), <- app_assoc. simpl.
  eapply ensureDir_keeps. rewrite <- Hm. f_equal.
Qed.

(** Every name of the shard that is no blob name ends in the quarantine
    with what it held, and is gone from the shard. *)
Lemma scanItems_moved (p : string) (subitems : list string) (d : disk)
    (r : string) (n : node) :
  validPrefix p = true → "" ∉ subitems → NoDup subitems →
  r ∈ subitems → validRest r = false → walk (root d) (cs ++ [p; r]) = inr n →
  (trashSegs cs, [p; r], n) ∈ quarantine (Cas.scanItems c reRest p subitems d).2
  ∧ walk (root (Cas.scanItems c reRest p subitems d).2) (cs ++ [p; r]) = inl ENOENT.
Proof using Hc EOK.
  intros Hp. revert d. induction subitems as [|r0 rest IH]; intros d Hne Hnd Hin Hr Hn.
  { by apply elem_of_nil in Hin. }
  apply not_elem_of_cons in Hne as [Hr0 Hne].
  apply NoDup_cons in Hnd as [Hnotin Hnd].
  cbn [Cas.scanItems]. change (MatchString reRest r0) with (validRest r0).
  destruct (validRest r0) eqn:Hv; simpl negb; cbv iota.
  - apply elem_of_cons in Hin as [->|Hin]; [congruence|].
    specialize (IH d Hne Hnd Hin Hr Hn).
    by destruct (Cas.scanItems c reRest p rest d).
  - rewrite (seg_valid_prefix p Hp), (seg_nonempty r0) by done. rewrite path_Join_segs.
    set (d1 := (Trash.Move (Cas.trash c) [p; r0] d).2).
    set (d2 := Cas.NeedFsck c d1).
    apply elem_of_cons in Hin as [->|Hin].
    + destruct (scanItems_quarantine cs c Hc p rest d2 Hp Hne) as (extra & Hq & _).
      split.
      * rewrite Hq. apply elem_of_app. left. unfold d2, d1.
        rewrite NeedFsck_quarantine, (Move_quarantine cs c Hc), Hn by done.
        apply elem_of_app. right. by left.
      * rewrite (scanSteps_item_other cs (.= p) (.∈ rest) (root d2) _ p r0 []);
          [|by apply (scanItems_steps cs c Hc) | done | done].
        rewrite (scanSteps_item_other cs (.= p) (λ _, False) (root d1) _ p r0 []);
          [|by apply (NeedFsck_steps cs c Hc) | done | tauto].
        by eapply Move_item_gone.
    + apply IH; [done..|].
      rewrite (scanSteps_item_other cs (.= p) (λ _, False) (root d1) _ p r []);
        [|by apply (NeedFsck_steps cs c Hc) | done | tauto].
      rewrite (scanSteps_item_other cs (.= p) (.= r0) (root d) _ p r []);
        [done | by apply (Move_item_steps cs c Hc) | done |].
      intros ->. done.
Qed.

(** Once the marker is there it stays while a shard is scanned, and
    the first name that is no blob name puts it there. *)
Lemma scanItems_flagged (p : string) (subitems : list string) (d : disk)
    (m : gmap string node) :
  validPrefix p = true → "" ∉ subitems → walk (root d) cs = inr (Dir m) →
  Cas.WarnIfFsckIsNeeded c d = true ∨ (∃ r, r ∈ subitems ∧ validRest r = false) →
  Cas.WarnIfFsckIsNeeded c (Cas.scanItems c reRest p subitems d).2 = true.
Proof using Hc EOK.
  intros Hp. revert d m. induction subitems as [|r0 rest IH]; intros d m Hne Hm Hor.
  { destruct Hor as [Hf | (r & Hin & _)]; [done | by apply elem_of_nil in Hin]. }
  apply not_elem_of_cons in Hne as [Hr0 Hne].
  cbn [Cas.scanItems]. change (MatchString reRest r0) with (validRest r0).
  destruct (validRest r0) eqn:Hv; simpl negb; cbv iota.
  - assert (Cas.WarnIfFsckIsNeeded c d = true ∨ (∃ r, r ∈ rest ∧ validRest r = false))
      as Hor'.
    { destruct Hor as [Hf | (r & Hin & Hr)]; [by left|]. right.
      apply elem_of_cons in Hin as [->|Hin]; [congruence | by eauto]. }
    specialize (IH d m Hne Hm Hor').
    by destruct (Cas.scanItems c reRest p rest d).
  - rewrite (seg_valid_prefix p Hp), (seg_nonempty r0) by done. rewrite path_Join_segs.
    destruct (scanSteps_casDir cs (.= p) (.= r0) (root d)
                (root (Trash.Move (Cas.trash c) [p; r0] d).2) m) as [m1 Hm1];
      [by apply (Move_item_steps cs c Hc) | done |].
    destruct (scanSteps_casDir cs (.= p) (.= r0)
                (root (Trash.Move (Cas.trash c) [p; r0] d).2)
                (root (Cas.NeedFsck c (Trash.Move (Cas.trash c) [p; r0] d).2)) m1)
      as [m2 Hm2]; [by apply (NeedFsck_steps cs c Hc) | done |].
    eapply IH; [done | exact Hm2 |]. left. by eapply (NeedFsck_flagged cs c Hc).
Qed.
End ScanItemsMoved.

(** ** The body of the outer loop *)

Lemma elem_of_dirNames (m : gmap string node) (x : string) :
  x ∈ dirNames m ↔ is_Some (m !! x).
Proof.
  unfold dirNames. rewrite list_elem_of_fmap. split.
  - intros ([k v] & -> & Hin). apply elem_of_map_to_list in Hin. by eexists.
  - intros [v Hv]. exists (x, v). split; [done|]. by apply elem_of_map_to_list.
Qed.

Lemma NoDup_dirNames (m : gmap string node) : NoDup (dirNames m).
Proof. apply NoDup_fst_map_to_list. Qed.

Lemma readDirNames_spec (fs : node) (l : path) :
  readDirNames fs ("" :: l)
  = match walk fs l with
    | inr (Dir m) => (dirNames m, None)
    | inr (File _) => ([], Some (PathError "readdirent" ("" :: l) ENOTDIR))
    | inl e => ([], Some (PathError "open" ("" :: l) e))
    end.
Proof.
  unfold readDirNames, os_Open. rewrite stat_rooted.
  by destruct (walk fs l) as [|[|]].
Qed.

Section ScanPrefix.
Context {E : Env} {EOK : EnvOK E}.
Variables (cs : path) (c : Cas.casTable).
Hypothesis Hc : tableAt cs c.

Lemma shardPath (p : string) :
  validPrefix p = true → path_Join [Cas.casDir c; seg p] = "" :: cs ++ [p].
Proof using Hc.
  intros Hp. by rewrite (tableAt_casDir cs c Hc), (seg_valid_prefix p Hp).
Qed.

(** The three ways the body can go. *)
Lemma scanPrefix_trash (d : disk) :
  Cas.scanPrefix c rePrefix reRest TrashName d = ([], d).
Proof. unfold Cas.scanPrefix. by destruct (decide _). Qed.

Lemma scanPrefix_invalid (x : string) (d : disk) :
  x ≠ TrashName → x ≠ "" → validPrefix x = false →
  Cas.scanPrefix c rePrefix reRest x d
  = ([], Cas.NeedFsck c (Trash.Move (Cas.trash c) [x] d).2).
Proof.
  intros Htr Hne Hx. unfold Cas.scanPrefix. destruct (decide _); [done|].
  change (MatchString rePrefix x) with (validPrefix x). rewrite Hx. simpl.
  by rewrite (seg_nonempty x Hne).
Qed.

Lemma scanPrefix_valid (p : string) (d : disk) :
  validPrefix p = true →
  Cas.scanPrefix c rePrefix reRest p d
  = match walk (root d) (cs ++ [p]) with
    | inr (Dir m) => Cas.scanItems c reRest p (dirNames m) d
    | _ => ([{| Item := ""; Error := Some (Errorf "Failed reading %s") |}],
            Cas.NeedFsck c d)
    end.
Proof using Hc EOK.
  intros Hp. unfold Cas.scanPrefix. destruct (decide _) as [->|_].
  { by rewrite TrashName_not_validPrefix in Hp. }
  change (MatchString rePrefix p) with (validPrefix p). rewrite Hp. simpl negb. cbv iota.
  rewrite (shardPath p Hp), readDirNames_spec.
  by destruct (walk (root d) (cs ++ [p])) as [|[|]].
Qed.

Lemma scanPrefix_steps (x : string) (d : disk) :
  x ≠ "" →
  (validPrefix x = true →
   ∀ m, walk (root d) (cs ++ [x]) = inr (Dir m) → m !! "" = None) →
  rtc (scanStep cs (.= x) (λ _, True)) (root d)
      (root (Cas.scanPrefix c rePrefix reRest x d).2).
Proof using Hc EOK.
  intros Hne Hnames. destruct (decide (x = TrashName)) as [->|Htr].
  { rewrite scanPrefix_trash. apply rtc_refl. }
  destruct (validPrefix x) eqn:Hx.
  - rewrite (scanPrefix_valid x d Hx).
    destruct (walk (root d) (cs ++ [x])) as [|[|m]] eqn:Hw;
      try apply (NeedFsck_steps cs c Hc).
    eapply (scanSteps_mono cs (.= x) (.= x) (.∈ dirNames m) (λ _, True)); [done..|].
    apply (scanItems_steps cs c Hc (.= x)); [done..|].
    intros Hin%elem_of_dirNames. rewrite (Hnames eq_refl m eq_refl) in Hin.
    by destruct Hin.
  - rewrite (scanPrefix_invalid x d Htr Hne Hx). etrans.
    + by apply (Move_top_steps cs c Hc (.= x) (λ _, True)).
    + apply (NeedFsck_steps cs c Hc).
Qed.

Lemma scanPrefix_items (top : gmap string node) (x : string) (d : disk) :
  (validPrefix x = true →
   ∃ n, top !! x = Some n ∧ walk (root d) (cs ++ [x]) = inr n) →
  (Cas.scanPrefix c rePrefix reRest x d).1 = itemsOfName top x.
Proof using Hc EOK.
  intros Hx. unfold itemsOfName. destruct (decide (x = TrashName)) as [->|Htr].
  { by rewrite scanPrefix_trash. }
  destruct (validPrefix x) eqn:Hv.
  - destruct (Hx eq_refl) as (n & -> & Hn).
    rewrite (scanPrefix_valid x d Hv), Hn. destruct n as [data|m]; [done|].
    apply scanItems_items.
  - unfold Cas.scanPrefix. destruct (decide _); [done|].
    change (MatchString rePrefix x) with (validPrefix x). by rewrite Hv.
Qed.

(** The body only ever adds to the quarantine: the name itself when it
    is no shard name, names that are no blob names when it is. *)
Lemma scanPrefix_quarantine (x : string) (d : disk) :
  x ≠ "" →
  (validPrefix x = true →
   ∀ m, walk (root d) (cs ++ [x]) = inr (Dir m) → m !! "" = None) →
  ∃ extra,
    quarantine (Cas.scanPrefix c rePrefix reRest x d).2 = quarantine d ++ extra
    ∧ ∀ e, e ∈ extra →
        ∃ rel n, e = (trashSegs cs, rel, n)
                 ∧ (rel = [x] ∧ validPrefix x = false ∧ x ≠ TrashName
                    ∨ ∃ r, rel = [x; r] ∧ validPrefix x = true ∧ validRest r = false).
Proof using Hc EOK.
  intros Hne Hnames. destruct (decide (x = TrashName)) as [->|Htr].
  { rewrite scanPrefix_trash. exists []. split; [by rewrite app_nil_r|].
    by intros e ?%elem_of_nil. }
  destruct (validPrefix x) eqn:Hx.
  - rewrite (scanPrefix_valid x d Hx).
    destruct (walk (root d) (cs ++ [x])) as [err|[data|m]] eqn:Hw;
      try (exists []; split; [by rewrite app_nil_r | by intros e ?%elem_of_nil]).
    destruct (scanItems_quarantine cs c Hc x (dirNames m) d Hx) as (extra & Hq & Hex).
    { intros Hin%elem_of_dirNames. rewrite (Hnames eq_refl m eq_refl) in Hin. by destruct Hin. }
    exists extra. split; [done|]. intros e He.
    destruct (Hex e He) as (r & n & -> & _ & Hr). exists [x; r], n.
    split; [done|]. right. by exists r.
  - rewrite (scanPrefix_invalid x d Htr Hne Hx). cbn [snd].
    rewrite NeedFsck_quarantine, (Move_quarantine cs c Hc) by done.
    destruct (walk (root d) (cs ++ [x])) as [e|n].
    + exists []. split; [by rewrite app_nil_r | by intros e' ?%elem_of_nil].
    + eexists. split; [done|]. intros e' ->%list_elem_of_singleton.
      exists [x], n. split; [done|]. by left.
Qed.

(** A name that is no shard name ends in the quarantine with what it
    held and, unless it is the marker, is gone from the cas directory. *)
Lemma scanPrefix_moved_top (x : string) (d : disk) (n : node) :
  x ≠ TrashName → x ≠ "" → validPrefix x = false →
  walk (root d) (cs ++ [x]) = inr n →
  quarantine (Cas.scanPrefix c rePrefix reRest x d).2
  = quarantine d ++ [(trashSegs cs, [x], n)]
  ∧ (x ≠ needFsckName →
     walk (root (Cas.scanPrefix c rePrefix reRest x d).2) (cs ++ [x]) = inl ENOENT).
Proof using Hc EOK.
  intros Htr Hne Hx Hn. rewrite (scanPrefix_invalid x d Htr Hne Hx). cbn [snd]. split.
  - by rewrite NeedFsck_quarantine, (Move_quarantine cs c Hc), Hn.
  - intros Hnf.
    rewrite (scanSteps_other cs (λ _, False) (λ _, False)
               (root (Trash.Move (Cas.trash c) [x] d).2) _ x []);
      [|by apply (NeedFsck_steps cs c Hc) | tauto | done | done].
    by eapply Move_top_gone.
Qed.

Lemma scanPrefix_moved_item (p r : string) (d : disk) (m : gmap string node)
    (n : node) :
  validPrefix p = true → walk (root d) (cs ++ [p]) = inr (Dir m) →
  m !! "" = None → m !! r = Some n → validRest r = false →
  (trashSegs cs, [p; r], n) ∈ quarantine (Cas.scanPrefix c rePrefix reRest p d).2
  ∧ walk (root (Cas.scanPrefix c rePrefix reRest p d).2) (cs ++ [p; r]) = inl ENOENT.
Proof using Hc EOK.
  intros Hp Hm Hne Hr Hv. rewrite (scanPrefix_valid p d Hp), Hm.
  apply (scanItems_moved cs c Hc); try done.
  - intros Hin%elem_of_dirNames. rewrite Hne in Hin. by destruct Hin.
  - apply NoDup_dirNames.
  - apply elem_of_dirNames. by eexists.
  - by rewrite cons_middle_snoc, (walk_snoc_dir _ _ _ m Hm), Hr.
Qed.

Lemma scanPrefix_casDir (x : string) (d : disk) (m : gmap string node) :
  x ≠ "" →
  (validPrefix x = true →
   ∀ m, walk (root d) (cs ++ [x]) = inr (Dir m) → m !! "" = None) →
  walk (root d) cs = inr (Dir m) →
  ∃ m', walk (root (Cas.scanPrefix c rePrefix reRest x d).2) cs = inr (Dir m').
Proof using Hc EOK.
  intros Hne Hnames Hm. eapply scanSteps_casDir; [|done].
  by apply scanPrefix_steps.
Qed.

(** The marker, once there, is there after the body; and the body puts
    it there when it quarantines something. *)
Lemma scanPrefix_flagged (x : string) (d : disk) (m : gmap string node) :
  x ≠ "" →
  (validPrefix x = true →
   ∀ m, walk (root d) (cs ++ [x]) = inr (Dir m) → m !! "" = None) →
  walk (root d) cs = inr (Dir m) →
  Cas.WarnIfFsckIsNeeded c d = true
  ∨ (x ≠ TrashName ∧ validPrefix x = false)
  ∨ (validPrefix x = true
     ∧ ∃ ms r n, walk (root d) (cs ++ [x]) = inr (Dir ms) ∧ ms !! r = Some n
                 ∧ validRest r = false) →
  Cas.WarnIfFsckIsNeeded c (Cas.scanPrefix c rePrefix reRest x d).2 = true.
Proof using Hc EOK.
  intros Hne Hnames Hm Hor. destruct (decide (x = TrashName)) as [->|Htr].
  { rewrite scanPrefix_trash. simpl. destruct Hor as [Hf | [[Hx _] | [Hx _]]]; try done.
    by rewrite TrashName_not_validPrefix in Hx. }
  destruct (validPrefix x) eqn:Hx.
  - rewrite (scanPrefix_valid x d Hx).
    destruct (walk (root d) (cs ++ [x])) as [|[|ms]] eqn:Hw;
      try by eapply (NeedFsck_flagged cs c Hc).
    eapply (scanItems_flagged cs c Hc); try done.
    + intros Hin%elem_of_dirNames. rewrite (Hnames eq_refl ms eq_refl) in Hin. by destruct Hin.
    + destruct Hor as [Hf | [[_ Hx'] | (_ & ms' & r & n & Hms & Hr & Hv)]];
        [by left | done |].
      right. exists r. injection Hms as <-. split; [|done].
      apply elem_of_dirNames. by eexists.
  - rewrite (scanPrefix_invalid x d Htr Hne Hx). cbn [snd].
    destruct (scanSteps_casDir cs (.= x) (λ _, True) (root d)
                (root (Trash.Move (Cas.trash c) [x] d).2) m) as [m1 Hm1];
      [by apply (Move_top_steps cs c Hc) | done |].
    by eapply (NeedFsck_flagged cs c Hc).
Qed.
End ScanPrefix.

(** ** The outer loop *)

Section ScanPrefixes.
Context {E : Env} {EOK : EnvOK E}.
Variables (cs : path) (c : Cas.casTable).
Hypothesis Hc : tableAt cs c.
Variable interrupted : nat → bool.

Lemma valid_not_special (p : string) :
  validPrefix p = true → p ≠ needFsckName ∧ p ≠ TrashName.
Proof using EOK.
  intros Hp. split; intros ->; [done|]. by rewrite TrashName_not_validPrefix in Hp.
Qed.

(** The body, run on [x], leaves the other shards as they are. *)
Lemma scanPrefix_other_shard (x p : string) (q : path) (d : disk) :
  x ≠ "" → shardsNamed cs [x] d → validPrefix p = true → p ≠ x →
  walk (root (Cas.scanPrefix c rePrefix reRest x d).2) (cs ++ p :: q)
  = walk (root d) (cs ++ p :: q).
Proof using Hc EOK.
  intros Hne Hnames Hp Hpx. destruct (valid_not_special p Hp) as [Hnf Htr].
  eapply (scanSteps_other cs (.= x) (λ _, True)); [|done..].
  apply (scanPrefix_steps cs c Hc); [done|]. intros Hx. apply Hnames; [by left | done].
Qed.

Lemma shardsNamed_step (x : string) (rest : list string) (d : disk) :
  x ≠ "" → x ∉ rest → shardsNamed cs (x :: rest) d →
  shardsNamed cs rest (Cas.scanPrefix c rePrefix reRest x d).2.
Proof using Hc EOK.
  intros Hne Hnotin Hnames p Hin Hp m Hm.
  rewrite (scanPrefix_other_shard x p [] d) in Hm; [|done| |done|by intros ->].
  - eapply Hnames; [by right | done | done].
  - intros p' ->%list_elem_of_singleton Hp'. apply Hnames; [by left | done].
Qed.

Lemma scanPrefixes_steps (i : nat) (prefixes : list string) (d : disk) :
  NoDup prefixes → "" ∉ prefixes → shardsNamed cs prefixes d →
  rtc (scanStep cs (.∈ prefixes) (λ _, True)) (root d)
      (root (Cas.scanPrefixes c rePrefix reRest interrupted i prefixes d).2).
Proof using Hc EOK.
  revert i d. induction prefixes as [|x rest IH]; intros i d Hnd Hne Hnames;
    [apply rtc_refl|].
  apply NoDup_cons in Hnd as [Hnotin Hnd].
  apply not_elem_of_cons in Hne as [Hx0 Hne].
  cbn [Cas.scanPrefixes]. destruct (interrupted i); [apply rtc_refl|].
  pose proof (scanPrefix_steps cs c Hc x d (not_eq_sym Hx0)) as Hstep.
  pose proof (shardsNamed_step x rest d (not_eq_sym Hx0) Hnotin Hnames) as Hnames'.
  destruct (Cas.scanPrefix c rePrefix reRest x d) as [out1 d1]. cbn [fst snd] in *.
  specialize (IH (S i) d1 Hnd Hne Hnames').
  destruct (Cas.scanPrefixes c rePrefix reRest interrupted (S i) rest d1) as [out2 d2].
  cbn [fst snd] in *. etrans.
  - eapply (scanSteps_mono cs (.= x) (.∈ x :: rest) (λ _, True) (λ _, True));
      [by intros ? ->; left | done |].
    apply Hstep. intros Hx. apply Hnames; [by left | done].
  - eapply scanSteps_mono; [| |exact IH]; [by intros ??; right | done].
Qed.

(** The scan only ever adds to the quarantine, and what it adds are
    names of the cas directory that are no shard names and names of
    shards that are no blob names. *)
Lemma scanPrefixes_quarantine (i : nat) (prefixes : list string) (d : disk) :
  NoDup prefixes → "" ∉ prefixes → shardsNamed cs prefixes d →
  ∃ extra,
    quarantine (Cas.scanPrefixes c rePrefix reRest interrupted i prefixes d).2
    = quarantine d ++ extra
    ∧ ∀ e, e ∈ extra →
        ∃ x rel n, e = (trashSegs cs, rel, n) ∧ x ∈ prefixes
          ∧ (rel = [x] ∧ validPrefix x = false ∧ x ≠ TrashName
             ∨ ∃ r, rel = [x; r] ∧ validPrefix x = true ∧ validRest r = false).
Proof using Hc EOK.
  revert i d. induction prefixes as [|x rest IH]; intros i d Hnd Hne Hnames.
  { exists []. split; [by rewrite app_nil_r | by intros e ?%elem_of_nil]. }
  apply NoDup_cons in Hnd as [Hnotin Hnd].
  apply not_elem_of_cons in Hne as [Hx0 Hne].
  cbn [Cas.scanPrefixes]. destruct (interrupted i).
  { exists []. split; [by rewrite app_nil_r | by intros e ?%elem_of_nil]. }
  destruct (scanPrefix_quarantine cs c Hc x d (not_eq_sym Hx0)) as (ex1 & Hq1 & Hex1).
  { intros Hx. apply Hnames; [by left | done]. }
  pose proof (shardsNamed_step x rest d (not_eq_sym Hx0) Hnotin Hnames) as Hnames'.
  destruct (Cas.scanPrefix c rePrefix reRest x d) as [out1 d1]. cbn [fst snd] in *.
  destruct (IH (S i) d1 Hnd Hne Hnames') as (ex2 & Hq2 & Hex2).
  destruct (Cas.scanPrefixes c rePrefix reRest interrupted (S i) rest d1) as [out2 d2].
  cbn [fst snd] in *. exists (ex1 ++ ex2). split; [by rewrite Hq2, Hq1, app_assoc|].
  intros e [He|He]%elem_of_app.
  - destruct (Hex1 e He) as (rel & n & -> & Hrel). exists x, rel, n.
    split; [done|]. split; [by left | done].
  - destruct (Hex2 e He) as (x' & rel & n & -> & Hin & Hrel). exists x', rel, n.
    split; [done|]. split; [by right | done].
Qed.

Hypothesis Hrun : uninterrupted interrupted.

Lemma scanPrefixes_items (top : gmap string node) (i : nat) (prefixes : list string)
    (d : disk) :
  NoDup prefixes → "" ∉ prefixes → shardsNamed cs prefixes d →
  (∀ p, p ∈ prefixes → validPrefix p = true →
        ∃ n, top !! p = Some n ∧ walk (root d) (cs ++ [p]) = inr n) →
  (Cas.scanPrefixes c rePrefix reRest interrupted i prefixes d).1
  = flat_map (itemsOfName top) prefixes.
Proof using Hc EOK Hrun.
  revert i d. induction prefixes as [|x rest IH]; intros i d Hnd Hne Hnames Htop; [done|].
  apply NoDup_cons in Hnd as [Hnotin Hnd].
  apply not_elem_of_cons in Hne as [Hx0 Hne].
  cbn [Cas.scanPrefixes flat_map]. rewrite (Hrun i).
  pose proof (scanPrefix_items cs c Hc top x d) as Hitems.
  pose proof (shardsNamed_step x rest d (not_eq_sym Hx0) Hnotin Hnames) as Hnames'.
  assert (∀ p, p ∈ rest → validPrefix p = true →
            ∃ n, top !! p = Some n
                 ∧ walk (root (Cas.scanPrefix c rePrefix reRest x d).2) (cs ++ [p]) = inr n)
    as Htop'.
  { intros p Hin Hp. destruct (Htop p) as (n & Hn & Hw); [by right | done |].
    exists n. split; [done|].
    rewrite (scanPrefix_other_shard x p [] d); [done..| |done|].
    - intros p' ->%list_elem_of_singleton Hp'. apply Hnames; [by left | done].
    - by intros ->. }
  destruct (Cas.scanPrefix c rePrefix reRest x d) as [out1 d1]. cbn [fst snd] in *.
  specialize (IH (S i) d1 Hnd Hne Hnames' Htop').
  destruct (Cas.scanPrefixes c rePrefix reRest interrupted (S i) rest d1) as [out2 d2].
  cbn [fst snd] in *. rewrite IH, Hitems; [done|]. intros Hx. apply Htop; [by left | done].
Qed.
End ScanPrefixes.

Section ScanPrefixesMoved.
Context {E : Env} {EOK : EnvOK E}.
Variables (cs : path) (c : Cas.casTable).
Hypothesis Hc : tableAt cs c.
Variable interrupted : nat → bool.
Hypothesis Hrun : uninterrupted interrupted.

Lemma scanPrefixes_moved_top (i : nat) (prefixes : list string) (d : disk)
    (x : string) (n : node) :
  NoDup prefixes → "" ∉ prefixes → shardsNamed cs prefixes d →
  x ∈ prefixes → x ≠ TrashName → validPrefix x = false →
  walk (root d) (cs ++ [x]) = inr n →
  (∃ n', (trashSegs cs, [x], n')
           ∈ quarantine (Cas.scanPrefixes c rePrefix reRest interrupted i prefixes d).2
         ∧ (x ≠ needFsckName → n' = n))
  ∧ (x ≠ needFsckName →
     walk (root (Cas.scanPrefixes c rePrefix reRest interrupted i prefixes d).2)
          (cs ++ [x]) = inl ENOENT).
Proof using Hc EOK Hrun.
  revert i d n. induction prefixes as [|x0 rest IH];
    intros i d n Hnd Hne Hnames Hin Htr Hx Hn.
  { by apply elem_of_nil in Hin. }
  apply NoDup_cons in Hnd as [Hnotin Hnd].
  apply not_elem_of_cons in Hne as [Hx0 Hne].
  cbn [Cas.scanPrefixes]. rewrite (Hrun i).
  pose proof (shardsNamed_step cs c Hc x0 rest d (not_eq_sym Hx0) Hnotin Hnames)
    as Hnames'.
  assert (rtc (scanStep cs (.= x0) (λ _, True)) (root d)
              (root (Cas.scanPrefix c rePrefix reRest x0 d).2)) as Hstep1.
  { apply (scanPrefix_steps cs c Hc); [done|]. intros Hv. apply Hnames; [by left|done]. }
  apply elem_of_cons in Hin as [->|Hin].
  - destruct (scanPrefix_moved_top cs c Hc x0 d n Htr (not_eq_sym Hx0) Hx Hn)
      as [Hq1 Hgone1].
    destruct (Cas.scanPrefix c rePrefix reRest x0 d) as [out1 d1]. cbn [fst snd] in *.
    destruct (scanPrefixes_quarantine cs c Hc interrupted (S i) rest d1 Hnd Hne Hnames')
      as (ex2 & Hq2 & _).
    pose proof (scanPrefixes_steps cs c Hc interrupted (S i) rest d1 Hnd Hne Hnames')
      as Hsteps2.
    destruct (Cas.scanPrefixes c rePrefix reRest interrupted (S i) rest d1) as [out2 d2].
    cbn [fst snd] in *. split.
    + exists n. split; [|done]. rewrite Hq2, Hq1. apply elem_of_app. left.
      apply elem_of_app. right. by left.
    + intros Hnf.
      rewrite (scanSteps_other cs (.∈ rest) (λ _, True) (root d1) (root d2) x0 []);
        [by apply Hgone1 | done..].
  - assert (x ≠ x0) as Hxx0 by (by intros ->).
    destruct (scanSteps_exists cs (.= x0) (λ _, True) _ _ x n Hstep1 Hxx0 Hn)
      as [n1 Hn1].
    assert (x ≠ needFsckName → n1 = n) as Hsame.
    { intros Hnf.
      rewrite (scanSteps_other cs (.= x0) (λ _, True) (root d) _ x []) in Hn1;
        [|done..].
      congruence. }
    destruct (Cas.scanPrefix c rePrefix reRest x0 d) as [out1 d1]. cbn [fst snd] in *.
    destruct (IH (S i) d1 n1 Hnd Hne Hnames' Hin Htr Hx Hn1) as [(n' & Hmem & Hn') Hgone].
    destruct (Cas.scanPrefixes c rePrefix reRest interrupted (S i) rest d1) as [out2 d2].
    cbn [fst snd] in *. split; [|done].
    exists n'. split; [done|]. intros Hnf. rewrite (Hn' Hnf). by apply Hsame.
Qed.

Lemma scanPrefixes_moved_item (i : nat) (prefixes : list string) (d : disk)
    (p r : string) (m : gmap string node) (n : node) :
  NoDup prefixes → "" ∉ prefixes → shardsNamed cs prefixes d →
  p ∈ prefixes → validPrefix p = true →
  walk (root d) (cs ++ [p]) = inr (Dir m) → m !! r = Some n → validRest r = false →
  (trashSegs cs, [p; r], n)
    ∈ quarantine (Cas.scanPrefixes c rePrefix reRest interrupted i prefixes d).2
  ∧ walk (root (Cas.scanPrefixes c rePrefix reRest interrupted i prefixes d).2)
         (cs ++ [p; r]) = inl ENOENT.
Proof using Hc EOK Hrun.
  revert i d. induction prefixes as [|x0 rest IH];
    intros i d Hnd Hne Hnames Hin Hp Hm Hr Hv.
  { by apply elem_of_nil in Hin. }
  apply NoDup_cons in Hnd as [Hnotin Hnd].
  apply not_elem_of_cons in Hne as [Hx0 Hne].
  cbn [Cas.scanPrefixes]. rewrite (Hrun i).
  pose proof (shardsNamed_step cs c Hc x0 rest d (not_eq_sym Hx0) Hnotin Hnames)
    as Hnames'.
  destruct (valid_not_special p Hp) as [Hnf Htr].
  apply elem_of_cons in Hin as [->|Hin].
  - destruct (scanPrefix_moved_item cs c Hc x0 r d m n Hp Hm) as [Hmem1 Hgone1];
      [by eapply Hnames; [left|..] | done..|].
    destruct (Cas.scanPrefix c rePrefix reRest x0 d) as [out1 d1]. cbn [fst snd] in *.
    destruct (scanPrefixes_quarantine cs c Hc interrupted (S i) rest d1 Hnd Hne Hnames')
      as (ex2 & Hq2 & _).
    pose proof (scanPrefixes_steps cs c Hc interrupted (S i) rest d1 Hnd Hne Hnames')
      as Hsteps2.
    destruct (Cas.scanPrefixes c rePrefix reRest interrupted (S i) rest d1) as [out2 d2].
    cbn [fst snd] in *. split.
    + rewrite Hq2. apply elem_of_app. by left.
    + by rewrite (scanSteps_other cs (.∈ rest) (λ _, True) (root d1) (root d2) x0 [r]).
  - assert (walk (root (Cas.scanPrefix c rePrefix reRest x0 d).2) (cs ++ [p])
            = inr (Dir m)) as Hm1.
    { rewrite (scanPrefix_other_shard cs c Hc x0 p [] d); [done..| |done|by intros ->].
      intros p' ->%list_elem_of_singleton Hp'. apply Hnames; [by left | done]. }
    destruct (Cas.scanPrefix c rePrefix reRest x0 d) as [out1 d1]. cbn [fst snd] in *.
    specialize (IH (S i) d1 Hnd Hne Hnames' Hin Hp Hm1 Hr Hv).
    by destruct (Cas.scanPrefixes c rePrefix reRest interrupted (S i) rest d1).
Qed.

Lemma scanPrefixes_flagged (i : nat) (prefixes : list string) (d : disk)
    (m0 : gmap string node) :
  NoDup prefixes → "" ∉ prefixes → shardsNamed cs prefixes d →
  walk (root d) cs = inr (Dir m0) →
  Cas.WarnIfFsckIsNeeded c d = true
  ∨ (∃ x, x ∈ prefixes ∧ x ≠ TrashName ∧ validPrefix x = false)
  ∨ (∃ p ms r n, p ∈ prefixes ∧ validPrefix p = true
                 ∧ walk (root d) (cs ++ [p]) = inr (Dir ms) ∧ ms !! r = Some n
                 ∧ validRest r = false) →
  Cas.WarnIfFsckIsNeeded c
    (Cas.scanPrefixes c rePrefix reRest interrupted i prefixes d).2 = true.
Proof using Hc EOK Hrun.
  revert i d m0. induction prefixes as [|x0 rest IH];
    intros i d m0 Hnd Hne Hnames Hm0 Hor.
  { destruct Hor as [Hf | [(x & Hin & _) | (p & ms & r & n & Hin & _)]];
      [done | by apply elem_of_nil in Hin..]. }
  apply NoDup_cons in Hnd as [Hnotin Hnd].
  apply not_elem_of_cons in Hne as [Hx0 Hne].
  cbn [Cas.scanPrefixes]. rewrite (Hrun i).
  pose proof (shardsNamed_step cs c Hc x0 rest d (not_eq_sym Hx0) Hnotin Hnames)
    as Hnames'.
  assert (validPrefix x0 = true →
          ∀ m, walk (root d) (cs ++ [x0]) = inr (Dir m) → m !! "" = None) as Hn0.
  { intros Hv. apply Hnames; [by left | done]. }
  destruct (scanPrefix_casDir cs c Hc x0 d m0 (not_eq_sym Hx0) Hn0 Hm0) as [m1 Hm1].
  pose proof (scanPrefix_flagged cs c Hc x0 d m0 (not_eq_sym Hx0) Hn0 Hm0) as Hf1.
  pose proof (λ p q Hp Hpx,
      scanPrefix_other_shard cs c Hc x0 p q d (not_eq_sym Hx0)
        (λ p' Hin' Hv, Hnames p' (proj2 (elem_of_cons _ _ _)
           (or_introl (proj1 (list_elem_of_singleton _ _) Hin'))) Hv) Hp Hpx) as Hother.
  destruct (Cas.scanPrefix c rePrefix reRest x0 d) as [out1 d1]. cbn [fst snd] in *.
  assert (Cas.WarnIfFsckIsNeeded c d1 = true
          ∨ (∃ x, x ∈ rest ∧ x ≠ TrashName ∧ validPrefix x = false)
          ∨ (∃ p ms r n, p ∈ rest ∧ validPrefix p = true
                         ∧ walk (root d1) (cs ++ [p]) = inr (Dir ms) ∧ ms !! r = Some n
                         ∧ validRest r = false)) as Hor1.
  { destruct Hor as [Hf | [(x & Hin & Htr & Hx) | (p & ms & r & n & Hin & Hp & Hms & Hr & Hv)]].
    - left. apply Hf1. by left.
    - apply elem_of_cons in Hin as [->|Hin].
      + left. apply Hf1. right. by left.
      + right. left. by exists x.
    - apply elem_of_cons in Hin as [->|Hin].
      + left. apply Hf1. right. right. split; [done|]. by exists ms, r, n.
      + right. right. exists p, ms, r, n. split; [done|]. split; [done|].
        split; [|done]. rewrite (Hother p [] Hp); [done | by intros ->]. }
  specialize (IH (S i) d1 m1 Hnd Hne Hnames' Hm1 Hor1).
  by destruct (Cas.scanPrefixes c rePrefix reRest interrupted (S i) rest d1).
Qed.
End ScanPrefixesMoved.

(** ** Enumerate *)

Lemma made_casSegs `{Env} (c : Cas.casTable) : made c → tableAt (casSegs c) c.
Proof.
  intros [cs Hc]%made_tableAt. unfold casSegs.
  by rewrite (tableAt_casDir cs c Hc).
Qed.

Section Enumerate.
Context {E : Env} {EOK : EnvOK E}.
Variables (cs : path) (c : Cas.casTable).
Hypothesis Hc : tableAt cs c.

Lemma Enumerate_scan (interrupted : nat → bool) (d : disk) (top : gmap string node) :
  walk (root d) cs = inr (Dir top) →
  Cas.Enumerate c interrupted d
  = Cas.scanPrefixes c rePrefix reRest interrupted 0 (dirNames top) d.
Proof using Hc.
  intros Htop. unfold Cas.Enumerate. destruct Hc as (Hd & -> & _).
  by rewrite Hd, readDirNames_spec, Htop.
Qed.

Lemma Enumerate_unreadable (interrupted : nat → bool) (d : disk) :
  (∀ top, walk (root d) cs ≠ inr (Dir top)) →
  Cas.Enumerate c interrupted d
  = ([{| Item := ""; Error := Some (Errorf "Failed reading ss") |}], d).
Proof using Hc.
  intros Htop. unfold Cas.Enumerate. destruct Hc as (Hd & -> & _).
  rewrite Hd, readDirNames_spec.
  destruct (walk (root d) cs) as [|[|top]]; [done..|]. by destruct (Htop top).
Qed.

Lemma namesOK_top (d : disk) (top : gmap string node) :
  namesOK cs (root d) → walk (root d) cs = inr (Dir top) → "" ∉ dirNames top.
Proof.
  intros Hok Htop Hin%elem_of_dirNames.
  rewrite (Hok cs top) in Hin; [by destruct Hin | by left | done].
Qed.

Lemma namesOK_shards (d : disk) (prefixes : list string) :
  namesOK cs (root d) → shardsNamed cs prefixes d.
Proof. intros Hok p _ _ m Hm. apply (Hok (cs ++ [p]) m); [right; by eexists | done]. Qed.

(** Whatever an Enumerate delivers without error is a shard name
    followed by a blob name. *)
Lemma scanPrefix_items_valid (x : string) (d : disk) (e : CasEntry) :
  e ∈ (Cas.scanPrefix c rePrefix reRest x d).1 → Error e = None →
  ∃ r, Item e = x +:+ r ∧ validPrefix x = true ∧ validRest r = true.
Proof using Hc EOK.
  destruct (decide (x = TrashName)) as [->|Htr].
  { rewrite scanPrefix_trash. by intros ?%elem_of_nil. }
  destruct (validPrefix x) eqn:Hx.
  - rewrite (scanPrefix_valid cs c Hc x d Hx).
    destruct (walk (root d) (cs ++ [x])) as [err|[data|m]].
    + by intros ->%list_elem_of_singleton.
    + by intros ->%list_elem_of_singleton.
    + rewrite scanItems_items. intros (r & -> & Hr%list_elem_of_filter)%list_elem_of_fmap _.
      exists r. by destruct Hr.
  - unfold Cas.scanPrefix. destruct (decide _); [done|].
    change (MatchString rePrefix x) with (validPrefix x). rewrite Hx.
    by intros ?%elem_of_nil.
Qed.

Lemma scanPrefixes_items_valid (interrupted : nat → bool) (i : nat)
    (prefixes : list string) (d : disk) (e : CasEntry) :
  e ∈ (Cas.scanPrefixes c rePrefix reRest interrupted i prefixes d).1 → Error e = None →
  ∃ p r, Item e = p +:+ r ∧ validPrefix p = true ∧ validRest r = true.
Proof using Hc EOK.
  revert i d. induction prefixes as [|x rest IH]; intros i d.
  { by intros ?%elem_of_nil. }
  cbn [Cas.scanPrefixes]. destruct (interrupted i); [by intros ?%elem_of_nil|].
  pose proof (scanPrefix_items_valid x d e) as H1.
  destruct (Cas.scanPrefix c rePrefix reRest x d) as [out1 d1]. cbn [fst snd] in *.
  specialize (IH (S i) d1).
  destruct (Cas.scanPrefixes c rePrefix reRest interrupted (S i) rest d1) as [out2 d2].
  cbn [fst snd] in *. intros [Hin|Hin]%elem_of_app Herr.
  - destruct (H1 Hin Herr) as (r & ?). by exists x, r.
  - by apply IH.
Qed.

(** On a clean store the scan changes nothing. *)
Lemma scanItems_clean (p : string) (subitems : list string) (d : disk) :
  (∀ r, r ∈ subitems → validRest r = true) →
  (Cas.scanItems c reRest p subitems d).2 = d.
Proof.
  induction subitems as [|r rest IH]; intros Hall; [done|].
  cbn [Cas.scanItems]. change (MatchString reRest r) with (validRest r).
  rewrite (Hall r) by (by left). simpl negb. cbv iota.
  specialize (IH (λ r' Hin, Hall r' (proj2 (elem_of_cons _ _ _) (or_intror Hin)))).
  by destruct (Cas.scanItems c reRest p rest d).
Qed.

Lemma scanPrefixes_clean (top : gmap string node) (interrupted : nat → bool) (i : nat)
    (prefixes : list string) (d : disk) :
  cleanStore top → walk (root d) cs = inr (Dir top) →
  (∀ x, x ∈ prefixes → is_Some (top !! x)) →
  (Cas.scanPrefixes c rePrefix reRest interrupted i prefixes d).2 = d.
Proof using Hc EOK.
  intros Hclean Htop. revert i. induction prefixes as [|x rest IH]; intros i Hin; [done|].
  cbn [Cas.scanPrefixes]. destruct (interrupted i); [done|].
  assert ((Cas.scanPrefix c rePrefix reRest x d).2 = d) as H1.
  { destruct (decide (x = TrashName)) as [->|Htr]; [by rewrite scanPrefix_trash|].
    destruct (Hin x) as [n Hn]; [by left|].
    destruct (Hclean x n Hn Htr) as (Hx & m & -> & Hm).
    rewrite (scanPrefix_valid cs c Hc x d Hx), (walk_snoc_dir _ _ _ top Htop), Hn.
    apply scanItems_clean. intros r Hr%elem_of_dirNames. by apply Hm. }
  destruct (Cas.scanPrefix c rePrefix reRest x d) as [out1 d1]. cbn [fst snd] in *.
  subst d1.
  specialize (IH (S i) (λ x' Hx', Hin x' (proj2 (elem_of_cons _ _ _) (or_intror Hx')))).
  by destruct (Cas.scanPrefixes c rePrefix reRest interrupted (S i) rest d).
Qed.
End Enumerate.

(** ** Names stay non-empty *)

Lemma walk_alter_ancestor_lookup (f : option node → option node) (l : path)
    (x : string) (q : path) (n : node) (m' : gmap string node) (k : string) :
  k ≠ x → walk (fs_alter f (l ++ x :: q) n) l = inr (Dir m') →
  ∃ m, walk n l = inr (Dir m) ∧ m' !! k = m !! k.
Proof.
  intros Hk. revert n. induction l as [|a l IH]; intros n Hw.
  - destruct n as [data|m]; [done|]. exists m. split; [done|].
    destruct q as [|y q]; simpl in Hw; injection Hw as <-.
    + by rewrite lookup_partial_alter_ne.
    + by rewrite lookup_alter_ne.
  - destruct n as [data|m0]; [done|].
    rewrite <- app_comm_cons, fs_alter_cons in Hw by (by destruct l).
    simpl in Hw. rewrite lookup_alter in Hw. destruct (decide (a = a)); [|done].
    simpl. destruct (m0 !! a) as [n1|]; [|done]. simpl in Hw. by apply IH.
Qed.

Section NamesOK.
Context {E : Env} {EOK : EnvOK E}.
Variable cs : path.

Lemma marker_nonempty : needFsckName ≠ "".
Proof. done. Qed.

(** Altering the entry [x] of the cas directory. *)
Lemma namesOK_alter_top (f : option node → option node) (x : string) (fs : node) :
  x ≠ "" → (∀ m, f None = Some (Dir m) → m !! "" = None) →
  (∀ n m, f (Some n) = Some (Dir m) → m !! "" = None) →
  namesOK cs fs → namesOK cs (fs_alter f (cs ++ [x]) fs).
Proof.
  intros Hx Hnone Hsome Hok l m' Hl Hw.
  destruct (walk fs cs) as [e|[data|m]] eqn:Hcs.
  1,2: rewrite fs_alter_no_parent in Hw by (intros m; by rewrite Hcs);
       by eapply Hok.
  destruct Hl as [-> | [y ->]].
  - rewrite (walk_alter_parent f cs x fs m Hcs) in Hw. injection Hw as <-.
    rewrite lookup_partial_alter_ne by done. by eapply (Hok cs); [left|].
  - destruct (decide (y = x)) as [->|Hyx].
    + rewrite (walk_alter_same f cs x [] fs m Hcs) in Hw.
      destruct (f (m !! x)) as [[data|m1]|] eqn:Hf; simpl in Hw; try done.
      injection Hw as <-. destruct (m !! x); eauto.
    + rewrite walk_alter_diverge in Hw by done.
      eapply (Hok (cs ++ [y])); [right; by eexists | done].
Qed.

Lemma scanStep_namesOK (S R : string → Prop) (fs fs' : node) :
  scanStep cs S R fs fs' → namesOK cs fs → namesOK cs fs'.
Proof using EOK.
  intros Hstep Hok. destruct Hstep as [fs|fs _|fs x _ Hx _ _|fs p r _ _ Hp _].
  - apply namesOK_alter_top; [done | by intros m [=] | by intros n m [=] | done].
  - apply namesOK_alter_top; [apply TrashName_nonempty | | by intros n m [= <-] | done].
    by intros m [= <-].
  - apply namesOK_alter_top; [done | by intros m [=] | by intros n m [=] | done].
  - assert (p ≠ "") as Hpne by (by intros ->).
    intros l m' Hl Hw. destruct Hl as [-> | [y ->]].
    + destruct (walk_alter_ancestor_lookup _ cs p [r] fs m' "" (not_eq_sym Hpne) Hw)
        as (m & Hm & ->).
      by eapply (Hok cs); [left|].
    + destruct (decide (y = p)) as [->|Hyp].
      * rewrite cons_middle_snoc in Hw.
        destruct (walk fs (cs ++ [p])) as [e|[data|m]] eqn:Hsh.
        1,2: unfold fs_remove in Hw;
             rewrite fs_alter_no_parent in Hw by (intros m; by rewrite Hsh);
             rewrite Hsh in Hw; done.
        rewrite (walk_remove_parent fs (cs ++ [p]) r m Hsh) in Hw. injection Hw as <-.
        rewrite lookup_delete. destruct (decide (r = "")); [done|].
        eapply (Hok (cs ++ [p])); [right; by eexists | done].
      * unfold fs_remove in Hw. rewrite (walk_alter_diverge _ cs p y [r] []) in Hw by done.
        eapply (Hok (cs ++ [y])); [right; by eexists | done].
Qed.

Lemma scanSteps_namesOK (S R : string → Prop) (fs fs' : node) :
  rtc (scanStep cs S R) fs fs' → namesOK cs fs → namesOK cs fs'.
Proof using EOK.
  induction 1 as [|fs fs1 fs2 Hstep _ IH]; [done|]. intros Hok.
  apply IH. by eapply scanStep_namesOK.
Qed.
End NamesOK.

Lemma namesOKb_correct (cs : path) (fs : node) (top : gmap string node) :
  walk fs cs = inr (Dir top) → namesOKb top = true → namesOK cs fs.
Proof.
  unfold namesOKb. intros Htop Hb l m Hl Hw.
  destruct (top !! "") eqn:Hempty; [done|].
  destruct Hl as [-> | [p ->]]; [congruence|].
  rewrite (walk_snoc_dir _ _ _ top Htop) in Hw.
  destruct (top !! p) as [n|] eqn:Hp; [|done]. injection Hw as ->.
  rewrite forallb_forall in Hb. specialize (Hb (p, Dir m)). simpl in Hb.
  destruct (m !! ""); [|done]. discriminate Hb.
  apply list_elem_of_In, elem_of_map_to_list, Hp.
Qed.

(** ** What an uninterrupted Enumerate delivers *)

Section Delivered.
Context {E : Env} {EOK : EnvOK E}.

Lemma elem_of_itemsOfStore (top : gmap string node) (e : CasEntry) :
  e ∈ itemsOfStore top → Error e = None →
  ∃ p m r, e = {| Item := p +:+ r; Error := None |} ∧ p ≠ TrashName
           ∧ validPrefix p = true ∧ validRest r = true
           ∧ top !! p = Some (Dir m) ∧ is_Some (m !! r).
Proof.
  unfold itemsOfStore. intros Hin%list_elem_of_In Herr.
  apply in_flat_map in Hin as (p & _ & Hin%list_elem_of_In).
  unfold itemsOfName in Hin. destruct (decide (p = TrashName)) as [|Htr].
  { by apply elem_of_nil in Hin. }
  destruct (validPrefix p) eqn:Hp; [|by apply elem_of_nil in Hin].
  destruct (top !! p) as [[data|m]|] eqn:Htop; [| |by apply elem_of_nil in Hin].
  { apply list_elem_of_singleton in Hin as ->. done. }
  simpl in Hin. apply list_elem_of_fmap in Hin as (r & -> & [Hr Hin]%list_elem_of_filter).
  exists p, m, r. repeat split; try done. by apply elem_of_dirNames.
Qed.

Lemma itemsOfStore_elem_of (top : gmap string node) (p r : string)
    (m : gmap string node) :
  top !! p = Some (Dir m) → is_Some (m !! r) →
  validPrefix p = true → validRest r = true →
  {| Item := p +:+ r; Error := None |} ∈ itemsOfStore top.
Proof using EOK.
  intros Htop Hr Hp Hv. unfold itemsOfStore.
  apply list_elem_of_In, in_flat_map. exists p. split.
  - apply list_elem_of_In, elem_of_dirNames. by eexists.
  - apply list_elem_of_In. unfold itemsOfName.
    destruct (decide (p = TrashName)) as [->|_].
    { by rewrite TrashName_not_validPrefix in Hp. }
    rewrite Hp, Htop. simpl. apply list_elem_of_fmap. exists r. split; [done|].
    apply list_elem_of_filter. split; [done|]. by apply elem_of_dirNames.
Qed.

Variables (cs : path) (c : Cas.casTable).
Hypothesis Hc : tableAt cs c.

Lemma Enumerate_items (interrupted : nat → bool) (d : disk) (top : gmap string node) :
  uninterrupted interrupted → namesOK cs (root d) →
  walk (root d) cs = inr (Dir top) →
  (Cas.Enumerate c interrupted d).1 = itemsOfStore top.
Proof using Hc EOK.
  intros Hrun Hok Htop. rewrite (Enumerate_scan cs c Hc interrupted d top Htop).
  apply (scanPrefixes_items cs c Hc interrupted Hrun top).
  - apply NoDup_dirNames.
  - by eapply namesOK_top.
  - by apply namesOK_shards.
  - intros p [n Hn]%elem_of_dirNames _. exists n. split; [done|].
    by rewrite (walk_snoc_dir _ _ _ top Htop), Hn.
Qed.

Lemma Enumerate_steps (interrupted : nat → bool) (d : disk) :
  namesOK cs (root d) →
  rtc (scanStep cs (λ _, True) (λ _, True)) (root d)
      (root (Cas.Enumerate c interrupted d).2).
Proof using Hc EOK.
  intros Hok. destruct (walk (root d) cs) as [e|[data|top]] eqn:Htop.
  1,2: rewrite (Enumerate_unreadable cs c Hc) by (intros top; by rewrite Htop);
       apply rtc_refl.
  rewrite (Enumerate_scan cs c Hc interrupted d top Htop).
  eapply scanSteps_mono; [| |apply (scanPrefixes_steps cs c Hc)]; try done.
  - apply NoDup_dirNames.
  - by eapply namesOK_top.
  - by apply namesOK_shards.
Qed.

Lemma Enumerate_quarantine (interrupted : nat → bool) (d : disk) :
  namesOK cs (root d) →
  ∃ extra,
    quarantine (Cas.Enumerate c interrupted d).2 = quarantine d ++ extra
    ∧ ∀ e, e ∈ extra → ∃ x rest n, e = (trashSegs cs, x :: rest, n) ∧ x ≠ TrashName.
Proof using Hc EOK.
  intros Hok. destruct (walk (root d) cs) as [e|[data|top]] eqn:Htop.
  1,2: rewrite (Enumerate_unreadable cs c Hc) by (intros top; by rewrite Htop);
       exists []; (split; [by rewrite app_nil_r | by intros e' ?%elem_of_nil]).
  rewrite (Enumerate_scan cs c Hc interrupted d top Htop).
  destruct (scanPrefixes_quarantine cs c Hc interrupted 0 (dirNames top) d)
    as (extra & Hq & Hex).
  - apply NoDup_dirNames.
  - by eapply namesOK_top.
  - by apply namesOK_shards.
  - exists extra. split; [done|]. intros e He.
    destruct (Hex e He) as (x & rel & n & -> & _ & [(-> & _ & Htr) | (r & -> & Hx & _)]).
    + by exists x, [], n.
    + exists x, [r], n. split; [done|]. intros ->.
      by rewrite TrashName_not_validPrefix in Hx.
Qed.
End Delivered.

(** ** Enumerate heals the store *)

(** C3 (amended): in an Enumerate that is not interrupted, over a cas
    directory that can be listed, every name of the cas directory other
    than the Trash directory's that fails the shard pattern, and every
    name in a shard that fails the blob pattern, is moved to the Trash
    with what it held and the consistency marker is set; the name is gone
    from the live tree (the marker file itself is written anew);
    every well-formed entry is still delivered and its blob is
    untouched; and whatever is delivered is a well-formed entry of the
    store, never a quarantined name. *)
Theorem Enumerate_quarantines_corruption {E : Env} {EOK : EnvOK E} (c : Cas.casTable)
    (interrupted : nat → bool) (d d' : disk) (top : gmap string node)
    (items : list CasEntry) :
  made c → uninterrupted interrupted → namesOK (casSegs c) (root d) →
  walk (root d) (casSegs c) = inr (Dir top) →
  Cas.Enumerate c interrupted d = (items, d') →
  (∀ x n, top !! x = Some n → x ≠ TrashName → validPrefix x = false →
     (∃ n', (trashSegs (casSegs c), [x], n') ∈ quarantine d'
            ∧ (x ≠ needFsckName → n' = n))
     ∧ (x ≠ needFsckName → walk (root d') (casSegs c ++ [x]) = inl ENOENT)
     ∧ Cas.WarnIfFsckIsNeeded c d' = true)
  ∧ (∀ p m r n, top !! p = Some (Dir m) → validPrefix p = true →
       m !! r = Some n → validRest r = false →
     (trashSegs (casSegs c), [p; r], n) ∈ quarantine d'
     ∧ walk (root d') (casSegs c ++ [p; r]) = inl ENOENT
     ∧ Cas.WarnIfFsckIsNeeded c d' = true)
  ∧ (∀ p m r n, top !! p = Some (Dir m) → validPrefix p = true →
       m !! r = Some n → validRest r = true →
     {| Item := p +:+ r; Error := None |} ∈ items
     ∧ walk (root d') (casSegs c ++ [p; r]) = inr n)
  ∧ (∀ e, e ∈ items → Error e = None →
     ∃ p m r, Item e = p +:+ r ∧ validPrefix p = true ∧ validRest r = true
              ∧ top !! p = Some (Dir m) ∧ is_Some (m !! r)).
Proof.
  intros Hc%made_casSegs Hrun Hok Htop Henum. set (cs := casSegs c) in *.
  pose proof (Enumerate_items cs c Hc interrupted d top Hrun Hok Htop) as Hitems.
  pose proof (Enumerate_steps cs c Hc interrupted d Hok) as Hsteps.
  rewrite Henum in Hitems, Hsteps. cbn [fst snd] in *.
  rewrite (Enumerate_scan cs c Hc interrupted d top Htop) in Henum.
  assert (Hnd := NoDup_dirNames top).
  assert (Hne := namesOK_top cs d top Hok Htop).
  assert (Hsh := namesOK_shards cs d (dirNames top) Hok).
  split; [|split; [|split]].
  - intros x n Hx Htr Hv.
    assert (x ∈ dirNames top) as Hin by (apply elem_of_dirNames; by eexists).
    assert (walk (root d) (cs ++ [x]) = inr n) as Hn
      by (by rewrite (walk_snoc_dir _ _ _ top Htop), Hx).
    destruct (scanPrefixes_moved_top cs c Hc interrupted Hrun 0 (dirNames top) d x n)
      as [Hmoved Hgone]; try done.
    rewrite Henum in Hmoved, Hgone. split; [done|]. split; [done|].
    pose proof (scanPrefixes_flagged cs c Hc interrupted Hrun 0 (dirNames top) d top
                  Hnd Hne Hsh Htop) as Hflag.
    rewrite Henum in Hflag. apply Hflag. right. left. by exists x.
  - intros p m r n Hp Hv Hr Hrv.
    assert (p ∈ dirNames top) as Hin by (apply elem_of_dirNames; by eexists).
    assert (walk (root d) (cs ++ [p]) = inr (Dir m)) as Hm
      by (by rewrite (walk_snoc_dir _ _ _ top Htop), Hp).
    destruct (scanPrefixes_moved_item cs c Hc interrupted Hrun 0 (dirNames top) d
                p r m n) as [Hmoved Hgone]; try done.
    rewrite Henum in Hmoved, Hgone. split; [done|]. split; [done|].
    pose proof (scanPrefixes_flagged cs c Hc interrupted Hrun 0 (dirNames top) d top
                  Hnd Hne Hsh Htop) as Hflag.
    rewrite Henum in Hflag. apply Hflag. right. right. by exists p, m, r, n.
  - intros p m r n Hp Hv Hr Hrv. split.
    + rewrite Hitems. by eapply itemsOfStore_elem_of.
    + rewrite (scanSteps_blob cs _ _ _ _ p r [] Hsteps Hv Hrv).
      rewrite cons_middle_snoc, (walk_snoc_dir _ (cs ++ [p]) r m), Hr; [done|].
      by rewrite (walk_snoc_dir _ _ _ top Htop), Hp.
  - intros e He Herr. rewrite Hitems in He.
    destruct (elem_of_itemsOfStore top e He Herr) as (p & m & r & -> & _ & ? & ? & ? & ?).
    by exists p, m, r.
Qed.

Lemma Enumerate_quarantines_corruption_witness :
  let scan := @Cas.Enumerate exampleEnv exampleTable (λ _, false) corruptDisk in
  @made exampleEnv exampleTable ∧ uninterrupted (λ _, false)
  ∧ namesOK (casSegs exampleTable) (root corruptDisk)
  ∧ walk (root corruptDisk) (casSegs exampleTable) = inr (Dir corruptTop)
  ∧ corruptTop !! "lost+found" = Some (Dir ∅)
  ∧ (∃ n', ([""; "r"; "cas"; "trash"], ["lost+found"], n') ∈ quarantine scan.2
           ∧ ("lost+found" ≠ needFsckName → n' = Dir ∅))
  ∧ Cas.WarnIfFsckIsNeeded exampleTable scan.2 = true.
Proof.
  intros scan.
  assert (walk (root corruptDisk) (casSegs exampleTable) = inr (Dir corruptTop)) as Htop
    by reflexivity.
  assert (namesOK (casSegs exampleTable) (root corruptDisk)) as Hok
    by (eapply namesOKb_correct; [exact Htop | vm_compute; reflexivity]).
  split; [exact exampleTable_made|]. split; [intros i; reflexivity|].
  split; [exact Hok|]. split; [exact Htop|]. split; [reflexivity|].
  pose proof (@Enumerate_quarantines_corruption exampleEnv exampleEnv_ok exampleTable
                (λ _, false) corruptDisk scan.2 corruptTop scan.1 exampleTable_made
                (λ i, eq_refl) Hok Htop (surjective_pairing scan)) as [Hnames _].
  pose proof (Hnames "lost+found" (Dir ∅) eq_refl) as Hlost.
  destruct Hlost as (Hmoved & _ & Hflag);
    [vm_compute; intros Heq; discriminate Heq | reflexivity |].
  split; [exact Hmoved | exact Hflag].
Defined.

(** C3, as stated, fails: the Trash directory's own name fails the shard
    pattern, yet Enumerate neither moves it to the Trash nor sets the
    consistency marker. *)
Lemma Enumerate_leaves_Trash_directory :
  validPrefix (@TrashName exampleEnv) = false
  ∧ (∃ n, walk (root trashedDisk) (casSegs exampleTable ++ [@TrashName exampleEnv])
          = inr n)
  ∧ (@Cas.Enumerate exampleEnv exampleTable (λ _, false) trashedDisk).2 = trashedDisk
  ∧ Cas.WarnIfFsckIsNeeded exampleTable trashedDisk = false.
Proof.
  split; [reflexivity|]. split; [eexists; vm_compute; reflexivity|].
  split; vm_compute; reflexivity.
Qed.

(** ** The Trash directory across passes *)

Section Passes.
Context {E : Env} {EOK : EnvOK E}.
Variables (cs : path) (c : Cas.casTable).
Hypothesis Hc : tableAt cs c.

Lemma Enumerate_items_valid (interrupted : nat → bool) (d : disk) (e : CasEntry) :
  e ∈ (Cas.Enumerate c interrupted d).1 → Error e = None →
  ∃ p r, Item e = p +:+ r ∧ validPrefix p = true ∧ p ≠ TrashName ∧ validRest r = true.
Proof using Hc EOK.
  destruct (walk (root d) cs) as [err|[data|top]] eqn:Htop.
  1,2: rewrite (Enumerate_unreadable cs c Hc) by (intros top; by rewrite Htop);
       by intros ->%list_elem_of_singleton.
  rewrite (Enumerate_scan cs c Hc interrupted d top Htop). intros Hin Herr.
  destruct (scanPrefixes_items_valid cs c Hc _ _ _ _ _ Hin Herr) as (p & r & ? & Hp & ?).
  exists p, r. repeat split; try done. by apply valid_not_special.
Qed.

Lemma Enumerate_clean (interrupted : nat → bool) (d : disk) (top : gmap string node) :
  walk (root d) cs = inr (Dir top) → cleanStore top →
  (Cas.Enumerate c interrupted d).2 = d.
Proof using Hc EOK.
  intros Htop Hclean. rewrite (Enumerate_scan cs c Hc interrupted d top Htop).
  apply (scanPrefixes_clean cs c Hc top); [done..|].
  by intros x ?%elem_of_dirNames.
Qed.

Lemma passes_clean (runs : list (nat → bool)) (d : disk) (top : gmap string node) :
  walk (root d) cs = inr (Dir top) → cleanStore top → (passes c runs d).2 = d.
Proof using Hc EOK.
  intros Htop Hclean. induction runs as [|interrupted runs IH]; [done|].
  cbn [passes]. pose proof (Enumerate_clean interrupted d top Htop Hclean) as H1.
  destruct (Cas.Enumerate c interrupted d) as [items d1]. cbn [snd] in H1. subst d1.
  by destruct (passes c runs d).
Qed.

Lemma passes_keep_Trash (runs : list (nat → bool)) (d : disk) :
  namesOK cs (root d) →
  (∀ items e, items ∈ (passes c runs d).1 → e ∈ items → Error e = None →
     ∃ p r, Item e = p +:+ r ∧ validPrefix p = true ∧ p ≠ TrashName
            ∧ validRest r = true)
  ∧ (∀ q n, walk (root d) (cs ++ TrashName :: q) = inr n →
            walk (root (passes c runs d).2) (cs ++ TrashName :: q) = inr n)
  ∧ (∃ extra,
       quarantine (passes c runs d).2 = quarantine d ++ extra
       ∧ ∀ e, e ∈ extra → ∃ x rest n, e = (trashSegs cs, x :: rest, n) ∧ x ≠ TrashName).
Proof using Hc EOK.
  revert d. induction runs as [|interrupted runs IH]; intros d Hok.
  { split; [by intros items e ?%elem_of_nil|]. split; [done|].
    exists []. split; [by rewrite app_nil_r | by intros e ?%elem_of_nil]. }
  cbn [passes].
  pose proof (Enumerate_items_valid interrupted d) as Hvalid.
  pose proof (Enumerate_steps cs c Hc interrupted d Hok) as Hsteps.
  destruct (Enumerate_quarantine cs c Hc interrupted d Hok) as (ex1 & Hq1 & Hex1).
  destruct (Cas.Enumerate c interrupted d) as [items1 d1]. cbn [fst snd] in *.
  destruct (IH d1) as (Hitems & Htrash & ex2 & Hq2 & Hex2).
  { by eapply scanSteps_namesOK. }
  destruct (passes c runs d1) as [outs d2]. cbn [fst snd] in *.
  split; [|split].
  - intros items e [->|Hin]%elem_of_cons He Herr; [by apply Hvalid | by eapply Hitems].
  - intros q n Hn. apply Htrash. by eapply scanSteps_trash.
  - exists (ex1 ++ ex2). split; [by rewrite Hq2, Hq1, app_assoc|].
    intros e [He|He]%elem_of_app; [by apply Hex1 | by apply Hex2].
Qed.
End Passes.

(** C10: however many Enumerate passes run over a store, interrupted or
    not, the Trash directory is skipped: nothing delivered comes from a
    shard called like it, whatever lies in it stays where it is, the
    quarantine only grows and never receives the Trash directory or
    anything below it, and on a store that is clean apart from its Trash
    directory the passes change nothing, so the consistency marker stays
    unset. *)
Theorem passes_skip_Trash {E : Env} {EOK : EnvOK E} (c : Cas.casTable)
    (runs : list (nat → bool)) (d d' : disk) (outs : list (list CasEntry)) :
  made c → namesOK (casSegs c) (root d) → passes c runs d = (outs, d') →
  (∀ items e, items ∈ outs → e ∈ items → Error e = None →
     ∃ p r, Item e = p +:+ r ∧ validPrefix p = true ∧ p ≠ TrashName
            ∧ validRest r = true)
  ∧ (∀ q n, walk (root d) (casSegs c ++ TrashName :: q) = inr n →
            walk (root d') (casSegs c ++ TrashName :: q) = inr n)
  ∧ (∃ extra,
       quarantine d' = quarantine d ++ extra
       ∧ ∀ e, e ∈ extra →
           ∃ x rest n, e = (trashSegs (casSegs c), x :: rest, n) ∧ x ≠ TrashName)
  ∧ (∀ top, walk (root d) (casSegs c) = inr (Dir top) → cleanStore top →
            d' = d ∧ Cas.WarnIfFsckIsNeeded c d' = false).
Proof.
  intros Hc%made_casSegs Hok Hrun.
  destruct (passes_keep_Trash (casSegs c) c Hc runs d Hok) as (Hitems & Htrash & Hq).
  rewrite Hrun in Hitems, Htrash, Hq. cbn [fst snd] in *.
  split; [done|]. split; [done|]. split; [done|].
  intros top Htop Hclean.
  pose proof (passes_clean (casSegs c) c Hc runs d top Htop Hclean) as Hsame.
  rewrite Hrun in Hsame. cbn [snd] in Hsame. subst d'. split; [done|].
  rewrite (WarnIfFsckIsNeeded_spec (casSegs c) c Hc), (walk_snoc_dir _ _ _ top Htop).
  destruct (top !! needFsckName) as [n|] eqn:Hn; [|done].
  destruct (Hclean needFsckName n Hn) as [Hv _]; [|done].
  apply not_eq_sym, TrashName_not_marker.
Qed.

Lemma trashedTop_clean : @cleanStore exampleEnv trashedTop.
Proof.
  intros x n Hx Htr. unfold trashedTop in Hx.
  apply lookup_insert_Some in Hx as [[<- <-] | [_ Hx]].
  - split; [reflexivity|]. eexists. split; [reflexivity|].
    intros r [v Hr]. apply lookup_singleton_Some in Hr as [<- _]. reflexivity.
  - apply lookup_singleton_Some in Hx as [<- _]. by destruct Htr.
Qed.

Lemma passes_skip_Trash_witness :
  let run := @passes exampleEnv exampleTable [λ _, false; λ i, 1 <? i] trashedDisk in
  @made exampleEnv exampleTable
  ∧ namesOK (casSegs exampleTable) (root trashedDisk)
  ∧ walk (root trashedDisk) (casSegs exampleTable ++ ["trash"]) = inr (Dir ∅)
  ∧ walk (root run.2) (casSegs exampleTable ++ ["trash"]) = inr (Dir ∅)
  ∧ run.2 = trashedDisk
  ∧ Cas.WarnIfFsckIsNeeded exampleTable run.2 = false.
Proof.
  intros run.
  assert (walk (root trashedDisk) (casSegs exampleTable) = inr (Dir trashedTop)) as Htop
    by reflexivity.
  assert (namesOK (casSegs exampleTable) (root trashedDisk)) as Hok
    by (eapply namesOKb_correct; [exact Htop | vm_compute; reflexivity]).
  assert (walk (root trashedDisk) (casSegs exampleTable ++ ["trash"]) = inr (Dir ∅))
    as Htrash by reflexivity.
  pose proof (@passes_skip_Trash exampleEnv exampleEnv_ok exampleTable
                [λ _, false; λ i, 1 <? i] trashedDisk run.2 run.1 exampleTable_made Hok
                (surjective_pairing run)) as (_ & Hkept & _ & Hclean).
  split; [exact exampleTable_made|]. split; [exact Hok|]. split; [exact Htrash|].
  split; [exact (Hkept [] (Dir ∅) Htrash)|].
  exact (Hclean trashedTop Htop trashedTop_clean).
Defined.

(** ** Storing the same content twice *)

Lemma filter_flat_map_nil {A B} (P : B → Prop) `{∀ b, Decision (P b)} (g : A → list B)
    (l : list A) :
  (∀ x, x ∈ l → filter P (g x) = []) → filter P (flat_map g l) = [].
Proof.
  induction l as [|x l IH]; intros Hall; [done|]. simpl.
  rewrite filter_app, (Hall x) by (by left). simpl.
  apply IH. intros x' Hx'. apply Hall. by right.
Qed.

Lemma length_filter_flat_map_single {A B} (P : B → Prop) `{∀ b, Decision (P b)}
    (g : A → list B) (l : list A) (x0 : A) :
  NoDup l → x0 ∈ l → (∀ x, x ∈ l → x ≠ x0 → filter P (g x) = []) →
  length (filter P (g x0)) = 1 → length (filter P (flat_map g l)) = 1.
Proof.
  intros Hnd Hin Hother Hone. induction l as [|x l IH]; [by apply elem_of_nil in Hin|].
  apply NoDup_cons in Hnd as [Hnotin Hnd]. simpl. rewrite filter_app, length_app.
  apply elem_of_cons in Hin as [<-|Hin].
  - rewrite Hone, filter_flat_map_nil; [done|].
    intros x Hx. apply Hother; [by right | by intros ->].
  - rewrite (Hother x) by ((by left) || (by intros ->)). simpl.
    apply IH; [done | done |]. intros x' Hx'. apply Hother. by right.
Qed.

Lemma length_filter_fmap_single {A B} (P : B → Prop) `{∀ b, Decision (P b)} (f : A → B)
    (l : list A) (x0 : A) :
  NoDup l → x0 ∈ l → (∀ x, x ∈ l → P (f x) ↔ x = x0) →
  length (filter P (f <$> l)) = 1.
Proof.
  intros Hnd Hin Hiff.
  assert (f <$> l = flat_map (λ y, [f y]) l) as ->.
  { clear. induction l as [|x l IH]; [done|]. rewrite fmap_cons. cbn [flat_map app].
    by f_equal. }
  apply (length_filter_flat_map_single P _ l x0); [done..| |].
  - intros x Hx Hne. rewrite filter_cons_False; [done|]. intros HP.
    by apply Hiff in HP.
  - rewrite filter_cons_True; [done|]. by apply Hiff.
Qed.

Lemma valid_app_inj (p p' r r' : string) :
  validPrefix p = true → validPrefix p' = true → p +:+ r = p' +:+ r' → p = p' ∧ r = r'.
Proof.
  intros Hp%MatchString_hex_length Hp'%MatchString_hex_length.
  apply app_string_inj. congruence.
Qed.

Lemma app_nonempty (p r : string) : validPrefix p = true → "" ≠ p +:+ r.
Proof. intros Hp Heq. by destruct p. Qed.

Section Once.
Context {E : Env} {EOK : EnvOK E}.

(** A blob of the store is delivered exactly once. *)
Lemma itemsOfStore_once (top : gmap string node) (p r : string) (m : gmap string node) :
  top !! p = Some (Dir m) → is_Some (m !! r) →
  validPrefix p = true → validRest r = true →
  length (filter (λ e, Item e = p +:+ r) (itemsOfStore top)) = 1.
Proof using EOK.
  intros Htop Hr Hp Hv. unfold itemsOfStore.
  apply (length_filter_flat_map_single _ _ _ p).
  - apply NoDup_dirNames.
  - apply elem_of_dirNames. by eexists.
  - intros x _ Hne. apply elem_of_nil_inv. intros e [HP Hin]%list_elem_of_filter.
    unfold itemsOfName in Hin. destruct (decide (x = TrashName)).
    { by apply elem_of_nil in Hin. }
    destruct (validPrefix x) eqn:Hx; [|by apply elem_of_nil in Hin].
    destruct (top !! x) as [[data|m']|]; [| |by apply elem_of_nil in Hin].
    + apply list_elem_of_singleton in Hin as ->. simpl in HP.
      by apply (app_nonempty p r Hp).
    + simpl in Hin. apply list_elem_of_fmap in Hin as (r' & -> & _). simpl in HP.
      by destruct (valid_app_inj x p r' r Hx Hp HP).
  - unfold itemsOfName. destruct (decide (p = TrashName)) as [->|_].
    { by rewrite TrashName_not_validPrefix in Hp. }
    rewrite Hp, Htop. simpl.
    apply (length_filter_fmap_single _ _ _ r).
    + apply NoDup_filter, NoDup_dirNames.
    + apply list_elem_of_filter. split; [done | by apply elem_of_dirNames].
    + intros r' _. simpl. split; [|by intros ->].
      intros Heq. by destruct (valid_app_inj p p r' r Hp Hp Heq).
Qed.

Variable cs : path.

(** Writing an entry of a shard keeps names non-empty. *)
Lemma namesOK_put_item (p r : string) (n : node) (fs : node) :
  p ≠ "" → r ≠ "" → namesOK cs fs → namesOK cs (fs_put (cs ++ [p; r]) n fs).
Proof.
  intros Hp Hr Hok l m' Hl Hw. unfold fs_put in Hw. destruct Hl as [-> | [y ->]].
  - destruct (walk_alter_ancestor_lookup _ cs p [r] fs m' "" (not_eq_sym Hp) Hw)
      as (m & Hm & ->).
    by eapply (Hok cs); [left|].
  - destruct (decide (y = p)) as [->|Hyp].
    + rewrite cons_middle_snoc in Hw.
      destruct (walk fs (cs ++ [p])) as [e|[data|m]] eqn:Hsh.
      1,2: rewrite fs_alter_no_parent in Hw by (intros m; by rewrite Hsh);
           rewrite Hsh in Hw; done.
      rewrite (walk_alter_parent _ (cs ++ [p]) r fs m Hsh) in Hw. injection Hw as <-.
      rewrite lookup_partial_alter_ne by done.
      eapply (Hok (cs ++ [p])); [right; by eexists | done].
    + rewrite (walk_alter_diverge _ cs p y [r] []) in Hw by done.
      eapply (Hok (cs ++ [y])); [right; by eexists | done].
Qed.

Variable c : Cas.casTable.
Hypothesis Hc : tableAt cs c.

Lemma AddEntry_namesOK (source : Reader) (h : string) (d : disk) :
  namesOK cs (root d) → namesOK cs (root (Cas.AddEntry c source h d).2).
Proof using Hc.
  intros Hok. destruct (validDigest h) eqn:Hh.
  2: { by rewrite (AddEntry_invalid cs c Hc source h d Hh). }
  rewrite (AddEntry_valid cs c Hc source h d Hh).
  destruct (MatchString_hex_slices splitAt (hashLength - splitAt) h Hh) as [H1 H2].
  pose proof (hex_nonempty 2 _ H1) as Hp. pose proof (hex_nonempty 36 _ H2) as Hr.
  destruct (walk (root d) (blobSegs cs h)) as [[]|]; try done.
  destruct (walk (root d) (cs ++ [sliceTo splitAt h])) as [|[|m]]; try done.
  simpl. unfold blobSegs.
  apply (namesOK_put_item _ _ _ _ Hp Hr), (namesOK_put_item _ _ _ _ Hp Hr), Hok.
Qed.
End Once.

(** C5: equal byte sequences have equal digests, and storing the same
    bytes twice through AddBytes stores them once: both calls return the
    same digest; when the first call has stored the blob, the second
    fails with an error for which os.IsExist holds and leaves the disk as
    it is, Open of the digest still reads the bytes, and an Enumerate
    that is not interrupted delivers the digest exactly once. *)
Theorem AddBytes_same_content_once {E : Env} {EOK : EnvOK E} (c : Cas.casTable)
    (interrupted : nat → bool) (d : disk) (b1 b2 : list byte) :
  made c → uninterrupted interrupted → namesOK (casSegs c) (root d) → b1 = b2 →
  let store := casTable_CasTable c interrupted in
  let '(h1, e1, d1) := @AddBytes disk store d b1 in
  let '(h2, e2, d2) := @AddBytes disk store d1 b2 in
  sha1Bytes b1 = sha1Bytes b2 ∧ h1 = sha1Bytes b1 ∧ h2 = h1
  ∧ (e1 = None →
     (∃ err, e2 = Some err ∧ os_IsExist err = true)
     ∧ d2 = d1
     ∧ (∃ f, Cas.Open c h1 d2 = inr f ∧ ReadAllHandle f = inr b1)
     ∧ length (filter (λ e, Item e = h1) (Cas.Enumerate c interrupted d2).1) = 1).
Proof.
  intros Hc%made_casSegs Hrun Hok <-. set (cs := casSegs c) in *.
  unfold AddBytes. simpl AddEntry.
  pose proof (AddEntry_namesOK cs c Hc (NewBuffer b1) (sha1Bytes b1) d Hok) as Hok1.
  destruct (Cas.AddEntry c (NewBuffer b1) (sha1Bytes b1) d) as [e1 d1] eqn:Hadd1.
  cbn [snd] in Hok1.
  destruct (Cas.AddEntry c (NewBuffer b1) (sha1Bytes b1) d1) as [e2 d2] eqn:Hadd2.
  split; [done|]. split; [done|]. split; [done|]. intros ->.
  pose proof (AddEntry_ok_created cs c Hc _ _ _ _ Hadd1) as Hex.
  destruct (AddEntry_created cs c Hc (NewBuffer b1) (sha1Bytes b1) d Hex)
    as (Hh & _ & Hw).
  rewrite Hadd1 in Hw. cbn [snd] in Hw. simpl rd_data in Hw.
  destruct (AddEntry_exists cs c Hc (NewBuffer b1) (sha1Bytes b1) d1 _ Hh Hw)
    as (err & Hadd2' & Herr).
  rewrite Hadd2 in Hadd2'. injection Hadd2' as -> ->.
  split; [by exists err|]. split; [done|]. split.
  - exists (OsFile (File b1)). split; [|done].
    rewrite (Open_valid cs c Hc _ d1 Hh). unfold blobSegs in Hw. by rewrite Hw.
  - unfold blobSegs in Hw.
    destruct (walk_prefix_dir (root d1) (File b1) cs
                [sliceTo splitAt (sha1Bytes b1); sliceFrom splitAt (sha1Bytes b1)])
      as [top Htop]; [done..|].
    rewrite (Enumerate_items cs c Hc interrupted d1 top Hrun Hok1 Htop).
    destruct (MatchString_hex_slices splitAt (hashLength - splitAt) _ Hh) as [H1 H2].
    rewrite cons_middle_snoc, walk_app, (walk_snoc_dir _ _ _ top Htop) in Hw.
    destruct (top !! sliceTo splitAt (sha1Bytes b1)) as [[data|m]|] eqn:Hp; try done.
    simpl in Hw.
    destruct (m !! sliceFrom splitAt (sha1Bytes b1)) as [n|] eqn:Hr; [|done].
    pose proof (itemsOfStore_once top _ _ m Hp (mk_is_Some _ _ Hr) H1 H2) as Hone.
    rewrite (slices_join splitAt (sha1Bytes b1)) in Hone; [done|].
    apply MatchString_hex_length in Hh. unfold splitAt, hashLength in *. lia.
Qed.

Lemma AddBytes_same_content_once_witness :
  let store := @casTable_CasTable exampleEnv exampleTable (λ _, false) in
  let content := list_byte_of_string "content1" in
  @made exampleEnv exampleTable ∧ uninterrupted (λ _, false)
  ∧ namesOK (casSegs exampleTable) (root exampleDisk)
  ∧ content = content
  ∧ (let '(h1, e1, d1) := @AddBytes disk store exampleDisk content in
     let '(h2, e2, d2) := @AddBytes disk store d1 content in
     sha1Bytes content = sha1Bytes content ∧ h1 = sha1Bytes content ∧ h2 = h1
     ∧ (e1 = None →
        (∃ err, e2 = Some err ∧ os_IsExist err = true)
        ∧ d2 = d1
        ∧ (∃ f, Cas.Open exampleTable h1 d2 = inr f ∧ ReadAllHandle f = inr content)
        ∧ length (filter (λ e, Item e = h1)
                    (@Cas.Enumerate exampleEnv exampleTable (λ _, false) d2).1) = 1))
  ∧ (@AddBytes disk store exampleDisk content).1.2 = None.
Proof.
  intros store content.
  assert (namesOK (casSegs exampleTable) (root exampleDisk)) as Hok
    by (eapply namesOKb_correct; [reflexivity | vm_compute; reflexivity]).
  split; [exact exampleTable_made|]. split; [intros i; reflexivity|].
  split; [exact Hok|]. split; [reflexivity|]. split; [|vm_compute; reflexivity].
  exact (@AddBytes_same_content_once exampleEnv exampleEnv_ok exampleTable (λ _, false)
           exampleDisk content content exampleTable_made (λ i, eq_refl) Hok eq_refl).
Defined.

(** ** Opening a store that needs fsck *)

Lemma cleanSegs_normal (acc segs : list string) :
  Forall normalSeg acc → Forall normalSeg (cleanSegs true acc segs).
Proof.
  revert acc. induction segs as [|s segs IH]; intros acc Hacc; simpl.
  { by apply Forall_rev. }
  destruct (decide (s = "" ∨ s = ".")) as [|Hs]; [by apply IH|].
  destruct (decide (s = "..")) as [->|Hdd].
  - destruct acc as [|a acc]; [by apply IH|].
    apply Forall_cons in Hacc as [[_ [_ Ha]] Hacc].
    destruct (decide (a = "..")); [done | by apply IH].
  - apply IH. apply Forall_cons. split; [|done]. unfold normalSeg. tauto.
Qed.

Lemma cleanSegs_id (abs : bool) (acc segs : list string) :
  Forall normalSeg segs → cleanSegs abs acc segs = rev acc ++ segs.
Proof.
  revert acc. induction segs as [|s segs IH]; intros acc Hsegs; simpl.
  { by rewrite app_nil_r. }
  apply Forall_cons in Hsegs as [(H1 & H2 & H3) Hsegs].
  destruct (decide (s = "" ∨ s = ".")) as [[?|?]|_]; [done..|].
  destruct (decide (s = "..")); [done|].
  rewrite IH by done. simpl. by rewrite <- app_assoc.
Qed.

(** path.Clean of an absolute path: absolute, made of proper names, and
    a fixed point of path.Clean. *)
Lemma path_Clean_abs_normal (p : path) :
  path_IsAbs p = true →
  ∃ rs, path_Clean p = "" :: rs ∧ Forall normalSeg rs ∧ path_Clean ("" :: rs) = "" :: rs.
Proof.
  destruct p as [|s p]; [done|]. destruct s as [|ch s]; [|done]. intros _.
  exists (cleanSegs true [] p). split; [done|].
  assert (Forall normalSeg (cleanSegs true [] p)) as Hn by (by apply cleanSegs_normal).
  split; [done|]. simpl. by rewrite cleanSegs_id.
Qed.

Lemma cleanSegs_nonempty (abs : bool) (acc segs : list string) :
  Forall (λ s, s ≠ "") acc → Forall (λ s, s ≠ "") (cleanSegs abs acc segs).
Proof.
  revert acc. induction segs as [|s segs IH]; intros acc Hacc; simpl.
  { by apply Forall_rev. }
  destruct (decide (s = "" ∨ s = ".")) as [|Hs]; [by apply IH|].
  destruct (decide (s = "..")) as [->|Hdd].
  - destruct acc as [|a acc].
    + destruct abs; apply IH; [done|]. by apply Forall_singleton.
    + destruct (decide (a = "..")).
      * apply IH. by apply Forall_cons.
      * apply IH. by apply Forall_cons in Hacc as [_ ?].
  - apply IH. apply Forall_cons. split; [tauto | done].
Qed.

(** path.Clean of a relative path is relative, and stays so when
    extended. *)
Lemma path_Clean_relative (p l : path) :
  path_IsAbs p = false → rooted (path_Clean p ++ l) = None.
Proof.
  intros Hp.
  assert (path_Clean p = match cleanSegs false [] p with [] => ["."] | q => q end) as ->.
  { destruct p as [|s p]; [done|]. destruct s; [done | done]. }
  pose proof (cleanSegs_nonempty false [] p (Forall_nil_2 _)) as Hne.
  destruct (cleanSegs false [] p) as [|s q]; [done|].
  apply Forall_cons in Hne as [Hs _]. simpl. by destruct s.
Qed.

Lemma mkdirAllFrom_exists (fs : node) (seen todo extra : path) (n : node) :
  extra ≠ [] → walk fs (seen ++ todo ++ extra) = inr n →
  mkdirAllFrom fs ("" :: seen) todo = (None, fs).
Proof.
  intros Hextra. revert seen. induction todo as [|x todo IH]; intros seen Hn; [done|].
  simpl. rewrite stat_rooted.
  replace (seen ++ (x :: todo) ++ extra) with ((seen ++ [x]) ++ todo ++ extra) in Hn
    by (by rewrite <- app_assoc).
  destruct (walk_prefix_dir fs n (seen ++ [x]) (todo ++ extra)) as [m Hm];
    [by destruct todo, extra | done |].
  rewrite Hm. by apply IH.
Qed.

Section Refusal.
Context {E : Env}.

#[local] Arguments Cas.makePrefixes : simpl never.
#[local] Arguments prefixSpace : simpl never.

Lemma filepath_Abs_clean (p R : path) :
  filepath_Abs p = inr R → ∃ x, R = path_Clean x.
Proof.
  unfold filepath_Abs. destruct (path_IsAbs p); [intros [= <-]; by eexists|].
  destruct Getwd; [done|]. intros [= <-]. by eexists.
Qed.

(** MakeCasTable on a root whose cas directory is there: the table, and
    an untouched disk. *)
Lemma MakeCasTable_exists (rs : path) (d : disk) (n : node) :
  path_Clean ("" :: rs) = "" :: rs → walk (root d) (rs ++ [casName]) = inr n →
  Cas.MakeCasTable ("" :: rs) d
  = (inr {| Cas.rootDir := "" :: rs; Cas.casDir := "" :: rs ++ [casName];
            Cas.prefixLength := splitAt; Cas.validPath := HexExactly hashLength;
            Cas.trash := Trash.MakeTrash ("" :: rs ++ [casName]) |}, d).
Proof.
  intros Hclean Hn. unfold Cas.MakeCasTable. cbn [path_IsAbs negb].
  rewrite Hclean.
  assert (path_Join ["" :: rs; seg casName] = "" :: rs ++ [casName]) as -> by done.
  by rewrite os_Mkdir_spec, Hn.
Qed.
End Refusal.

(** C8: when the marker file of the store at Root is there and the
    bypass is not requested, CommonFlag returns no table but the error
    "Can't run if fsck is needed", and leaves the disk as it is. *)
Theorem CommonFlag_refuses_when_flagged {E : Env} (Root R : path) (createRoot : bool)
    (d : disk) (marker : node) :
  Root ≠ [] → filepath_Abs Root = inr R → stat (root d) (markerOf R) = inr marker →
  CommonFlag Root createRoot false d
  = (inl (Errorf "Can't run if fsck is needed. Please run fsck first."), d).
Proof.
  intros Hroot Habs Hmarker. unfold CommonFlag.
  destruct (decide (Root = [])); [done|]. rewrite Habs.
  destruct (filepath_Abs_clean Root R Habs) as [x ->].
  destruct (path_IsAbs x) eqn:Hx.
  2: { unfold markerOf, stat in Hmarker.
       assert (rooted (path_Join [path_Join [path_Clean (path_Clean x); seg casName];
                                  seg needFsckName]) = None) as Hrel.
       { destruct (path_IsAbs (path_Clean x)) eqn:Hcx.
         - destruct (path_Clean x) as [|s q] eqn:Hq; [done|].
           pose proof (path_Clean_relative x [] Hx) as Hr. rewrite app_nil_r, Hq in Hr.
           by destruct s.
         - pose proof (path_Clean_relative (path_Clean x) [casName; needFsckName] Hcx)
             as Hr.
           destruct (path_Clean (path_Clean x)) as [|s q] eqn:Hq;
             [|unfold path_Join; simpl in *; by destruct s].
           revert Hq. unfold path_Clean at 1.
           destruct (path_Clean x) as [|[|] ?]; [|done|];
             by destruct (cleanSegs false [] _). }
       by rewrite Hrel in Hmarker. }
  destruct (path_Clean_abs_normal x Hx) as (rs & Hrs & Hnormal & Hfix).
  rewrite Hrs in *. clear Hrs.
  unfold markerOf in Hmarker. rewrite Hfix in Hmarker.
  assert (path_Join [path_Join ["" :: rs; seg casName]; seg needFsckName]
          = "" :: rs ++ [casName; needFsckName]) as Hpath
    by (unfold path_Join; simpl; by rewrite <- ?app_assoc, ?app_nil_r).
  rewrite Hpath, stat_rooted in Hmarker.
  destruct (walk_prefix_dir (root d) marker (rs ++ [casName]) [needFsckName])
    as [m Hcas]; [done | by rewrite <- app_assoc |].
  assert ((if createRoot
           then match os_MkdirAll (root d) ("" :: rs) with
                | (Some err, fs1) =>
                    if negb (os_IsExist err) then inl (Errorf "Failed to create %s: %s")
                    else inr {| root := fs1; quarantine := quarantine d |}
                | (None, fs1) => inr {| root := fs1; quarantine := quarantine d |}
                end
           else inr d) = inr d) as ->.
  { destruct createRoot; [|done]. unfold os_MkdirAll.
    rewrite (mkdirAllFrom_exists (root d) [] rs [casName; needFsckName] marker);
      [by destruct d | done | done]. }
  rewrite (MakeCasTable_exists rs d _ Hfix Hcas).
  unfold Cas.WarnIfFsckIsNeeded, os_Open. cbn [Cas.casDir].
  assert (path_Join ["" :: rs ++ [casName]; seg needFsckName]
          = "" :: rs ++ [casName; needFsckName]) as ->
    by (unfold path_Join; simpl; by rewrite <- ?app_assoc, ?app_nil_r).
  by rewrite stat_rooted, Hmarker.
Qed.

Lemma CommonFlag_refuses_when_flagged_witness :
  [""; "r"] ≠ [] ∧ @filepath_Abs exampleEnv [""; "r"] = inr [""; "r"]
  ∧ stat (root flaggedDisk) (markerOf [""; "r"]) = inr (File [])
  ∧ @CommonFlag exampleEnv [""; "r"] true false flaggedDisk
    = (inl (Errorf "Can't run if fsck is needed. Please run fsck first."), flaggedDisk).
Proof.
  split; [discriminate|]. split; [reflexivity|]. split; [reflexivity|].
  apply (@CommonFlag_refuses_when_flagged exampleEnv [""; "r"] [""; "r"] true
           flaggedDisk (File [])); [discriminate | reflexivity | reflexivity].
Defined.

(** ** The collector *)

Lemma Entry_tree_ind (P : Entry → Prop) :
  (∀ sha1 files, Forall (λ kv, P kv.2) files → P (MkEntry sha1 files)) →
  ∀ e, P e.
Proof.
  intros HP. fix IH 1. intros [sha1 files]. apply HP.
  induction files as [|[k e] files IHf]; constructor; [apply IH | apply IHf].
Qed.

Lemma TagRecurse_lookup (entry : Entry) : ∀ (entries : gmap string bool) h,
  Gc.TagRecurse entries entry !! h
  = if decide (h ∈ digestsOf entry) then Some true else entries !! h.
Proof.
  induction entry as [sha1 files IH] using Entry_tree_ind. intros entries h.
  cbn [Gc.TagRecurse digestsOf].
  set (e0 := if decide (sha1 ≠ "") then <[sha1:=true]> entries else entries).
  set (own := if decide (sha1 ≠ "") then [sha1] else []).
  assert (He0 : e0 !! h = if decide (h ∈ own) then Some true else entries !! h).
  { subst e0 own. destruct (decide (sha1 ≠ "")) as [Hs|Hs].
    - destruct (decide (h = sha1)) as [->|Hne].
      + rewrite lookup_insert_eq. rewrite decide_True; [done|].
        apply list_elem_of_singleton. done.
      + rewrite lookup_insert_ne by done.
        rewrite decide_False; [done|]. rewrite list_elem_of_singleton. done.
    - rewrite decide_False; [done|]. apply not_elem_of_nil. }
  clearbody e0 own. revert e0 own He0.
  induction IH as [|[k e] files Hhd _ IHfiles]; intros e0 own He0.
  - cbn. rewrite app_nil_r. exact He0.
  - cbn [fold_left flat_map]. rewrite app_assoc. apply IHfiles.
    cbn [snd] in Hhd. rewrite Hhd, He0.
    destruct (decide (h ∈ digestsOf e)) as [Hin|Hin].
    + rewrite decide_True by (apply elem_of_app; right; exact Hin). done.
    + destruct (decide (h ∈ own)) as [Hown|Hown].
      * rewrite decide_True by (apply elem_of_app; left; exact Hown). done.
      * rewrite decide_False; [done|]. rewrite elem_of_app. tauto.
Qed.

Lemma tagEnumerated_lookup (items : list CasEntry) :
  ∀ (entries entries' : gmap string bool) h,
    Gc.tagEnumerated items entries = inr entries' →
    entries' !! h
    = if decide (h ∈ Item <$> items) then Some false else entries !! h.
Proof.
  induction items as [|item rest IH]; intros entries entries' h Hrun; cbn in Hrun.
  - injection Hrun as <-. rewrite decide_False by apply not_elem_of_nil. done.
  - destruct (Error item) as [err|]; [discriminate|].
    rewrite (IH _ _ h Hrun), fmap_cons.
    destruct (decide (h ∈ Item <$> rest)) as [Hin|Hin].
    + rewrite decide_True by (apply elem_of_cons; right; exact Hin). done.
    + destruct (decide (h = Item item)) as [->|Hne].
      * rewrite lookup_insert_eq, decide_True by (apply elem_of_cons; left; done).
        done.
      * rewrite lookup_insert_ne by done.
        rewrite decide_False; [done|]. rewrite elem_of_cons. tauto.
Qed.

Lemma tagEnumerated_ok (items : list CasEntry) : ∀ entries : gmap string bool,
  (∀ item, item ∈ items → Error item = None) →
  ∃ entries', Gc.tagEnumerated items entries = inr entries'.
Proof.
  induction items as [|item rest IH]; intros entries Hok; cbn.
  - eauto.
  - rewrite (Hok item) by (apply elem_of_cons; left; done).
    apply IH. intros i Hi. apply Hok, elem_of_cons. right. exact Hi.
Qed.

Lemma elem_of_orphansOf (entries : gmap string bool) h :
  h ∈ Gc.orphansOf entries ↔ entries !! h = Some false.
Proof.
  unfold Gc.orphansOf. rewrite list_elem_of_fmap. split.
  - intros ([k b] & -> & Hin). apply list_elem_of_filter in Hin as [Hb Hin].
    cbn in Hb. subst b. apply elem_of_map_to_list in Hin. exact Hin.
  - intros Hh. exists (h, false). split; [done|].
    apply list_elem_of_filter. split; [done|]. apply elem_of_map_to_list. exact Hh.
Qed.

Lemma NoDup_orphansOf (entries : gmap string bool) : NoDup (Gc.orphansOf entries).
Proof.
  unfold Gc.orphansOf.
  eapply sublist_NoDup; [apply (NoDup_fst_map_to_list entries)|].
  apply fmap_sublist, sublist_filter.
Qed.

Section Collector.
Context {E : Env} {T : Type} `{CasTable T}.

Lemma tagNodes_lookup (cas : T) (nodes : list NodeEntry) :
  ∀ (entries entries' : gmap string bool) h,
    Gc.tagNodes cas nodes entries = inr entries' →
    entries' !! h
    = if decide (h ∈ markedBy cas nodes) then Some true else entries !! h.
Proof.
  induction nodes as [|item rest IH]; intros entries entries' h Hrun; cbn in Hrun.
  - injection Hrun as <-. rewrite decide_False by apply not_elem_of_nil. done.
  - destruct (NE_Error item) as [err|]; [discriminate|].
    unfold markedBy. cbn [flat_map]. fold (markedBy cas rest).
    destruct (Gc.LoadEntry cas (Node_Entry (NE_Node item))) as [err|entry];
      [discriminate|].
    rewrite (IH _ _ h Hrun), TagRecurse_lookup.
    destruct (decide (h ∈ markedBy cas rest)) as [Hin|Hin].
    + rewrite decide_True by (apply elem_of_app; right; exact Hin). done.
    + destruct (decide (h ∈ digestsOf entry)) as [Hd|Hd].
      * rewrite decide_True; [done|]. apply elem_of_app. left.
        apply elem_of_cons. right. exact Hd.
      * destruct (decide (h = Node_Entry (NE_Node item))) as [->|Hne].
        -- rewrite lookup_insert_eq, decide_True; [done|].
           apply elem_of_app. left. apply elem_of_cons. left. done.
        -- rewrite lookup_insert_ne by done. rewrite decide_False; [done|].
           rewrite elem_of_app, elem_of_cons. tauto.
Qed.

Lemma tagNodes_fails (cas : T) (nodes : list NodeEntry) :
  markFails cas nodes →
  ∀ entries, ∃ err, Gc.tagNodes cas nodes entries = inl err.
Proof.
  intros (bad & Hin & Hbad).
  induction nodes as [|item rest IH]; intros entries.
  - apply not_elem_of_nil in Hin. destruct Hin.
  - cbn. destruct (NE_Error item) as [err|] eqn:Herr; [eauto|].
    destruct (Gc.LoadEntry cas (Node_Entry (NE_Node item))) as [err|entry] eqn:Hload;
      [eauto|].
    apply elem_of_cons in Hin as [->|Hin].
    + destruct Hbad as [[err Hsome]|[err Hfail]]; congruence.
    + apply (IH Hin).
Qed.

Lemma tagNodes_ok (cas : T) (nodes : list NodeEntry) :
  ¬ markFails cas nodes →
  ∀ entries, ∃ entries', Gc.tagNodes cas nodes entries = inr entries'.
Proof.
  induction nodes as [|item rest IH]; intros Hok entries; cbn.
  - eauto.
  - destruct (NE_Error item) as [err|] eqn:Herr.
    { destruct Hok. exists item. split; [apply elem_of_cons; left; done|].
      left. rewrite Herr. eauto. }
    destruct (Gc.LoadEntry cas (Node_Entry (NE_Node item))) as [err|entry] eqn:Hload.
    { destruct Hok. exists item. split; [apply elem_of_cons; left; done|].
      right. eauto. }
    apply IH. intros (bad & Hin & Hbad). apply Hok. exists bad.
    split; [apply elem_of_cons; right; exact Hin | exact Hbad].
Qed.

Section Lawful.
Context (wf : T → Prop) {Laws : CasTableLaws wf}.

Lemma sweep_spec (orphans : list string) : ∀ cas : T,
  wf cas → NoDup orphans →
  (∀ h, h ∉ orphans → Open h (Gc.sweep orphans cas).2 = Open h cas)
  ∧ ((Gc.sweep orphans cas).1 = None →
     ∀ h, h ∈ orphans → ∃ err, Open h (Gc.sweep orphans cas).2 = inl err)
  ∧ ((Gc.sweep orphans cas).1 = None
     ∨ (Gc.sweep orphans cas).1
       = Some (Errorf "Internal error while removing %s: %s")).
Proof using Laws.
  induction orphans as [|orphan rest IH]; intros cas Hwf Hnd; cbn [Gc.sweep].
  - split; [done|]. split; [|left; done].
    intros _ h Hin. apply not_elem_of_nil in Hin. destruct Hin.
  - apply NoDup_cons in Hnd as [Hfresh Hnd].
    pose proof (Remove_wf cas orphan Hwf) as Hwf'.
    pose proof (Remove_other cas orphan) as Hother.
    destruct (Remove orphan cas) as [[err|] cas'] eqn:Hrm; cbn [fst snd] in *.
    + split; [|split; [discriminate | right; done]].
      intros h Hh. rewrite SetFsckBit_Open. apply Hother; [exact Hwf|].
      intros ->. apply Hh, elem_of_cons. left. done.
    + destruct (IH cas' Hwf' Hnd) as (Hkeep & Hgone & Hres).
      split; [|split; [|exact Hres]].
      * intros h Hh. rewrite Hkeep.
        -- apply Hother; [exact Hwf|]. intros ->. apply Hh, elem_of_cons. left. done.
        -- intros Hin. apply Hh, elem_of_cons. right. exact Hin.
      * intros Hnone h Hh. apply elem_of_cons in Hh as [->|Hh].
        -- rewrite (Hkeep orphan Hfresh). apply (Remove_gone cas cas' orphan Hwf Hrm).
        -- apply (Hgone Hnone h Hh).
Qed.

Lemma main_marked (cas : T) (nodes : list NodeEntry) entries0 entries :
  Gc.tagEnumerated (Enumerate cas).1 ∅ = inr entries0 →
  Gc.tagNodes (Enumerate cas).2 nodes entries0 = inr entries →
  ∀ h, h ∈ Gc.orphansOf entries
       ↔ h ∈ enumerated cas ∧ h ∉ markedBy (Enumerate cas).2 nodes.
Proof.
  intros H0 H1 h. rewrite elem_of_orphansOf.
  rewrite (tagNodes_lookup _ _ _ _ h H1), (tagEnumerated_lookup _ _ _ h H0).
  fold (enumerated cas). rewrite lookup_empty.
  destruct (decide (h ∈ markedBy (Enumerate cas).2 nodes));
    destruct (decide (h ∈ enumerated cas)); split; intros Hh;
    try discriminate; try tauto; try done.
Qed.

Lemma main_unfold (cas : T) (nodes : list NodeEntry) :
  Gc.main None cas nodes
  = match Gc.tagEnumerated (Enumerate cas).1 ∅ with
    | inl err =>
        (Some (Errorf "Failed enumerating the CAS table %s"),
         SetFsckBit (Enumerate cas).2)
    | inr entries =>
        match Gc.tagNodes (Enumerate cas).2 nodes entries with
        | inl err => (Some err, (Enumerate cas).2)
        | inr entries => Gc.sweep (Gc.orphansOf entries) (Enumerate cas).2
        end
    end.
Proof. unfold Gc.main. destruct (Enumerate cas) as [items cas1]. reflexivity. Qed.

Lemma main_spec (cas : T) (nodes : list NodeEntry) :
  wf cas →
  let run := Gc.main None cas nodes in
  let swept h := h ∈ enumerated cas ∧ h ∉ markedBy (Enumerate cas).2 nodes in
  (∀ h, ¬ swept h → Open h run.2 = Open h cas)
  ∧ (run.1 = None → ∀ h, swept h → ∃ err, Open h run.2 = inl err)
  ∧ ((∀ item, item ∈ (Enumerate cas).1 → Error item = None) →
     ¬ markFails (Enumerate cas).2 nodes →
     run.1 = None ∨ run.1 = Some (Errorf "Internal error while removing %s: %s")).
Proof using Laws.
  intros Hwf run swept. subst run. rewrite main_unfold.
  pose proof (Enumerate_wf cas Hwf) as Hwf1.
  pose proof (Enumerate_Open cas) as Hopen.
  destruct (Gc.tagEnumerated (Enumerate cas).1 ∅) as [err|entries0] eqn:H0.
  { cbn [fst snd]. split; [|split; [discriminate|]].
    - intros h _. rewrite SetFsckBit_Open. apply Hopen, Hwf.
    - intros Hitems _.
      destruct (tagEnumerated_ok (Enumerate cas).1 ∅ Hitems) as [e He]. congruence. }
  destruct (Gc.tagNodes (Enumerate cas).2 nodes entries0) as [err|entries] eqn:H1.
  { cbn [fst snd]. split; [|split; [discriminate|]].
    - intros h _. apply Hopen, Hwf.
    - intros _ Hmark.
      destruct (tagNodes_ok _ _ Hmark entries0) as [e He]. congruence. }
  pose proof (main_marked cas nodes entries0 entries H0 H1) as Horph.
  destruct (sweep_spec (Gc.orphansOf entries) (Enumerate cas).2 Hwf1
              (NoDup_orphansOf entries)) as (Hkeep & Hgone & Hres).
  split; [|split].
  - intros h Hh. rewrite Hkeep; [apply Hopen, Hwf|]. rewrite Horph. exact Hh.
  - intros Hnone h Hh. apply (Hgone Hnone). rewrite Horph. exact Hh.
  - intros _ _. exact Hres.
Qed.

Lemma main_mark_fails (cas : T) (nodes : list NodeEntry) :
  markFails (Enumerate cas).2 nodes →
  let run := Gc.main None cas nodes in
  is_Some run.1
  ∧ (run.2 = (Enumerate cas).2 ∨ run.2 = SetFsckBit (Enumerate cas).2).
Proof.
  intros Hfail run. subst run. rewrite main_unfold.
  destruct (Gc.tagEnumerated (Enumerate cas).1 ∅) as [err|entries0] eqn:H0.
  { cbn. eauto. }
  destruct (tagNodes_fails _ _ Hfail entries0) as [err ->]. cbn. eauto.
Qed.
End Lawful.
End Collector.

(** ** The table kept in memory *)

#[export] Instance mockCasTable_laws : CasTableLaws (λ _ : Mock.mockCasTable, True).
Proof.
  split; try done.
  - intros m m' h _. cbn. unfold Mock.Remove, Mock.Open.
    destruct (Mock.entries m !! h) eqn:Hh; [|discriminate].
    intros [= <-]. cbn. rewrite lookup_delete_eq. eauto.
  - intros m h h' _ Hne. cbn. unfold Mock.Remove, Mock.Open.
    destruct (Mock.entries m !! h) eqn:Hh; cbn; [|done].
    by rewrite lookup_delete_ne.
  - intros m m' h err _. cbn. unfold Mock.Remove.
    destruct (Mock.entries m !! h) eqn:Hh; [discriminate|]. by intros [= _ <-].
Qed.

Lemma mock_enumerated (m : Mock.mockCasTable) (h : string) :
  h ∈ enumerated m ↔ is_Some (Mock.entries m !! h).
Proof.
  unfold enumerated. cbn [Enumerate mockCasTable_CasTable]. unfold Mock.Enumerate.
  cbn [fst].
  change (map ?f ?l) with (f <$> l). split.
  - intros (e & -> & He)%list_elem_of_fmap.
    apply list_elem_of_fmap in He as (k & -> & Hk).
    apply list_elem_of_fmap in Hk as ([k' v] & -> & Hin%elem_of_map_to_list).
    cbn. eauto.
  - intros [v Hv]. apply list_elem_of_fmap.
    exists {| Item := h; Error := None |}. split; [done|].
    apply list_elem_of_fmap. exists h. split; [done|].
    apply list_elem_of_fmap. exists (h, v). split; [done|].
    by apply elem_of_map_to_list.
Qed.

Lemma mock_Enumerate_no_error (m : Mock.mockCasTable) (item : CasEntry) :
  item ∈ (Enumerate m).1 → Error item = None.
Proof.
  cbn. unfold Mock.Enumerate. cbn [fst].
  by intros (k & -> & _)%list_elem_of_fmap.
Qed.

Lemma mock_sweep (orphans : list string) : ∀ m : Mock.mockCasTable,
  NoDup orphans → (∀ h, h ∈ orphans → is_Some (Mock.entries m !! h)) →
  ∃ m', Gc.sweep orphans m = (None, m')
        ∧ Mock.needFsck m' = Mock.needFsck m
        ∧ ∀ h, Mock.entries m' !! h
               = if decide (h ∈ orphans) then None else Mock.entries m !! h.
Proof.
  induction orphans as [|orphan rest IH]; intros m Hnd Hin.
  - exists m. split; [done|]. split; [done|]. intros h.
    by rewrite decide_False by apply not_elem_of_nil.
  - apply NoDup_cons in Hnd as [Hfresh Hnd]. cbn [Gc.sweep]. cbn [Remove mockCasTable_CasTable].
    unfold Mock.Remove.
    destruct (Hin orphan) as [data Hdata]; [by left|]. rewrite Hdata.
    destruct (IH {| Mock.entries := delete orphan (Mock.entries m);
                    Mock.needFsck := Mock.needFsck m |} Hnd)
      as (m' & Hrun & Hbit & Hlook).
    { intros h Hh. cbn. apply lookup_delete_is_Some. split.
      - intros ->. done.
      - apply Hin. by right. }
    exists m'. split; [done|]. split; [done|]. intros h. rewrite Hlook. cbn.
    destruct (decide (h ∈ rest)) as [Hr|Hr].
    + rewrite decide_True by (by right). done.
    + destruct (decide (h = orphan)) as [->|Hne].
      * rewrite lookup_delete_eq, decide_True by (by left). done.
      * rewrite lookup_delete_ne by done. rewrite decide_False; [done|].
        rewrite elem_of_cons. tauto.
Qed.

Lemma elem_of_digestsOf (entry : Entry) (h : string) :
  h ∈ digestsOf entry ↔ h ≠ "" ∧ ∃ e', subEntry e' entry ∧ Sha1 e' = h.
Proof.
  induction entry as [sha1 files IH] using Entry_tree_ind.
  cbn [digestsOf]. rewrite elem_of_app. split.
  - intros [Hown|Hsub].
    + destruct (decide (sha1 ≠ "")) as [Hs|Hs]; [|by apply elem_of_nil in Hown].
      apply list_elem_of_singleton in Hown as ->. split; [done|].
      exists (MkEntry sha1 files). split; [constructor | done].
    + apply list_elem_of_In, in_flat_map in Hsub as ([name child] & Hin & Hh).
      apply list_elem_of_In in Hin, Hh.
      rewrite Forall_forall in IH. apply (IH _ Hin) in Hh as (Hne & e' & Hsub & Hsha).
      split; [done|]. exists e'. split; [|done]. by eapply sub_below.
  - intros (Hne & e' & Hsub & Hsha).
    inversion Hsub as [Heq | sha1' files' name child Hin Hbelow [Hs Hf]].
    + left. subst e'. cbn in Hsha. subst h.
      rewrite decide_True by done. by apply list_elem_of_singleton.
    + right. apply list_elem_of_In, in_flat_map. exists (name, child).
      split; [by apply list_elem_of_In|]. apply list_elem_of_In.
      rewrite Forall_forall in IH. apply (IH _ Hin). split; [done|]. eauto.
Qed.

(** TagRecurse tags every non-empty digest of the tree, at any depth, and
    changes nothing else: no other key is added, removed or reset, and
    the empty digest of a directory is never made a key. *)
Theorem TagRecurse_tags_the_tree (entries : gmap string bool) (entry : Entry) :
  (∀ e', subEntry e' entry → Sha1 e' ≠ "" →
         Gc.TagRecurse entries entry !! Sha1 e' = Some true)
  ∧ (∀ h, (∀ e', subEntry e' entry → Sha1 e' ≠ h) →
          Gc.TagRecurse entries entry !! h = entries !! h)
  ∧ Gc.TagRecurse entries entry !! "" = entries !! "".
Proof.
  split; [|split].
  - intros e' Hsub Hne. rewrite TagRecurse_lookup, decide_True; [done|].
    apply elem_of_digestsOf. eauto.
  - intros h Hno. rewrite TagRecurse_lookup, decide_False; [done|].
    intros (_ & e' & Hsub & Hsha)%elem_of_digestsOf. by apply (Hno e').
  - rewrite TagRecurse_lookup, decide_False; [done|].
    by intros (Hne & _)%elem_of_digestsOf.
Qed.

(** ** Runs of the collector *)

(** Over any table that obeys the laws of a table, a run of the collector
    removes only digests that its first pass enumerated and that no node
    marked: every other digest answers Open as before the run (a marked
    digest that the table does not hold is neither created nor removed);
    a run that returns nil has removed every enumerated, unmarked digest;
    and when the enumeration delivers no error and no node fails to
    load, the only error the run can return is that of a failed Remove. *)
Theorem gc_sweeps_only_unmarked {E : Env} {T : Type} `{CasTable T} (wf : T → Prop)
    {Laws : CasTableLaws wf} (cas : T) (nodes : list NodeEntry) :
  wf cas →
  let run := Gc.main None cas nodes in
  let swept h := h ∈ enumerated cas ∧ h ∉ markedBy (Enumerate cas).2 nodes in
  (∀ h, ¬ swept h → Open h run.2 = Open h cas)
  ∧ (run.1 = None → ∀ h, swept h → ∃ err, Open h run.2 = inl err)
  ∧ ((∀ item, item ∈ (Enumerate cas).1 → Error item = None) →
     ¬ markFails (Enumerate cas).2 nodes →
     run.1 = None ∨ run.1 = Some (Errorf "Internal error while removing %s: %s")).
Proof. intros Hwf. exact (main_spec wf cas nodes Hwf). Qed.

Lemma gc_sweeps_only_unmarked_witness :
  let run := @Gc.main exampleEnv _ _ None exampleMock exampleNodes in
  let swept h := h ∈ enumerated exampleMock
                 ∧ h ∉ @markedBy exampleEnv _ _ (Enumerate exampleMock).2 exampleNodes in
  True
  ∧ (∀ h, ¬ swept h → Open h run.2 = Open h exampleMock)
  ∧ (run.1 = None → ∀ h, swept h → ∃ err, Open h run.2 = inl err)
  ∧ ((∀ item, item ∈ (Enumerate exampleMock).1 → Error item = None) →
     ¬ @markFails exampleEnv _ _ (Enumerate exampleMock).2 exampleNodes →
     run.1 = None ∨ run.1 = Some (Errorf "Internal error while removing %s: %s")).
Proof.
  intros run swept. split; [exact I|].
  exact (@gc_sweeps_only_unmarked exampleEnv _ _ (λ _, True) mockCasTable_laws
           exampleMock exampleNodes I).
Defined.

(** When a node cannot be used (the Node Store delivers an error for it,
    or its root Entry does not load), the run returns an error and stops
    before the sweep: the table is left as the first pass left it, or,
    when that pass itself delivered an error, with its consistency bit
    set; no Remove has run. *)
Theorem gc_mark_failure_aborts {E : Env} {T : Type} `{CasTable T} (cas : T)
    (nodes : list NodeEntry) :
  markFails (Enumerate cas).2 nodes →
  let run := Gc.main None cas nodes in
  is_Some run.1
  ∧ (run.2 = (Enumerate cas).2
     ∨ run.2 = SetFsckBit (Enumerate cas).2
       ∧ ∃ item, item ∈ (Enumerate cas).1 ∧ is_Some (Error item)).
Proof.
  intros Hfail run. subst run. rewrite main_unfold.
  destruct (Gc.tagEnumerated (Enumerate cas).1 ∅) as [err|entries0] eqn:H0.
  - cbn. split; [eauto|]. right. split; [done|].
    destruct (decide (Exists (λ item, is_Some (Error item)) (Enumerate cas).1))
      as [Hex|Hno].
    + apply Exists_exists in Hex. exact Hex.
    + destruct (tagEnumerated_ok (Enumerate cas).1 ∅) as [e He]; [|congruence].
      intros item Hin. destruct (Error item) as [err'|] eqn:Herr; [|done].
      destruct Hno. apply Exists_exists. exists item. rewrite Herr. eauto.
  - destruct (tagNodes_fails _ _ Hfail entries0) as [err ->]. cbn. eauto.
Qed.

Lemma gc_mark_failure_aborts_witness :
  @markFails exampleEnv _ _ (Enumerate emptyMock).2 danglingNodes
  ∧ (let run := @Gc.main exampleEnv _ _ None emptyMock danglingNodes in
     is_Some run.1
     ∧ (run.2 = (Enumerate emptyMock).2
        ∨ run.2 = SetFsckBit (Enumerate emptyMock).2
          ∧ ∃ item, item ∈ (Enumerate emptyMock).1 ∧ is_Some (Error item))).
Proof.
  assert (Hfail : @markFails exampleEnv _ _ (Enumerate emptyMock).2 danglingNodes).
  { eexists. split; [by left|]. right. eexists. vm_compute. reflexivity. }
  split; [exact Hfail|].
  exact (@gc_mark_failure_aborts exampleEnv _ _ emptyMock danglingNodes Hfail).
Defined.

(** When the first pass delivers an error, the run sets the consistency
    bit of the table and returns its own error; no node is looked at and
    nothing is removed. *)
Theorem gc_enumeration_error_flags {E : Env} {T : Type} `{CasTable T} (cas : T)
    (nodes : list NodeEntry) :
  (∃ item, item ∈ (Enumerate cas).1 ∧ is_Some (Error item)) →
  Gc.main None cas nodes
  = (Some (Errorf "Failed enumerating the CAS table %s"), SetFsckBit (Enumerate cas).2).
Proof.
  intros (bad & Hin & Hbad). rewrite main_unfold.
  assert (∀ entries, ∃ err, Gc.tagEnumerated (Enumerate cas).1 entries = inl err)
    as Hfail.
  { induction (Enumerate cas).1 as [|item rest IH]; intros entries.
    - by apply elem_of_nil in Hin.
    - cbn. destruct (Error item) as [err|] eqn:Herr; [eauto|].
      apply elem_of_cons in Hin as [->|Hin].
      + rewrite Herr in Hbad. by destruct Hbad.
      + by apply IH. }
  by destruct (Hfail ∅) as [err ->].
Qed.

Lemma gc_enumeration_error_flags_witness :
  let T := @casTable_CasTable exampleEnv exampleTable (λ _, false) in
  (∃ item, item ∈ (@Enumerate _ T emptyDisk).1 ∧ is_Some (Error item))
  ∧ @Gc.main exampleEnv _ T None emptyDisk []
    = (Some (Errorf "Failed enumerating the CAS table %s"), emptyDisk).
Proof.
  intros T.
  assert (Hbad : ∃ item, item ∈ (@Enumerate _ T emptyDisk).1 ∧ is_Some (Error item)).
  { exists {| Item := ""; Error := Some (Errorf "Failed reading ss") |}.
    split; [|cbn; eauto].
    assert ((@Enumerate _ T emptyDisk).1
            = [{| Item := ""; Error := Some (Errorf "Failed reading ss") |}]) as ->
      by (vm_compute; reflexivity).
    by left. }
  split; [exact Hbad|].
  rewrite (@gc_enumeration_error_flags exampleEnv _ T emptyDisk [] Hbad).
  f_equal.
Defined.

(** On the table kept in memory a run never fails in its sweep: when no
    node fails, the run returns nil and leaves exactly the entries that a
    node marked, with the data they had; the consistency bit is as
    before. *)
Theorem gc_mock_keeps_the_marked {E : Env} (m : Mock.mockCasTable)
    (nodes : list NodeEntry) :
  ¬ markFails m nodes →
  ∃ m', Gc.main None m nodes = (None, m')
        ∧ Mock.needFsck m' = Mock.needFsck m
        ∧ ∀ h, Mock.entries m' !! h
               = if decide (h ∈ markedBy m nodes) then Mock.entries m !! h else None.
Proof.
  intros Hok. rewrite main_unfold.
  change (Enumerate m).2 with m.
  destruct (tagEnumerated_ok (Enumerate m).1 ∅ (mock_Enumerate_no_error m))
    as [entries0 H0].
  destruct (tagNodes_ok m nodes Hok entries0) as [entries H1].
  rewrite H0, H1.
  pose proof (main_marked m nodes entries0 entries H0 H1) as Horph.
  change (Enumerate m).2 with m in Horph.
  destruct (mock_sweep (Gc.orphansOf entries) m (NoDup_orphansOf entries))
    as (m' & Hrun & Hbit & Hlook).
  { intros h Hh. apply mock_enumerated. by apply Horph. }
  exists m'. split; [done|]. split; [done|]. intros h. rewrite Hlook.
  destruct (decide (h ∈ markedBy m nodes)) as [Hm|Hm].
  - rewrite decide_False; [done|]. rewrite Horph. tauto.
  - destruct (decide (h ∈ Gc.orphansOf entries)) as [Ho|Ho]; [done|].
    destruct (Mock.entries m !! h) eqn:Hh; [|done].
    destruct Ho. apply Horph. split; [|done]. apply mock_enumerated. eauto.
Qed.

Lemma gc_mock_keeps_the_marked_witness :
  ¬ @markFails exampleEnv _ _ exampleMock exampleNodes
  ∧ ∃ m', @Gc.main exampleEnv _ _ None exampleMock exampleNodes = (None, m')
          ∧ Mock.needFsck m' = Mock.needFsck exampleMock
          ∧ ∀ h, Mock.entries m' !! h
                 = if decide (h ∈ @markedBy exampleEnv _ _ exampleMock exampleNodes)
                   then Mock.entries exampleMock !! h else None.
Proof.
  assert (Hok : ¬ @markFails exampleEnv _ _ exampleMock exampleNodes).
  { intros (item & Hin & Hbad). apply list_elem_of_singleton in Hin. subst item.
    destruct Hbad as [[err Herr]|[err Herr]]; [discriminate Herr|].
    vm_compute in Herr. discriminate Herr. }
  split; [exact Hok|].
  exact (@gc_mock_keeps_the_marked exampleEnv exampleMock exampleNodes Hok).
Defined.

(** ** The table on disk obeys the laws of a table *)

Lemma digest_slices_inj (h h' : string) :
  validDigest h = true → validDigest h' = true →
  sliceTo splitAt h = sliceTo splitAt h' → sliceFrom splitAt h = sliceFrom splitAt h' →
  h = h'.
Proof.
  intros Hh Hh' Hp Hr.
  rewrite <- (slices_join splitAt h), <- (slices_join splitAt h').
  - by rewrite Hp, Hr.
  - rewrite (MatchString_hex_length hashLength h' Hh'). unfold splitAt, hashLength. lia.
  - rewrite (MatchString_hex_length hashLength h Hh). unfold splitAt, hashLength. lia.
Qed.

Section DiskLaws.
Context {E : Env} {EOK : EnvOK E}.
Variables (cs : path) (c : Cas.casTable).
Hypothesis Hc : tableAt cs c.

(** Open looks at the disk only where the blob of the digest lives. *)
Lemma Open_same_blob (h : string) (d d' : disk) :
  (validDigest h = true →
   walk (root d') (blobSegs cs h) = walk (root d) (blobSegs cs h)) →
  Cas.Open c h d' = Cas.Open c h d.
Proof using Hc.
  intros Hsame. destruct (validDigest h) eqn:Hh.
  - rewrite !(Open_valid cs c Hc h _ Hh). unfold blobSegs in Hsame.
    by rewrite Hsame.
  - by rewrite !(Open_invalid cs c Hc h _ Hh).
Qed.

Lemma scanSteps_Open (fs' : node) (q : list (path * path * node)) (h : string)
    (d : disk) :
  rtc (scanStep cs (λ _, True) (λ _, True)) (root d) fs' →
  Cas.Open c h {| root := fs'; quarantine := q |} = Cas.Open c h d.
Proof using Hc EOK.
  intros Hsteps. apply Open_same_blob. intros Hh. cbn [root]. unfold blobSegs.
  destruct (MatchString_hex_slices splitAt (hashLength - splitAt) h Hh) as [H1 H2].
  by apply (scanSteps_blob cs (λ _, True) (λ _, True) _ _ _ _ [] Hsteps).
Qed.

Lemma Enumerate_keeps_Open (interrupted : nat → bool) (h : string) (d : disk) :
  namesOK cs (root d) →
  Cas.Open c h (Cas.Enumerate c interrupted d).2 = Cas.Open c h d.
Proof using Hc EOK.
  intros Hok. pose proof (Enumerate_steps cs c Hc interrupted d Hok) as Hsteps.
  destruct (Cas.Enumerate c interrupted d).2 as [fs' q]. by apply scanSteps_Open.
Qed.

Lemma NeedFsck_keeps_Open (h : string) (d : disk) :
  Cas.Open c h (Cas.NeedFsck c d) = Cas.Open c h d.
Proof using Hc EOK.
  pose proof (NeedFsck_steps cs c Hc (λ _, True) (λ _, True) d) as Hsteps.
  destruct (Cas.NeedFsck c d) as [fs' q]. by apply scanSteps_Open.
Qed.

Lemma namesOK_remove_item (p r : string) (fs : node) :
  p ≠ "" → namesOK cs fs → namesOK cs (fs_remove (cs ++ [p; r]) fs).
Proof.
  intros Hpne Hok l m' Hl Hw. destruct Hl as [-> | [y ->]].
  - destruct (walk_alter_ancestor_lookup _ cs p [r] fs m' "" (not_eq_sym Hpne) Hw)
      as (m & Hm & ->).
    by eapply (Hok cs); [left|].
  - destruct (decide (y = p)) as [->|Hyp].
    + rewrite cons_middle_snoc in Hw.
      destruct (walk fs (cs ++ [p])) as [e|[data|m]] eqn:Hsh.
      1,2: unfold fs_remove in Hw;
           rewrite fs_alter_no_parent in Hw by (intros m; by rewrite Hsh);
           rewrite Hsh in Hw; done.
      rewrite (walk_remove_parent fs (cs ++ [p]) r m Hsh) in Hw. injection Hw as <-.
      rewrite lookup_delete. destruct (decide (r = "")); [done|].
      eapply (Hok (cs ++ [p])); [right; by eexists | done].
    + unfold fs_remove in Hw. rewrite (walk_alter_diverge _ cs p y [r] []) in Hw by done.
      eapply (Hok (cs ++ [y])); [right; by eexists | done].
Qed.

Lemma ensureDir_namesOK (fs : node) :
  namesOK cs fs → namesOK cs (Trash.ensureDir fs ("" :: cs ++ [TrashName])).
Proof using EOK.
  intros Hok. destruct (ensureDir_cases fs cs TrashName) as [-> | [Hno ->]]; [done|].
  eapply scanStep_namesOK; [|done]. by apply (ss_trash cs (λ _, True) (λ _, True)).
Qed.

(** What Remove does to the tree, for a well-formed digest whose blob is
    there. *)
Lemma Remove_root (h : string) (d : disk) :
  root (Cas.Remove c h d).2 = root d
  ∨ validDigest h = true
    ∧ root (Cas.Remove c h d).2
      = fs_remove (blobSegs cs h) (Trash.ensureDir (root d) ("" :: cs ++ [TrashName])).
Proof using Hc EOK.
  destruct (validDigest h) eqn:Hh.
  - rewrite (Remove_valid cs c Hc h d Hh), (Move_spec cs c Hc) by done.
    fold (blobSegs cs h). destruct (walk (root d) (blobSegs cs h)); [by left|].
    right. done.
  - rewrite (Remove_invalid cs c Hc h d Hh). by left.
Qed.

Lemma Remove_namesOK (h : string) (d : disk) :
  namesOK cs (root d) → namesOK cs (root (Cas.Remove c h d).2).
Proof using Hc EOK.
  intros Hok. destruct (Remove_root h d) as [-> | [Hh ->]]; [done|].
  destruct (MatchString_hex_slices splitAt (hashLength - splitAt) h Hh) as [H1 H2].
  apply namesOK_remove_item; [apply (hex_nonempty 2), H1|].
  by apply ensureDir_namesOK.
Qed.

Lemma Remove_keeps_others (h h' : string) (d : disk) :
  h' ≠ h → Cas.Open c h' (Cas.Remove c h d).2 = Cas.Open c h' d.
Proof using Hc EOK.
  intros Hne. apply Open_same_blob. intros Hh'.
  destruct (Remove_root h d) as [-> | [Hh ->]]; [done|].
  destruct (MatchString_hex_slices splitAt (hashLength - splitAt) h' Hh') as [H1 _].
  assert (TrashName ≠ sliceTo splitAt h') as Htr.
  { intros Heq. rewrite <- Heq in H1.
    change (validPrefix TrashName = true) in H1.
    by rewrite TrashName_not_validPrefix in H1. }
  unfold blobSegs, fs_remove.
  destruct (decide (sliceTo splitAt h = sliceTo splitAt h')) as [Hp|Hp].
  - rewrite Hp, !cons_middle_snoc.
    rewrite <- (app_nil_r ((cs ++ [sliceTo splitAt h']) ++ [sliceFrom splitAt h])).
    rewrite <- (app_nil_r ((cs ++ [sliceTo splitAt h']) ++ [sliceFrom splitAt h'])).
    rewrite <- !(app_assoc (cs ++ [sliceTo splitAt h'])). cbn [app].
    rewrite walk_alter_diverge.
    + rewrite <- app_assoc. cbn [app]. by apply ensureDir_other.
    + intros Hr. apply Hne. symmetry. by apply digest_slices_inj.
  - rewrite (walk_alter_diverge _ cs _ _ [sliceFrom splitAt h]
               [sliceFrom splitAt h']) by done.
    by apply ensureDir_other.
Qed.

Lemma Remove_ok_gone (h : string) (d d' : disk) :
  Cas.Remove c h d = (None, d') →
  ∃ err, Cas.Open c h d' = inl err ∧ os_IsNotExist err = true.
Proof using Hc EOK.
  intros Hrm. destruct (validDigest h) eqn:Hh.
  2: { by rewrite (Remove_invalid cs c Hc h d Hh) in Hrm. }
  destruct (walk (root d) (blobSegs cs h)) as [e|n] eqn:Hw.
  - destruct (Remove_absent cs c Hc h d e Hh Hw) as [err Herr]. congruence.
  - destruct (Remove_present cs c Hc h d n Hh Hw) as (d2 & Hrm2 & Hgone & _).
    assert (d' = d2) as -> by congruence.
    rewrite (Open_valid cs c Hc h d2 Hh). unfold blobSegs in Hgone. rewrite Hgone.
    eauto.
Qed.

Lemma Remove_failed_same (h : string) (d d' : disk) (err : error) :
  Cas.Remove c h d = (Some err, d') → d' = d.
Proof using Hc EOK.
  intros Hrm. destruct (validDigest h) eqn:Hh.
  2: { rewrite (Remove_invalid cs c Hc h d Hh) in Hrm. congruence. }
  destruct (walk (root d) (blobSegs cs h)) as [e|n] eqn:Hw.
  - destruct (Remove_absent cs c Hc h d e Hh Hw) as [err' Herr]. congruence.
  - destruct (Remove_present cs c Hc h d n Hh Hw) as (d2 & Hrm2 & _). congruence.
Qed.

Lemma casTable_laws (interrupted : nat → bool) :
  @CasTableLaws disk (casTable_CasTable c interrupted) (λ d, namesOK cs (root d)).
Proof using Hc EOK.
  split; cbn.
  - intros d Hok. eapply scanSteps_namesOK; [|done]. by apply (Enumerate_steps cs c Hc).
  - intros d h Hok. by apply Enumerate_keeps_Open.
  - intros d h Hok. by apply Remove_namesOK.
  - intros d d' h _ Hrm. destruct (Remove_ok_gone h d d' Hrm) as (err & Herr & _). eauto.
  - intros d h h' _ Hne. by apply Remove_keeps_others.
  - intros d d' h err _ Hrm. by rewrite (Remove_failed_same h d d' err Hrm).
  - intros d Hok. eapply scanSteps_namesOK; [|done].
    apply (NeedFsck_steps cs c Hc (λ _, True) (λ _, True)).
  - intros d h. apply NeedFsck_keeps_Open.
Qed.
End DiskLaws.

Lemma corruptDisk_namesOK : namesOK (casSegs exampleTable) (root corruptDisk).
Proof.
  eapply namesOKb_correct; [reflexivity | vm_compute; reflexivity].
Qed.

(** On a table made by MakeCasTable, neither a scan (interrupted or not,
    whatever it quarantines) nor the marking for fsck changes what Open
    answers for any digest; Remove changes it for no digest but the one
    it is given, and a Remove that fails leaves the disk as it was. *)
Theorem scans_and_removals_keep_blobs {E : Env} {EOK : EnvOK E} (c : Cas.casTable)
    (interrupted : nat → bool) (d : disk) :
  made c → namesOK (casSegs c) (root d) →
  (∀ h, Cas.Open c h (Cas.Enumerate c interrupted d).2 = Cas.Open c h d)
  ∧ (∀ h, Cas.Open c h (Cas.NeedFsck c d) = Cas.Open c h d)
  ∧ (∀ h h', h' ≠ h → Cas.Open c h' (Cas.Remove c h d).2 = Cas.Open c h' d)
  ∧ (∀ h err d', Cas.Remove c h d = (Some err, d') → d' = d).
Proof.
  intros Hc%made_casSegs Hok. split; [|split; [|split]].
  - intros h. by apply (Enumerate_keeps_Open (casSegs c)).
  - intros h. by apply (NeedFsck_keeps_Open (casSegs c)).
  - intros h h' Hne. by apply (Remove_keeps_others (casSegs c)).
  - intros h err d' Hrm. by apply (Remove_failed_same (casSegs c) c Hc h d d' err).
Qed.

Lemma scans_and_removals_keep_blobs_witness :
  @made exampleEnv exampleTable ∧ namesOK (casSegs exampleTable) (root corruptDisk)
  ∧ (∀ h, Cas.Open exampleTable h
            (@Cas.Enumerate exampleEnv exampleTable (λ _, false) corruptDisk).2
          = Cas.Open exampleTable h corruptDisk)
  ∧ (∀ h, Cas.Open exampleTable h (Cas.NeedFsck exampleTable corruptDisk)
          = Cas.Open exampleTable h corruptDisk)
  ∧ (∀ h h', h' ≠ h →
       Cas.Open exampleTable h' (Cas.Remove exampleTable h corruptDisk).2
       = Cas.Open exampleTable h' corruptDisk)
  ∧ (∀ h err d', Cas.Remove exampleTable h corruptDisk = (Some err, d') →
                 d' = corruptDisk).
Proof.
  split; [exact exampleTable_made|]. split; [exact corruptDisk_namesOK|].
  exact (@scans_and_removals_keep_blobs exampleEnv exampleEnv_ok exampleTable
           (λ _, false) corruptDisk exampleTable_made corruptDisk_namesOK).
Defined.

(** The collector over the table on disk (its SetFsckBit being NeedFsck):
    whatever the first pass quarantines and whether or not it is
    interrupted, a run changes what Open answers only for digests that
    the pass enumerated and no node marked, and a run that returns nil
    has removed every one of them. *)
Theorem gc_on_disk_sweeps_only_unmarked {E : Env} {EOK : EnvOK E} (c : Cas.casTable)
    (interrupted : nat → bool) (d : disk) (nodes : list NodeEntry) :
  made c → namesOK (casSegs c) (root d) →
  let table := casTable_CasTable c interrupted in
  let run := @Gc.main E disk table None d nodes in
  let swept h :=
    h ∈ @enumerated disk table d
    ∧ h ∉ @markedBy E disk table (Cas.Enumerate c interrupted d).2 nodes in
  (∀ h, ¬ swept h → Cas.Open c h run.2 = Cas.Open c h d)
  ∧ (run.1 = None → ∀ h, swept h → ∃ err, Cas.Open c h run.2 = inl err).
Proof.
  intros Hc%made_casSegs Hok table run swept.
  destruct (@main_spec E disk table (λ d, namesOK (casSegs c) (root d))
              (casTable_laws (casSegs c) c Hc interrupted) d nodes Hok)
    as (Hkeep & Hgone & _).
  split; [exact Hkeep | exact Hgone].
Qed.

Lemma gc_on_disk_sweeps_only_unmarked_witness :
  let table := @casTable_CasTable exampleEnv exampleTable (λ _, false) in
  let run := @Gc.main exampleEnv disk table None corruptDisk [] in
  let swept h :=
    h ∈ @enumerated disk table corruptDisk
    ∧ h ∉ @markedBy exampleEnv disk table
            (@Cas.Enumerate exampleEnv exampleTable (λ _, false) corruptDisk).2 [] in
  @made exampleEnv exampleTable ∧ namesOK (casSegs exampleTable) (root corruptDisk)
  ∧ (∀ h, ¬ swept h → Cas.Open exampleTable h run.2 = Cas.Open exampleTable h corruptDisk)
  ∧ (run.1 = None → ∀ h, swept h → ∃ err, Cas.Open exampleTable h run.2 = inl err).
Proof.
  intros table run swept.
  split; [exact exampleTable_made|]. split; [exact corruptDisk_namesOK|].
  exact (@gc_on_disk_sweeps_only_unmarked exampleEnv exampleEnv_ok exampleTable
           (λ _, false) corruptDisk [] exampleTable_made corruptDisk_namesOK).
Defined.

(** ** Paths of digests, and what AddEntry touches *)

Lemma walk_alter_other_blob (f : option node → option node) (cs : path)
    (h h' : string) (fs : node) :
  validDigest h = true → validDigest h' = true → h' ≠ h →
  walk (fs_alter f (blobSegs cs h) fs) (blobSegs cs h') = walk fs (blobSegs cs h').
Proof.
  intros Hh Hh' Hne. unfold blobSegs.
  destruct (decide (sliceTo splitAt h = sliceTo splitAt h')) as [Hp|Hp].
  - rewrite Hp, !cons_middle_snoc.
    rewrite <- (app_nil_r ((cs ++ [sliceTo splitAt h']) ++ [sliceFrom splitAt h])).
    rewrite <- (app_nil_r ((cs ++ [sliceTo splitAt h']) ++ [sliceFrom splitAt h'])).
    rewrite <- !(app_assoc (cs ++ [sliceTo splitAt h'])). cbn [app].
    apply walk_alter_diverge.
    intros Hr. apply Hne. symmetry. by apply digest_slices_inj.
  - by apply (walk_alter_diverge _ cs _ _ [sliceFrom splitAt h]
                [sliceFrom splitAt h']).
Qed.

(** filePath answers the empty string exactly for the strings that are
    no digest; for a digest it answers the absolute path
    casDir/<first 3 characters>/<other 37>, and two digests never share a
    path. *)
Theorem filePath_of_digests {E : Env} (c : Cas.casTable) (h h' : string) :
  made c →
  (Cas.filePath c h = [] ↔ validDigest h = false)
  ∧ (validDigest h = true →
     Cas.filePath c h = Cas.casDir c ++ [sliceTo 3 h; sliceFrom 3 h]
     ∧ path_IsAbs (Cas.filePath c h) = true
     ∧ validPrefix (sliceTo 3 h) = true ∧ validRest (sliceFrom 3 h) = true)
  ∧ (validDigest h = true → validDigest h' = true →
     Cas.filePath c h = Cas.filePath c h' → h = h').
Proof.
  intros [cs Hc]%made_tableAt. split; [|split].
  - destruct (validDigest h) eqn:Hh.
    + rewrite (filePath_valid cs c Hc h Hh). done.
    + by rewrite (filePath_invalid cs c Hc h Hh).
  - intros Hh. rewrite (filePath_valid cs c Hc h Hh), (tableAt_casDir cs c Hc).
    destruct (MatchString_hex_slices splitAt (hashLength - splitAt) h Hh) as [H1 H2].
    done.
  - intros Hh Hh'.
    rewrite (filePath_valid cs c Hc h Hh), (filePath_valid cs c Hc h' Hh').
    intros [= Heq]. apply app_inv_head in Heq. injection Heq as Hp Hr.
    by apply digest_slices_inj.
Qed.

Lemma filePath_of_digests_witness :
  @made exampleEnv exampleTable
  ∧ (Cas.filePath exampleTable digest1 = [] ↔ validDigest digest1 = false)
  ∧ (validDigest digest1 = true →
     Cas.filePath exampleTable digest1
     = Cas.casDir exampleTable ++ [sliceTo 3 digest1; sliceFrom 3 digest1]
     ∧ path_IsAbs (Cas.filePath exampleTable digest1) = true
     ∧ validPrefix (sliceTo 3 digest1) = true
     ∧ validRest (sliceFrom 3 digest1) = true)
  ∧ (validDigest digest1 = true → validDigest digest2 = true →
     Cas.filePath exampleTable digest1 = Cas.filePath exampleTable digest2 →
     digest1 = digest2).
Proof.
  split; [exact exampleTable_made|].
  exact (@filePath_of_digests exampleEnv exampleTable digest1 digest2
           exampleTable_made).
Defined.

(** AddEntry touches nothing but the place of its digest, and that only
    when nothing is there: the quarantine is as before, every other
    digest answers Open as before, and either the disk is unchanged or
    the digest was missing and now holds what the source delivered, the
    result being the error the source ended with.  When the digest can
    be opened beforehand, AddEntry fails with an error that os.IsExist
    recognises and leaves the disk as it is, whatever the source holds. *)
Theorem AddEntry_footprint {E : Env} (c : Cas.casTable) (source : Reader)
    (h : string) (d : disk) :
  made c →
  let res := Cas.AddEntry c source h d in
  quarantine res.2 = quarantine d
  ∧ (∀ h', h' ≠ h → Cas.Open c h' res.2 = Cas.Open c h' d)
  ∧ (res.2 = d
     ∨ validDigest h = true
       ∧ (∃ err, Cas.Open c h d = inl err ∧ os_IsNotExist err = true)
       ∧ Cas.Open c h res.2 = inr (OsFile (File (rd_data source)))
       ∧ res.1 = rd_err source)
  ∧ (∀ f, Cas.Open c h d = inr f →
          res.2 = d ∧ ∃ err, res.1 = Some err ∧ os_IsExist err = true).
Proof.
  intros [cs Hc]%made_tableAt res. subst res.
  destruct (validDigest h) eqn:Hh.
  2: { rewrite (AddEntry_invalid cs c Hc source h d Hh). cbn [fst snd].
       split; [done|]. split; [done|]. split; [by left|].
       intros f Hf. by rewrite (Open_invalid cs c Hc h d Hh) in Hf. }
  rewrite (AddEntry_valid cs c Hc source h d Hh).
  pose proof (Open_valid cs c Hc h d Hh) as Hopen. fold (blobSegs cs h) in Hopen.
  destruct (walk (root d) (blobSegs cs h)) as [e|n] eqn:Hw.
  - assert (∀ f, Cas.Open c h d = inr f → False) as Hno.
    { intros f Hf. by rewrite Hopen in Hf. }
    destruct e; try (cbn [fst snd]; split; [done|]; split; [done|];
                     split; [by left|]; intros f Hf; by destruct (Hno f)).
    destruct (walk (root d) (cs ++ [sliceTo splitAt h])) as [e'|[data|m]] eqn:Hsh;
      try (cbn [fst snd]; split; [done|]; split; [done|];
           split; [by left|]; intros f Hf; by destruct (Hno f)).
    cbn [fst snd]. split; [done|]. split; [|split].
    + intros h' Hne. apply (Open_same_blob cs c Hc). intros Hh'. cbn [root].
      unfold fs_put. by rewrite !walk_alter_other_blob.
    + right. split; [done|]. split; [rewrite Hopen; eauto|]. split; [|done].
      rewrite (Open_valid cs c Hc h _ Hh). cbn [root]. fold (blobSegs cs h).
      unfold blobSegs. rewrite !cons_middle_snoc.
      erewrite walk_put_same; [done|]. by eapply walk_put_parent.
    + intros f Hf. by destruct (Hno f).
  - cbn [fst snd]. split; [done|]. split; [done|]. split; [by left|].
    intros f _. split; [done|]. eauto.
Qed.

Lemma AddEntry_footprint_witness :
  let res := Cas.AddEntry exampleTable
               (NewBuffer (list_byte_of_string "content1")) digest1 exampleDisk in
  @made exampleEnv exampleTable
  ∧ quarantine res.2 = quarantine exampleDisk
  ∧ (∀ h', h' ≠ digest1 →
           Cas.Open exampleTable h' res.2 = Cas.Open exampleTable h' exampleDisk)
  ∧ (res.2 = exampleDisk
     ∨ validDigest digest1 = true
       ∧ (∃ err, Cas.Open exampleTable digest1 exampleDisk = inl err
                 ∧ os_IsNotExist err = true)
       ∧ Cas.Open exampleTable digest1 res.2
         = inr (OsFile (File (list_byte_of_string "content1")))
       ∧ res.1 = None)
  ∧ (∀ f, Cas.Open exampleTable digest1 exampleDisk = inr f →
          res.2 = exampleDisk ∧ ∃ err, res.1 = Some err ∧ os_IsExist err = true).
Proof.
  intros res. split; [exact exampleTable_made|].
  exact (@AddEntry_footprint exampleEnv exampleTable
           (NewBuffer (list_byte_of_string "content1")) digest1 exampleDisk
           exampleTable_made).
Defined.

(** AddEntry creates no directory: for a string that is no digest, and
    for a digest whose shard is not a directory of the store, it fails
    with "Failed to copy(dst) %s: %s" and leaves the disk as it is. *)
Theorem AddEntry_fails_without_shard {E : Env} (c : Cas.casTable) (source : Reader)
    (h : string) (d : disk) :
  made c →
  validDigest h = false
  ∨ (∀ m, walk (root d) (casSegs c ++ [sliceTo 3 h]) ≠ inr (Dir m)) →
  Cas.AddEntry c source h d = (Some (Errorf "Failed to copy(dst) %s: %s"), d).
Proof.
  intros Hc%made_casSegs Hbad. destruct (validDigest h) eqn:Hh.
  2: { by apply (AddEntry_invalid (casSegs c)). }
  destruct Hbad as [Hbad|Hshard]; [done|].
  rewrite (AddEntry_valid (casSegs c) c Hc source h d Hh).
  destruct (walk (root d) (blobSegs (casSegs c) h)) as [e|n] eqn:Hw.
  - destruct e; try done.
    destruct (walk (root d) (casSegs c ++ [sliceTo splitAt h])) as [|[|m]] eqn:Hsh;
      try done.
    by destruct (Hshard m).
  - unfold blobSegs in Hw. rewrite cons_middle_snoc in Hw.
    destruct (walk_prefix_dir (root d) n (casSegs c ++ [sliceTo splitAt h])
                [sliceFrom splitAt h]) as [m Hm]; [done | done |].
    by destruct (Hshard m).
Qed.

Lemma AddEntry_fails_without_shard_witness :
  @made exampleEnv exampleTable
  ∧ (validDigest digest1 = false
     ∨ ∀ m, walk (root emptyDisk) (casSegs exampleTable ++ [sliceTo 3 digest1])
            ≠ inr (Dir m))
  ∧ Cas.AddEntry exampleTable (NewBuffer []) digest1 emptyDisk
    = (Some (Errorf "Failed to copy(dst) %s: %s"), emptyDisk).
Proof.
  assert (validDigest digest1 = false
          ∨ ∀ m, walk (root emptyDisk) (casSegs exampleTable ++ [sliceTo 3 digest1])
                 ≠ inr (Dir m)) as Hbad.
  { right. intros m Hm. vm_compute in Hm. discriminate Hm. }
  split; [exact exampleTable_made|]. split; [exact Hbad|].
  exact (@AddEntry_fails_without_shard exampleEnv exampleTable (NewBuffer [])
           digest1 emptyDisk exampleTable_made Hbad).
Defined.

(** ** The marker, and what a scan delivers *)

(** NeedFsck sets the marker exactly when it can: on a store whose cas
    directory is a directory, WarnIfFsckIsNeeded answers true afterwards;
    when the cas directory is missing or is a file, NeedFsck changes
    nothing and the marker stays unset, without any error; a marker that
    is set is never cleared; and the quarantine is as before. *)
Theorem NeedFsck_marks_when_it_can {E : Env} (c : Cas.casTable) (d : disk) :
  made c →
  (∀ top, walk (root d) (casSegs c) = inr (Dir top) →
          Cas.WarnIfFsckIsNeeded c (Cas.NeedFsck c d) = true)
  ∧ ((∀ top, walk (root d) (casSegs c) ≠ inr (Dir top)) →
     Cas.NeedFsck c d = d ∧ Cas.WarnIfFsckIsNeeded c d = false)
  ∧ (Cas.WarnIfFsckIsNeeded c d = true →
     Cas.WarnIfFsckIsNeeded c (Cas.NeedFsck c d) = true)
  ∧ quarantine (Cas.NeedFsck c d) = quarantine d.
Proof.
  intros Hc%made_casSegs. set (cs := casSegs c) in *.
  split; [|split; [|split; [|done]]].
  - intros top Htop. by apply (NeedFsck_flagged cs c Hc d top).
  - intros Hno.
    assert (∃ e, walk (root d) (cs ++ [needFsckName]) = inl e) as [e He].
    { rewrite walk_app. destruct (walk (root d) cs) as [e|[data|top]]; cbn; eauto.
      by destruct (Hno top). }
    split.
    + unfold Cas.NeedFsck. rewrite (markerPath cs c Hc). unfold os_Create.
      rewrite stat_rooted, He, os_OpenFile_excl_spec, He.
      destruct d as [fs q]. cbn [root quarantine] in *.
      destruct e; try done.
      destruct (walk fs cs) as [e'|[data|top]]; try done. by destruct (Hno top).
    + by rewrite (WarnIfFsckIsNeeded_spec cs c Hc), He.
  - rewrite (WarnIfFsckIsNeeded_spec cs c Hc).
    destruct (walk (root d) (cs ++ [needFsckName])) as [e|n] eqn:Hw; [done|]. intros _.
    destruct (walk_prefix_dir (root d) n cs [needFsckName]) as [top Htop]; [done..|].
    by apply (NeedFsck_flagged cs c Hc d top).
Qed.

Lemma NeedFsck_marks_when_it_can_witness :
  @made exampleEnv exampleTable
  ∧ (∀ top, walk (root emptyDisk) (casSegs exampleTable) = inr (Dir top) →
            Cas.WarnIfFsckIsNeeded exampleTable (Cas.NeedFsck exampleTable emptyDisk)
            = true)
  ∧ ((∀ top, walk (root emptyDisk) (casSegs exampleTable) ≠ inr (Dir top)) →
     Cas.NeedFsck exampleTable emptyDisk = emptyDisk
     ∧ Cas.WarnIfFsckIsNeeded exampleTable emptyDisk = false)
  ∧ (Cas.WarnIfFsckIsNeeded exampleTable emptyDisk = true →
     Cas.WarnIfFsckIsNeeded exampleTable (Cas.NeedFsck exampleTable emptyDisk) = true)
  ∧ quarantine (Cas.NeedFsck exampleTable emptyDisk) = quarantine emptyDisk.
Proof.
  split; [exact exampleTable_made|].
  exact (@NeedFsck_marks_when_it_can exampleEnv exampleTable emptyDisk
           exampleTable_made).
Defined.

Lemma scanPrefixes_prefix `{Env} (c : Cas.casTable) (re1 re2 : Regexp)
    (interrupted : nat → bool) (prefixes : list string) : ∀ i j d,
  (Cas.scanPrefixes c re1 re2 interrupted i prefixes d).1
  `prefix_of` (Cas.scanPrefixes c re1 re2 (λ _, false) j prefixes d).1.
Proof.
  induction prefixes as [|x rest IH]; intros i j d; cbn [Cas.scanPrefixes].
  - done.
  - destruct (interrupted i); [apply prefix_nil|].
    destruct (Cas.scanPrefix c re1 re2 x d) as [out1 d1].
    specialize (IH (S i) (S j) d1).
    destruct (Cas.scanPrefixes c re1 re2 interrupted (S i) rest d1) as [out2 d2].
    destruct (Cas.scanPrefixes c re1 re2 (λ _, false) (S j) rest d1) as [out3 d3].
    cbn [fst] in *. by apply prefix_app.
Qed.

Lemma Enumerate_prefix `{Env} (c : Cas.casTable) (interrupted : nat → bool)
    (d : disk) :
  (Cas.Enumerate c interrupted d).1 `prefix_of` (Cas.Enumerate c (λ _, false) d).1.
Proof.
  unfold Cas.Enumerate.
  destruct (readDirNames (root d) (Cas.casDir c)) as [prefixes [err|]]; [done|].
  apply scanPrefixes_prefix.
Qed.

(** An Enumerate that is interrupted delivers a prefix of what the
    uninterrupted Enumerate of the same disk delivers: it stops early,
    and never delivers anything else or in another order.  Interrupted
    before the first name of a cas directory that can be listed, it
    delivers nothing and leaves the disk as it is, whatever the store
    holds. *)
Theorem Enumerate_interrupted_delivers_prefix {E : Env} (c : Cas.casTable)
    (interrupted : nat → bool) (d : disk) :
  ∃ missed,
    (Cas.Enumerate c (λ _, false) d).1 = (Cas.Enumerate c interrupted d).1 ++ missed
    ∧ (interrupted 0 = true →
       (∃ names, readDirNames (root d) (Cas.casDir c) = (names, None)) →
       Cas.Enumerate c interrupted d = ([], d)).
Proof.
  destruct (Enumerate_prefix c interrupted d) as [missed Hmissed].
  exists missed. split; [done|]. intros Hint [names Hnames].
  unfold Cas.Enumerate. rewrite Hnames. destruct names as [|x rest]; [done|].
  cbn [Cas.scanPrefixes]. by rewrite Hint.
Qed.

(** Whatever an Enumerate delivers without error, interrupted or not, is
    a digest whose blob was in the store before the scan and is still
    there after it: Open succeeds on it with the same file. *)
Theorem Enumerate_items_can_be_opened {E : Env} {EOK : EnvOK E} (c : Cas.casTable)
    (interrupted : nat → bool) (d : disk) (e : CasEntry) :
  made c → namesOK (casSegs c) (root d) →
  e ∈ (Cas.Enumerate c interrupted d).1 → Error e = None →
  validDigest (Item e) = true
  ∧ ∃ f, Cas.Open c (Item e) d = inr (OsFile f)
         ∧ Cas.Open c (Item e) (Cas.Enumerate c interrupted d).2 = inr (OsFile f).
Proof.
  intros Hc%made_casSegs Hok Hin Herr. set (cs := casSegs c) in *.
  destruct (walk (root d) cs) as [err|[data|top]] eqn:Htop.
  1,2: rewrite (Enumerate_unreadable cs c Hc) in Hin by (intros top; by rewrite Htop);
       apply list_elem_of_singleton in Hin; by subst e.
  assert (e ∈ itemsOfStore top) as Hstore.
  { rewrite <- (Enumerate_items cs c Hc (λ _, false) d top); [|done..].
    destruct (Enumerate_prefix c interrupted d) as [missed ->].
    apply elem_of_app. by left. }
  destruct (elem_of_itemsOfStore top e Hstore Herr)
    as (p & m & r & -> & _ & Hp & Hr & Hpm & [n Hn]).
  cbn [Item].
  pose proof (MatchString_hex_length _ _ Hp) as Hlen.
  assert (validDigest (p +:+ r) = true) as Hh.
  { unfold validDigest. change hashLength with (splitAt + (hashLength - splitAt)).
    rewrite MatchString_hex_app by done.
    change (validPrefix p && validRest r = true). by rewrite Hp, Hr. }
  split; [done|]. exists n.
  assert (Cas.Open c (p +:+ r) d = inr (OsFile n)) as Hopen.
  { rewrite (Open_valid cs c Hc _ d Hh).
    rewrite <- Hlen at 1 2. rewrite sliceTo_app, sliceFrom_app.
    rewrite cons_middle_snoc, walk_app, (walk_snoc_dir _ _ _ top Htop), Hpm.
    cbn. by rewrite Hn. }
  split; [done|]. by rewrite (Enumerate_keeps_Open cs c Hc).
Qed.

Lemma Enumerate_items_can_be_opened_witness :
  let e := {| Item := digest1; Error := None |} in
  @made exampleEnv exampleTable ∧ namesOK (casSegs exampleTable) (root corruptDisk)
  ∧ e ∈ (@Cas.Enumerate exampleEnv exampleTable (λ _, false) corruptDisk).1
  ∧ Error e = None
  ∧ validDigest (Item e) = true
  ∧ ∃ f, Cas.Open exampleTable (Item e) corruptDisk = inr (OsFile f)
         ∧ Cas.Open exampleTable (Item e)
             (@Cas.Enumerate exampleEnv exampleTable (λ _, false) corruptDisk).2
           = inr (OsFile f).
Proof.
  intros e.
  assert (e ∈ (@Cas.Enumerate exampleEnv exampleTable (λ _, false) corruptDisk).1)
    as Hin.
  { apply list_elem_of_In. vm_compute. auto. }
  split; [exact exampleTable_made|]. split; [exact corruptDisk_namesOK|].
  split; [exact Hin|]. split; [reflexivity|].
  exact (@Enumerate_items_can_be_opened exampleEnv exampleEnv_ok exampleTable
           (λ _, false) corruptDisk e exampleTable_made corruptDisk_namesOK Hin
           eq_refl).
Defined.

(** ** Serving blobs *)

Lemma sliceFrom_1 (a : ascii) (rest : string) : sliceFrom 1 (String a rest) = rest.
Proof. apply (sliceFrom_app (String a "") rest). Qed.

Lemma validDigest_snoc_slash (h : string) : validDigest (h +:+ "/") = false.
Proof.
  unfold validDigest, MatchString. rewrite list_ascii_app, forallb_app. cbn.
  by rewrite !andb_false_r.
Qed.

Lemma ServeHTTP_slash {E : Env} (cs : path) (c : Cas.casTable) (rest : string) :
  tableAt cs c →
  Cas.ServeHTTP c (String "/" rest)
  = if validDigest rest then http_ServeFile (Cas.filePath c rest)
    else http_Error ("Invalid CAS url: " +:+ String "/" rest) StatusBadRequest.
Proof.
  intros Hc. unfold Cas.ServeHTTP. rewrite sliceFrom_1.
  rewrite bool_decide_eq_false_2 by done.
  rewrite bool_decide_eq_true_2 by done. cbn [negb orb].
  destruct (validDigest rest) eqn:Hh.
  - rewrite (filePath_valid cs c Hc rest Hh). by destruct (decide _).
  - rewrite (filePath_invalid cs c Hc rest Hh). by destruct (decide _).
Qed.

(** ServeHTTP hands a file to http.ServeFile only for a URL path of the
    form "/<digest>", and then the file is the one filePath names for
    the digest; "/<hash>/" is refused as a bad request, and a path that
    is empty or does not start with "/" as not implemented. *)
Theorem ServeHTTP_serves_only_digests {E : Env} (c : Cas.casTable)
    (urlPath : string) :
  made c →
  (∀ name, Cas.ServeHTTP c urlPath = http_ServeFile name
           ↔ ∃ h, urlPath = "/" +:+ h ∧ validDigest h = true
                  ∧ name = Cas.filePath c h)
  ∧ (∀ h, Cas.ServeHTTP c ("/" +:+ h +:+ "/")
          = http_Error ("Invalid CAS url: " +:+ "/" +:+ h +:+ "/") StatusBadRequest)
  ∧ (urlPath = "" ∨ (∃ a rest, urlPath = String a rest ∧ a ≠ "/"%char) →
     Cas.ServeHTTP c urlPath
     = http_Error ("Internal failure. CasTable received an invalid url: " +:+ urlPath)
                  StatusNotImplemented).
Proof.
  intros [cs Hc]%made_tableAt. split; [|split].
  - intros name. destruct urlPath as [|a rest].
    { split; [done|]. by intros (h & Hh & _). }
    destruct (decide (a = "/"%char)) as [->|Ha].
    + rewrite (ServeHTTP_slash cs c rest Hc). destruct (validDigest rest) eqn:Hh.
      * split.
        -- intros [= <-]. by exists rest.
        -- intros (h & Heq & _ & ->). change ("/" +:+ h) with (String "/" h) in Heq. by injection Heq as ->.
      * split; [done|]. intros (h & Heq & Hh' & _). change ("/" +:+ h) with (String "/" h) in Heq.
        injection Heq as ->. congruence.
    + unfold Cas.ServeHTTP. cbn [String.get].
      rewrite (bool_decide_eq_false_2 (Some a = Some "/"%char)) by congruence.
      rewrite orb_true_r. split; [done|]. intros (h & Heq & _). change ("/" +:+ h) with (String "/" h) in Heq.
      injection Heq as -> _. done.
  - intros h. change ("/" +:+ h +:+ "/") with (String "/" (h +:+ "/")).
    by rewrite (ServeHTTP_slash cs c _ Hc), validDigest_snoc_slash.
  - intros [->|(a & rest & -> & Ha)]; [done|].
    unfold Cas.ServeHTTP. cbn [String.get].
    rewrite (bool_decide_eq_false_2 (Some a = Some "/"%char)) by congruence.
    by rewrite orb_true_r.
Qed.

Lemma ServeHTTP_serves_only_digests_witness :
  let urlPath := "/" +:+ digest1 in
  @made exampleEnv exampleTable
  ∧ (∀ name, Cas.ServeHTTP exampleTable urlPath = http_ServeFile name
             ↔ ∃ h, urlPath = "/" +:+ h ∧ validDigest h = true
                    ∧ name = Cas.filePath exampleTable h)
  ∧ (∀ h, Cas.ServeHTTP exampleTable ("/" +:+ h +:+ "/")
          = http_Error ("Invalid CAS url: " +:+ "/" +:+ h +:+ "/") StatusBadRequest)
  ∧ (urlPath = "" ∨ (∃ a rest, urlPath = String a rest ∧ a ≠ "/"%char) →
     Cas.ServeHTTP exampleTable urlPath
     = http_Error ("Internal failure. CasTable received an invalid url: " +:+ urlPath)
                  StatusNotImplemented).
Proof.
  intros urlPath. split; [exact exampleTable_made|].
  exact (@ServeHTTP_serves_only_digests exampleEnv exampleTable urlPath
           exampleTable_made).
Defined.

(** ** A fresh store *)

Lemma hex_in (a : ascii) : isLowerHex a = true → a ∈ hexChars.
Proof.
  destruct a as [[] [] [] [] [] [] [] []]; intros Hx; try discriminate Hx;
    apply list_elem_of_In; vm_compute; tauto.
Qed.

Lemma shardNames_all : shardNames splitAt 0 4096 = allPrefixes.
Proof. vm_compute. reflexivity. Qed.

Lemma allPrefixes_valid : forallb validPrefix allPrefixes = true.
Proof. vm_compute. reflexivity. Qed.

Lemma validPrefix_allPrefixes (p : string) : validPrefix p = true ↔ p ∈ allPrefixes.
Proof.
  split.
  - intros Hp. destruct p as [|a [|b [|c [|x p]]]]; try discriminate Hp.
    cbn in Hp. apply andb_prop in Hp as [Ha [Hb [Hc _]%andb_prop]%andb_prop].
    unfold allPrefixes. apply list_elem_of_bind. exists a. split; [|by apply hex_in].
    apply list_elem_of_bind. exists b. split; [|by apply hex_in].
    apply list_elem_of_bind. exists c. split; [|by apply hex_in].
    by apply list_elem_of_singleton.
  - intros Hin. pose proof allPrefixes_valid as Hall.
    rewrite forallb_forall in Hall. by apply Hall, list_elem_of_In.
Qed.

Lemma shardNames_cons (n : nat) (i : N) (todo : nat) :
  shardNames n i (S todo) = Sprintf_0x n i :: shardNames n (i + 1) todo.
Proof.
  unfold shardNames. rewrite <- cons_seq, fmap_cons, <- fmap_S_seq, <- list_fmap_compose.
  f_equal; [by rewrite N.add_0_r|].
  apply list_fmap_ext. intros _ k _. cbn. f_equal. lia.
Qed.

Lemma hexDigitsRev_nonempty (fuel : nat) (n : N) : hexDigitsRev (S fuel) n ≠ [].
Proof. cbn [hexDigitsRev]. by destruct (n <? 16)%N. Qed.

Lemma Sprintf_0x_nonempty (width : nat) (i : N) : Sprintf_0x width i ≠ "".
Proof.
  unfold Sprintf_0x. intros Heq.
  pose proof (hexDigitsRev_nonempty (N.to_nat (N.log2 i)) i) as Hne.
  destruct (replicate _ _ ++ _) as [|a l] eqn:Hl; [|discriminate Heq].
  apply app_eq_nil in Hl as [_ Hrev].
  apply (f_equal (@rev ascii)) in Hrev. rewrite rev_involutive in Hrev. done.
Qed.

Lemma makePrefixes_S (casDir : path) (n todo : nat) (i : N) (fs : node) :
  Cas.makePrefixes casDir n (S todo) i fs
  = match os_Mkdir fs (path_Join [casDir; seg (Sprintf_0x n i)]) with
    | (Some err, fs') =>
        if negb (os_IsExist err) then (Some (Errorf "Failed to create %s: %s\n"), fs')
        else Cas.makePrefixes casDir n todo (i + 1)%N fs'
    | (None, fs') => Cas.makePrefixes casDir n todo (i + 1)%N fs'
    end.
Proof. reflexivity. Qed.

Section Fresh.
#[local] Arguments Cas.makePrefixes : simpl never.
#[local] Arguments prefixSpace : simpl never.
#[local] Arguments os_Mkdir : simpl never.
#[local] Arguments shardNames : simpl never.

(** The loop of MakeCasTable never fails once the cas directory is
    there: it adds the missing shards, empty, and keeps what exists. *)
Lemma makePrefixes_spec (cs : path) (n todo : nat) :
  ∀ (i : N) (fs : node) (top : gmap string node),
    walk fs cs = inr (Dir top) →
    ∃ fs' top',
      Cas.makePrefixes ("" :: cs) n todo i fs = (None, fs')
      ∧ walk fs' cs = inr (Dir top')
      ∧ (∀ p, top' !! p
              = if decide (p ∈ shardNames n i todo)
                then match top !! p with Some x => Some x | None => Some (Dir ∅) end
                else top !! p)
      ∧ (∀ l x q y q', cs = l ++ x :: q → x ≠ y →
                       walk fs' (l ++ y :: q') = walk fs (l ++ y :: q')).
Proof.
  induction todo as [|todo IH]; intros i fs top Htop.
  - exists fs, top. split; [done|]. split; [done|]. split; [|done].
    intros p. by rewrite decide_False by apply not_elem_of_nil.
  - rewrite makePrefixes_S, shardNames_cons.
    set (prefix := Sprintf_0x n i).
    rewrite (seg_nonempty prefix) by apply Sprintf_0x_nonempty.
    rewrite path_Join2 by done. rewrite <- app_comm_cons, os_Mkdir_spec.
    rewrite (walk_snoc_dir _ _ _ top Htop), Htop.
    destruct (top !! prefix) as [x|] eqn:Hx.
    + cbn [os_IsExist negb].
      destruct (IH (i + 1)%N fs top Htop) as (fs' & top' & Hrun & Htop' & Hlook & Hfr).
      exists fs', top'. split; [done|]. split; [done|]. split; [|done].
      intros p. rewrite Hlook.
      destruct (decide (p = prefix)) as [->|Hne].
      * rewrite (decide_True (P := prefix ∈ prefix :: _)) by (by left).
        rewrite Hx. by destruct (decide _).
      * destruct (decide (p ∈ shardNames n (i + 1) todo)) as [Hin|Hin].
        -- rewrite decide_True by (by right). done.
        -- rewrite decide_False; [done|]. rewrite elem_of_cons. tauto.
    + pose proof (walk_put_parent fs cs prefix (Dir ∅) top Htop) as Htop1.
      destruct (IH (i + 1)%N _ _ Htop1) as (fs' & top' & Hrun & Htop' & Hlook & Hfr).
      exists fs', top'. split; [done|]. split; [done|]. split.
      * intros p. rewrite Hlook.
        destruct (decide (p = prefix)) as [->|Hne].
        -- rewrite (decide_True (P := prefix ∈ prefix :: _)) by (by left).
           rewrite Hx, lookup_insert_eq. by destruct (decide _).
        -- rewrite lookup_insert_ne by done.
           destruct (decide (p ∈ shardNames n (i + 1) todo)) as [Hin|Hin].
           ++ rewrite decide_True by (by right). done.
           ++ rewrite decide_False; [done|]. rewrite elem_of_cons. tauto.
      * intros l x q y q' Hcs Hxy. rewrite (Hfr l x q y q' Hcs Hxy).
        unfold fs_put. rewrite Hcs, <- app_assoc. cbn [app].
        by apply walk_alter_diverge.
Qed.

Lemma prefixSpace_splitAt : Z.to_nat (prefixSpace (N.of_nat splitAt)) = 4096.
Proof. vm_compute. reflexivity. Qed.

Lemma flat_map_all_nil {A B} (f : A → list B) (l : list A) :
  (∀ x, f x = []) → flat_map f l = [].
Proof. intros Hf. induction l as [|x l IH]; [done|]. cbn. by rewrite Hf, IH. Qed.

(** What MakeCasTable leaves in a directory that has no "cas" entry. *)
Lemma MakeCasTable_fresh_spec {E : Env} (rs : path) (d : disk)
    (m : gmap string node) :
  path_Clean ("" :: rs) = "" :: rs →
  walk (root d) rs = inr (Dir m) → m !! casName = None →
  ∃ fs' top',
    Cas.MakeCasTable ("" :: rs) d
    = (inr {| Cas.rootDir := "" :: rs; Cas.casDir := "" :: rs ++ [casName];
              Cas.prefixLength := splitAt; Cas.validPath := HexExactly hashLength;
              Cas.trash := Trash.MakeTrash ("" :: rs ++ [casName]) |},
       {| root := fs'; quarantine := quarantine d |})
    ∧ walk fs' (rs ++ [casName]) = inr (Dir top')
    ∧ (∀ p, top' !! p = if validPrefix p then Some (Dir ∅) else None)
    ∧ (∀ y q, y ≠ casName → walk fs' (rs ++ y :: q) = walk (root d) (rs ++ y :: q)).
Proof.
  intros Hclean Hm Hcas. unfold Cas.MakeCasTable. cbn [path_IsAbs negb].
  rewrite Hclean.
  assert (path_Join ["" :: rs; seg casName] = "" :: rs ++ [casName]) as -> by done.
  rewrite os_Mkdir_spec, (walk_snoc_dir _ _ _ m Hm), Hcas, Hm.
  rewrite prefixSpace_splitAt.
  pose proof (walk_put_same (root d) rs casName (Dir ∅) m Hm) as Htop1.
  destruct (makePrefixes_spec (rs ++ [casName]) splitAt 4096 0 _ ∅ Htop1)
    as (fs' & top' & Hrun & Htop' & Hlook & Hfr).
  rewrite Hrun. exists fs', top'. split; [done|]. split; [done|]. split.
  - intros p. rewrite Hlook, shardNames_all, lookup_empty.
    destruct (validPrefix p) eqn:Hp.
    + rewrite decide_True by (by apply validPrefix_allPrefixes). done.
    + rewrite decide_False; [done|]. rewrite <- validPrefix_allPrefixes. congruence.
  - intros y q Hy. rewrite (Hfr rs casName [] y q) by done.
    unfold fs_put. by apply walk_alter_diverge.
Qed.
End Fresh.

(** A store that holds its shards, all empty, and nothing else. *)
Lemma empty_store_facts {E : Env} {EOK : EnvOK E} (cs : path) (c : Cas.casTable)
    (d' : disk) (top' : gmap string node) :
  tableAt cs c → walk (root d') cs = inr (Dir top') →
  (∀ p, top' !! p = if validPrefix p then Some (Dir ∅) else None) →
  Cas.WarnIfFsckIsNeeded c d' = false
  ∧ ∀ interrupted, Cas.Enumerate c interrupted d' = ([], d').
Proof.
  intros Hc Htop' Hlook. split.
  - rewrite (WarnIfFsckIsNeeded_spec cs c Hc).
    by rewrite (walk_snoc_dir _ _ _ top' Htop'), Hlook.
  - intros interrupted.
    assert (cleanStore top') as Hclean'.
    { intros x n Hx _. rewrite Hlook in Hx. destruct (validPrefix x); [|done].
      injection Hx as <-. split; [done|]. exists ∅. split; [done|].
      intros r [n Hn]. by rewrite lookup_empty in Hn. }
    assert (namesOK cs (root d')) as Hok.
    { intros l m' [-> | [p ->]] Hw.
      - rewrite Htop' in Hw. injection Hw as <-. by rewrite Hlook.
      - rewrite (walk_snoc_dir _ _ _ top' Htop'), Hlook in Hw.
        destruct (validPrefix p); [|done]. by injection Hw as <-. }
    assert ((Cas.Enumerate c (λ _, false) d').1 = []) as Hnone.
    { rewrite (Enumerate_items cs c Hc (λ _, false) d' top'); [|done..].
      apply flat_map_all_nil. intros p. unfold itemsOfName.
      destruct (decide _); [done|]. rewrite Hlook. by destruct (validPrefix p). }
    destruct (Enumerate_prefix c interrupted d') as [missed Hmissed].
    rewrite Hnone in Hmissed. symmetry in Hmissed.
    apply app_eq_nil in Hmissed as [Hitems _].
    pose proof (Enumerate_clean cs c Hc interrupted d' top' Htop' Hclean') as Hsame.
    destruct (Cas.Enumerate c interrupted d') as [items d2]. cbn [fst snd] in *.
    by subst.
Qed.

(** In a directory without a "cas" entry, MakeCasTable creates the cas
    directory with its 4096 shards, all of them empty, and nothing else:
    every name of three hex digits is an empty directory of the cas
    directory and no other name exists in it; what lies beside the cas
    directory is as before; the marker is unset; and an Enumerate of the
    new store delivers nothing and changes nothing. *)
Theorem MakeCasTable_creates_empty_store {E : Env} {EOK : EnvOK E} (rs : path)
    (d : disk) (m : gmap string node) :
  path_Clean ("" :: rs) = "" :: rs →
  walk (root d) rs = inr (Dir m) → m !! casName = None →
  ∃ c d',
    Cas.MakeCasTable ("" :: rs) d = (inr c, d')
    ∧ Cas.casDir c = "" :: rs ++ [casName]
    ∧ (∀ p, walk (root d') (rs ++ [casName; p])
            = if validPrefix p then inr (Dir ∅) else inl ENOENT)
    ∧ (∀ y q, y ≠ casName → walk (root d') (rs ++ y :: q) = walk (root d) (rs ++ y :: q))
    ∧ quarantine d' = quarantine d
    ∧ (∀ p, p ≠ "" → isDir (root d') (path_Join [Cas.casDir c; seg p]) = validPrefix p)
    ∧ Cas.WarnIfFsckIsNeeded c d' = false
    ∧ ∀ interrupted, Cas.Enumerate c interrupted d' = ([], d').
Proof.
  intros Hclean Hm Hcas.
  destruct (MakeCasTable_fresh_spec rs d m Hclean Hm Hcas)
    as (fs' & top' & Hmk & Htop' & Hlook & Hfr).
  eexists _, _. split; [exact Hmk|]. cbn [Cas.casDir root quarantine].
  set (c := {| Cas.rootDir := "" :: rs |}). set (cs := rs ++ [casName]) in *.
  assert (tableAt cs c) as Hc by done.
  destruct (empty_store_facts cs c {| root := fs'; quarantine := quarantine d |} top'
              Hc Htop' Hlook) as [Hwarn Henum].
  split; [done|]. split; [|split; [done|split; [done|split; [|done]]]].
  - intros p. rewrite cons_middle_snoc. fold cs.
    rewrite (walk_snoc_dir _ _ _ top' Htop'), Hlook. by destruct (validPrefix p).
  - intros p Hp. rewrite (seg_nonempty p Hp), path_Join2 by done.
    unfold isDir. rewrite <- app_comm_cons, stat_rooted.
    rewrite (walk_snoc_dir _ _ _ top' Htop'), Hlook. by destruct (validPrefix p).
Qed.

Lemma MakeCasTable_creates_empty_store_witness :
  path_Clean [""; "r"] = [""; "r"]
  ∧ walk (root freshDisk) ["r"] = inr (Dir ∅)
  ∧ (∅ : gmap string node) !! casName = None
  ∧ ∃ c d',
      @Cas.MakeCasTable exampleEnv [""; "r"] freshDisk = (inr c, d')
      ∧ Cas.casDir c = "" :: ["r"] ++ [casName]
      ∧ (∀ p, walk (root d') (["r"] ++ [casName; p])
              = if validPrefix p then inr (Dir ∅) else inl ENOENT)
      ∧ (∀ y q, y ≠ casName →
                walk (root d') (["r"] ++ y :: q) = walk (root freshDisk) (["r"] ++ y :: q))
      ∧ quarantine d' = quarantine freshDisk
      ∧ (∀ p, p ≠ "" →
              isDir (root d') (path_Join [Cas.casDir c; seg p]) = validPrefix p)
      ∧ Cas.WarnIfFsckIsNeeded c d' = false
      ∧ ∀ interrupted, @Cas.Enumerate exampleEnv c interrupted d' = ([], d').
Proof.
  split; [reflexivity|]. split; [reflexivity|]. split; [reflexivity|].
  exact (@MakeCasTable_creates_empty_store exampleEnv exampleEnv_ok ["r"] freshDisk ∅
           eq_refl eq_refl eq_refl).
Defined.

(** ** prefixSpace *)



(** ** Digests *)

Lemma hexDigit_lower (d : Z) : (0 ≤ d < 16)%Z → isLowerHex (SHA1.hexDigit d) = true.
Proof.
  intros Hd.
  assert (d ∈ Z.of_nat <$> seq 0 16) as Hin.
  { apply list_elem_of_fmap. exists (Z.to_nat d). split; [lia|].
    apply elem_of_seq. lia. }
  cbn in Hin.
  repeat (apply elem_of_cons in Hin as [->|Hin]);
    [.. | by apply elem_of_nil in Hin]; reflexivity.
Qed.

Lemma hexFixed_length (k : nat) (n : Z) : length (SHA1.hexFixed k n) = k.
Proof.
  revert n. induction k as [|k IH]; intros n; [done|].
  cbn [SHA1.hexFixed]. rewrite length_app, IH. cbn. lia.
Qed.

Lemma hexFixed_lower (k : nat) (n : Z) :
  forallb isLowerHex (SHA1.hexFixed k n) = true.
Proof.
  revert n. induction k as [|k IH]; intros n; [done|].
  cbn [SHA1.hexFixed]. rewrite forallb_app, IH. cbn [forallb andb].
  rewrite hexDigit_lower; [done|]. apply Z.mod_pos_bound. lia.
Qed.

Lemma length_string_of_list_ascii (l : list ascii) :
  String.length (string_of_list_ascii l) = length l.
Proof. induction l as [|a l IH]; [done|]. cbn. by rewrite IH. Qed.

Lemma hex_valid (h : Z * Z * Z * Z * Z) : validDigest (SHA1.hex h) = true.
Proof.
  destruct h as [[[[h0 h1] h2] h3] h4]. unfold validDigest, MatchString, SHA1.hex.
  rewrite length_string_of_list_ascii, list_ascii_of_string_of_list_ascii.
  rewrite !length_app, !hexFixed_length, !forallb_app, !hexFixed_lower. done.
Qed.

(** The three ways of hashing agree, and what they return is always a
    digest the table accepts: 40 lower-case hex characters.  So AddBytes
    never hands AddEntry a hash that filePath refuses. *)
Theorem sha1_functions_give_digests {E : Env} (c : Cas.casTable)
    (content : list byte) (text : string) (f : Reader) :
  made c →
  validDigest (sha1Bytes content) = true
  ∧ Cas.filePath c (sha1Bytes content) ≠ []
  ∧ sha1String text = sha1Bytes (list_byte_of_string text)
  ∧ (rd_err f = None → sha1File f = (sha1Bytes (rd_data f), None))
  ∧ (∀ err, rd_err f = Some err → sha1File f = ("", Some err)).
Proof.
  intros [cs Hc]%made_tableAt.
  assert (validDigest (sha1Bytes content) = true) as Hh by apply hex_valid.
  split; [done|]. split; [by rewrite (filePath_valid cs c Hc _ Hh)|].
  split; [done|]. unfold sha1File. split.
  - by intros ->.
  - by intros err ->.
Qed.

Lemma sha1_functions_give_digests_witness :
  let content := list_byte_of_string "content1" in
  let f := NewBuffer content in
  @made exampleEnv exampleTable
  ∧ validDigest (sha1Bytes content) = true
  ∧ Cas.filePath exampleTable (sha1Bytes content) ≠ []
  ∧ sha1String "content1" = sha1Bytes (list_byte_of_string "content1")
  ∧ (rd_err f = None → sha1File f = (sha1Bytes (rd_data f), None))
  ∧ (∀ err, rd_err f = Some err → sha1File f = ("", Some err)).
Proof.
  intros content f. split; [exact exampleTable_made|].
  exact (@sha1_functions_give_digests exampleEnv exampleTable content "content1" f
           exampleTable_made).
Defined.

(** What AddBytes stores can be verified: when AddBytes on the table on
    disk returns nil, the hash it returns is the SHA-1 of the data, the
    file that filePath names for it holds the data, and sha1FilePath of
    that file gives the hash back. *)
Theorem AddBytes_blob_hashes_to_its_name {E : Env} (c : Cas.casTable)
    (interrupted : nat → bool) (data : list byte) (d d1 : disk) (hash : string) :
  made c →
  @AddBytes disk (casTable_CasTable c interrupted) d data = (hash, None, d1) →
  hash = sha1Bytes data
  ∧ os_Open (root d1) (Cas.filePath c hash) = inr (File data)
  ∧ sha1FilePath (root d1) (Cas.filePath c hash) = (hash, None).
Proof.
  intros [cs Hc]%made_tableAt. unfold AddBytes. cbn [AddEntry casTable_CasTable].
  destruct (Cas.AddEntry c (NewBuffer data) (sha1Bytes data) d) as [err d'] eqn:Hadd.
  intros [= <- -> ->].
  pose proof (AddEntry_ok_created cs c Hc _ _ _ _ Hadd) as Hex.
  destruct (AddEntry_created cs c Hc (NewBuffer data) (sha1Bytes data) d Hex)
    as (Hh & _ & Hw).
  rewrite Hadd in Hw. cbn [snd rd_data NewBuffer] in Hw.
  split; [done|].
  assert (os_Open (root d1) (Cas.filePath c (sha1Bytes data)) = inr (File data))
    as Hopen.
  { rewrite (filePath_valid cs c Hc _ Hh). unfold os_Open. rewrite stat_rooted.
    unfold blobSegs in Hw. by rewrite Hw. }
  split; [done|]. unfold sha1FilePath. by rewrite Hopen.
Qed.

Lemma AddBytes_blob_hashes_to_its_name_witness :
  let table := @casTable_CasTable exampleEnv exampleTable (λ _, false) in
  let data := list_byte_of_string "content1" in
  ∃ d1, @made exampleEnv exampleTable
        ∧ @AddBytes disk table exampleDisk data = (digest1, None, d1)
        ∧ digest1 = sha1Bytes data
        ∧ os_Open (root d1) (Cas.filePath exampleTable digest1) = inr (File data)
        ∧ sha1FilePath (root d1) (Cas.filePath exampleTable digest1) = (digest1, None).
Proof.
  intros table data.
  exists (@AddBytes disk table exampleDisk data).2.
  assert (@AddBytes disk table exampleDisk data
          = (digest1, None, (@AddBytes disk table exampleDisk data).2)) as Hadd
    by (vm_compute; reflexivity).
  split; [exact exampleTable_made|]. split; [exact Hadd|].
  exact (@AddBytes_blob_hashes_to_its_name exampleEnv exampleTable (λ _, false) data
           exampleDisk _ digest1 exampleTable_made Hadd).
Defined.

(** ** Listing a directory *)

Lemma readDirFancyLoop_spec (m : gmap string node) (dirPath : path) (fuel : nat) :
  ∀ pos names,
    length (map_to_list m) - pos < fuel →
    readDirFancyLoop fuel (Dir m) dirPath pos names
    = names ++ map fancyName (drop pos (map_to_list m)).
Proof.
  induction fuel as [|fuel IH]; intros pos names Hfuel; [lia|].
  cbn [readDirFancyLoop Readdir].
  destruct (drop pos (map_to_list m)) as [|e rest] eqn:Hdrop.
  - cbn. by rewrite app_nil_r.
  - rewrite bool_decide_eq_false_2 by (by intros [? ?]).
    cbn [orb].
    assert (length (drop pos (map_to_list m)) = length (map_to_list m) - pos) as Hlen
      by apply length_drop.
    rewrite Hdrop in Hlen.
    assert (length (take 1024 (e :: rest)) ≠ 0) as Hpos by (cbn; lia).
    rewrite (proj2 (Nat.eqb_neq _ _) Hpos).
    rewrite IH.
    + rewrite <- app_assoc. f_equal. rewrite <- map_app. f_equal.
      rewrite <- drop_drop, Hdrop.
      assert (drop (length (take 1024 (e :: rest))) (e :: rest)
              = drop 1024 (e :: rest)) as ->.
      { rewrite length_take. destruct (decide (1024 ≤ length (e :: rest))).
        - by rewrite Nat.min_l.
        - rewrite Nat.min_r by lia. rewrite !drop_ge; [done|lia|lia]. }
      apply take_drop.
    + cbn [length] in *. rewrite length_take. cbn [length]. lia.
Qed.

(** readDirFancy and readDirNames list the same entries of a directory,
    in the same order, readDirFancy with "/" appended to the names of
    directories, however many entries there are; both fail with the
    error of os.Open when the path cannot be opened.  On a regular file
    they differ: readDirNames returns the error of the listing, while
    readDirFancy returns an empty list and no error. *)
Theorem readDirFancy_lists_like_readDirNames (fs : node) (dirPath : path) :
  match os_Open fs dirPath with
  | inl err =>
      readDirFancy fs dirPath = ([], Some err)
      ∧ readDirNames fs dirPath = ([], Some err)
  | inr (Dir m) =>
      readDirFancy fs dirPath = (fancyName <$> map_to_list m, None)
      ∧ readDirNames fs dirPath = (fst <$> map_to_list m, None)
  | inr (File _) =>
      readDirFancy fs dirPath = ([], None)
      ∧ readDirNames fs dirPath
        = ([], Some (PathError "readdirent" dirPath ENOTDIR))
  end.
Proof.
  unfold readDirFancy, readDirNames.
  destruct (os_Open fs dirPath) as [err|[data|m]]; [done|done|].
  split; [|done]. f_equal.
  rewrite readDirFancyLoop_spec by lia. by rewrite drop_0.
Qed.

(** ** CommonFlag on a new location *)

Lemma mkdirAllFrom_creates (todo : path) :
  ∀ (fs : node) (seen : path) (m : gmap string node) (x : string),
    walk fs seen = inr (Dir m) → walk fs (seen ++ todo ++ [x]) = inl ENOENT →
    ∃ fs' m', mkdirAllFrom fs ("" :: seen) todo = (None, fs')
              ∧ walk fs' (seen ++ todo) = inr (Dir m') ∧ m' !! x = None.
Proof.
  induction todo as [|y todo IH]; intros fs seen m x Hseen Hno.
  - exists fs, m. split; [done|]. rewrite app_nil_r. split; [done|].
    cbn [app] in Hno. rewrite (walk_snoc_dir _ _ _ m Hseen) in Hno.
    by destruct (m !! x).
  - cbn [mkdirAllFrom]. rewrite <- app_comm_cons, stat_rooted.
    replace (seen ++ (y :: todo) ++ [x]) with ((seen ++ [y]) ++ todo ++ [x]) in Hno
      by (by rewrite <- app_assoc).
    replace (seen ++ y :: todo) with ((seen ++ [y]) ++ todo)
      by (by rewrite <- app_assoc).
    rewrite (walk_snoc_dir _ _ _ m Hseen).
    destruct (m !! y) as [[data|m1]|] eqn:Hy.
    + rewrite walk_app, (walk_snoc_dir _ _ _ m Hseen), Hy in Hno.
      by destruct todo.
    + apply (IH fs (seen ++ [y]) m1 x); [|done].
      by rewrite (walk_snoc_dir _ _ _ m Hseen), Hy.
    + rewrite os_Mkdir_spec, (walk_snoc_dir _ _ _ m Hseen), Hy, Hseen.
      pose proof (walk_put_same fs seen y (Dir ∅) m Hseen) as Hnew.
      apply (IH _ (seen ++ [y]) ∅ x); [done|].
      rewrite walk_app, Hnew. by destruct todo.
Qed.

(** CommonFlag on a location where no store is, with nothing but
    directories on the way to it.  With createRoot it creates the
    missing directories, the cas directory and its shards, and returns
    the table of an empty store without a marker, on which an Enumerate
    delivers nothing; the quarantine is untouched.  Without createRoot,
    and the root directory missing, it fails with the error of
    MakeCasTable and leaves the disk as it is. *)
Theorem CommonFlag_on_a_new_location {E : Env} {EOK : EnvOK E} (rs : path)
    (createRoot bypassFsck : bool) (d : disk) :
  path_Clean ("" :: rs) = "" :: rs →
  walk (root d) (rs ++ [casName]) = inl ENOENT →
  (createRoot = true →
   ∃ c d',
     CommonFlag ("" :: rs) createRoot bypassFsck d = (inr c, d')
     ∧ Cas.casDir c = "" :: rs ++ [casName]
     ∧ (∀ p, walk (root d') (rs ++ [casName; p])
             = if validPrefix p then inr (Dir ∅) else inl ENOENT)
     ∧ quarantine d' = quarantine d
     ∧ Cas.WarnIfFsckIsNeeded c d' = false
     ∧ ∀ interrupted, Cas.Enumerate c interrupted d' = ([], d'))
  ∧ (createRoot = false → (∀ m, walk (root d) rs ≠ inr (Dir m)) →
     CommonFlag ("" :: rs) createRoot bypassFsck d
     = (inl (Errorf "MakeCasTable(%s): failed to create %s: %s"), d)).
Proof.
  intros Hclean Hno. unfold CommonFlag.
  destruct (decide ("" :: rs = [])); [done|].
  unfold filepath_Abs. cbn [path_IsAbs]. rewrite Hclean.
  split.
  - intros ->. unfold os_MkdirAll.
    destruct (root d) as [data|m0] eqn:Hroot.
    { by destruct rs. }
    destruct (mkdirAllFrom_creates rs (Dir m0) [] m0 casName eq_refl Hno)
      as (fs1 & m1 & Hmk & Hrs & Hcas).
    rewrite Hmk. cbn [app] in Hrs.
    destruct (MakeCasTable_fresh_spec rs {| root := fs1; quarantine := quarantine d |}
                m1 Hclean Hrs Hcas) as (fs' & top' & Hmake & Htop' & Hlook & _).
    rewrite Hmake. cbn [quarantine].
    set (c := {| Cas.rootDir := "" :: rs |}).
    assert (tableAt (rs ++ [casName]) c) as Hc by done.
    destruct (empty_store_facts (rs ++ [casName]) c
                {| root := fs'; quarantine := quarantine d |} top' Hc Htop' Hlook)
      as [Hwarn Henum].
    rewrite Hwarn. cbn [andb].
    eexists _, _. split; [done|]. split; [done|]. split; [|done].
    intros p. cbn [root]. rewrite cons_middle_snoc.
    rewrite (walk_snoc_dir _ _ _ top' Htop'), Hlook. by destruct (validPrefix p).
  - intros -> Hmissing. unfold Cas.MakeCasTable. cbn [path_IsAbs negb].
    rewrite Hclean.
    assert (path_Join ["" :: rs; seg casName] = "" :: rs ++ [casName]) as -> by done.
    rewrite os_Mkdir_spec, Hno.
    destruct (walk (root d) rs) as [e|[data|m]] eqn:Hrs; [done|done|].
    by destruct (Hmissing m).
Qed.

Lemma CommonFlag_on_a_new_location_witness :
  path_Clean ("" :: ["r"; "store"]) = "" :: ["r"; "store"]
  ∧ walk (root freshDisk) (["r"; "store"] ++ [casName]) = inl ENOENT
  ∧ (true = true →
     ∃ c d',
       @CommonFlag exampleEnv ("" :: ["r"; "store"]) true false freshDisk = (inr c, d')
       ∧ Cas.casDir c = "" :: ["r"; "store"] ++ [casName]
       ∧ (∀ p, walk (root d') (["r"; "store"] ++ [casName; p])
               = if validPrefix p then inr (Dir ∅) else inl ENOENT)
       ∧ quarantine d' = quarantine freshDisk
       ∧ Cas.WarnIfFsckIsNeeded c d' = false
       ∧ ∀ interrupted, @Cas.Enumerate exampleEnv c interrupted d' = ([], d'))
  ∧ (true = false → (∀ m, walk (root freshDisk) ["r"; "store"] ≠ inr (Dir m)) →
     @CommonFlag exampleEnv ("" :: ["r"; "store"]) true false freshDisk
     = (inl (Errorf "MakeCasTable(%s): failed to create %s: %s"), freshDisk)).
Proof.
  split; [reflexivity|]. split; [reflexivity|].
  exact (@CommonFlag_on_a_new_location exampleEnv exampleEnv_ok ["r"; "store"] true
           false freshDisk eq_refl eq_refl).
Defined.

(** ** The test of the table, on the table kept in memory *)

(** testCasTableImpl passes on an empty mockCasTable, and would pass
    with any content in the place of "content1": the content is added
    under its SHA-1 and enumerated once; adding it again reports that it
    exists and changes nothing; Open returns it; Open of "0" fails;
    Remove succeeds once and fails the second time; and the consistency
    bit is unset, set and cleared as asked. *)
Theorem testCasTableImpl_passes_on_mock (content : list byte) :
  testCasTableImplOn content emptyMock = true
  ∧ testCasTableImpl emptyMock = true.
Proof.
  assert (∀ data, testCasTableImplOn data emptyMock = true) as Hall.
  2: { split; [apply Hall | apply (Hall (list_byte_of_string "content1"))]. }
  intros data. unfold testCasTableImplOn, AddBytes.
  cbn [Enumerate AddEntry Open Remove SetFsckBit GetFsckBit ClearFsckBit
       mockCasTable_CasTable mockCasTable_CasTableFsck].
  set (h := sha1Bytes data).
  assert (h ≠ "0") as Hh0.
  { intros Heq. pose proof (hex_valid (SHA1.sum data)) as Hv.
    fold (sha1Bytes data) in Hv. fold h in Hv. by rewrite Heq in Hv. }
  unfold Mock.Enumerate, Mock.AddEntry, Mock.Open, Mock.Remove, Mock.SetFsckBit,
    Mock.GetFsckBit, Mock.ClearFsckBit.
  cbn [Mock.entries Mock.needFsck emptyMock fst snd rd_err rd_data NewBuffer].
  rewrite map_to_list_empty, lookup_empty. cbn [fmap list_fmap map].
  cbn [Mock.entries Mock.needFsck rd_err rd_data NewBuffer].
  rewrite insert_empty, map_to_list_singleton, lookup_singleton_eq.
  cbn [fmap list_fmap map fst snd Mock.entries Mock.needFsck onlyItem forallb Item
       length os_IsExist ReadAllHandle].
  rewrite lookup_singleton_eq, (lookup_singleton_ne h "0") by done.
  cbn [Mock.entries Mock.needFsck ReadAllHandle].
  rewrite delete_singleton_eq, lookup_empty.
  rewrite !map_to_list_singleton. unfold onlyItem.
  cbn [fmap list_fmap map fst snd forallb Item length Mock.needFsck].
  rewrite !bool_decide_eq_true_2 by done. done.
Qed.

(** ** Walking a directory tree *)






Section Walk.
Variable fs : node.



End Walk.







(** ** A shard that cannot be listed *)

Section Unreadable.
Context {E : Env} {EOK : EnvOK E}.
Variables (cs : path) (c : Cas.casTable).
Hypothesis Hc : tableAt cs c.

(** No step of a scan touches a file that is named like a shard. *)
Lemma scanStep_keeps_file (S R : string → Prop) (fs fs' : node) (p : string)
    (data : list byte) :
  scanStep cs S R fs fs' → validPrefix p = true →
  walk fs (cs ++ [p]) = inr (File data) → walk fs' (cs ++ [p]) = inr (File data).
Proof using EOK.
  intros Hstep Hp Hw. destruct Hstep as [fs|fs _|fs x _ _ Hx _|fs p' r _ _ _ _].
  - rewrite <- Hw. apply walk_alter_diverge. intros <-.
    by rewrite marker_not_shard in Hp.
  - rewrite <- Hw. apply walk_alter_diverge. intros <-.
    by rewrite TrashName_not_validPrefix in Hp.
  - rewrite <- Hw. apply walk_alter_diverge. intros ->. congruence.
  - destruct (decide (p' = p)) as [->|Hne].
    + unfold fs_remove. rewrite cons_middle_snoc, fs_alter_no_parent; [done|].
      intros m. by rewrite Hw.
    + rewrite <- Hw. by apply (walk_alter_diverge _ cs p' p [r] []).
Qed.

Lemma scanSteps_keeps_file (S R : string → Prop) (fs fs' : node) (p : string)
    (data : list byte) :
  rtc (scanStep cs S R) fs fs' → validPrefix p = true →
  walk fs (cs ++ [p]) = inr (File data) → walk fs' (cs ++ [p]) = inr (File data).
Proof using EOK.
  intros Hsteps Hp. induction Hsteps as [|fs fs1 fs2 Hstep _ IH]; [done|].
  intros Hw. apply IH. by eapply scanStep_keeps_file.
Qed.

Lemma scanPrefixes_unreadable_flagged (interrupted : nat → bool) (p : string)
    (prefixes : list string) :
  uninterrupted interrupted → validPrefix p = true →
  ∀ (i : nat) (d : disk) (m0 : gmap string node),
    NoDup prefixes → "" ∉ prefixes → shardsNamed cs prefixes d →
    walk (root d) cs = inr (Dir m0) → p ∈ prefixes →
    (∀ m, walk (root d) (cs ++ [p]) ≠ inr (Dir m)) →
    Cas.WarnIfFsckIsNeeded c
      (Cas.scanPrefixes c rePrefix reRest interrupted i prefixes d).2 = true.
Proof using Hc EOK.
  intros Hrun Hp. induction prefixes as [|x0 rest IH];
    intros i d m0 Hnd Hne Hnames Hm0 Hin Hfile.
  { by apply elem_of_nil in Hin. }
  apply NoDup_cons in Hnd as [Hnotin Hnd].
  apply not_elem_of_cons in Hne as [Hx0 Hne].
  cbn [Cas.scanPrefixes]. rewrite (Hrun i).
  pose proof (shardsNamed_step cs c Hc x0 rest d (not_eq_sym Hx0) Hnotin Hnames)
    as Hnames'.
  assert (validPrefix x0 = true →
          ∀ m, walk (root d) (cs ++ [x0]) = inr (Dir m) → m !! "" = None) as Hn0.
  { intros Hv. apply Hnames; [by left | done]. }
  destruct (scanPrefix_casDir cs c Hc x0 d m0 (not_eq_sym Hx0) Hn0 Hm0) as [m1 Hm1].
  pose proof (λ q Hpx,
      scanPrefix_other_shard cs c Hc x0 p q d (not_eq_sym Hx0)
        (λ p' Hin' Hv, Hnames p' (proj2 (elem_of_cons _ _ _)
           (or_introl (proj1 (list_elem_of_singleton _ _) Hin'))) Hv) Hp Hpx) as Hother.
  destruct (decide (p = x0)) as [<-|Hpx].
  - pose proof (scanPrefix_valid cs c Hc p d Hp) as Hscan.
    assert (Cas.scanPrefix c rePrefix reRest p d
            = ([{| Item := ""; Error := Some (Errorf "Failed reading %s") |}],
               Cas.NeedFsck c d)) as Heq.
    { rewrite Hscan. destruct (walk (root d) (cs ++ [p])) as [e|[data|m]]; try done.
      by destruct (Hfile m). }
    rewrite Heq in *. cbn [fst snd] in *.
    pose proof (scanPrefixes_flagged cs c Hc interrupted Hrun (S i) rest
                  (Cas.NeedFsck c d) m1 Hnd Hne Hnames' Hm1) as Hflag.
    destruct (Cas.scanPrefixes c rePrefix reRest interrupted (S i) rest
                (Cas.NeedFsck c d)) as [out2 d2].
    cbn [snd] in *. apply Hflag. left. by apply (NeedFsck_flagged cs c Hc d m0).
  - apply elem_of_cons in Hin as [->|Hin]; [done|].
    specialize (Hother [] Hpx).
    destruct (Cas.scanPrefix c rePrefix reRest x0 d) as [out1 d1]. cbn [fst snd] in *.
    specialize (IH (S i) d1 m1 Hnd Hne Hnames' Hm1 Hin).
    destruct (Cas.scanPrefixes c rePrefix reRest interrupted (S i) rest d1)
      as [out2 d2].
    cbn [snd] in *. apply IH. intros m. rewrite Hother. apply Hfile.
Qed.

Lemma Enumerate_unreadable_item (interrupted : nat → bool) (d : disk)
    (top : gmap string node) (p : string) (data : list byte) :
  uninterrupted interrupted → namesOK cs (root d) →
  walk (root d) cs = inr (Dir top) → validPrefix p = true →
  top !! p = Some (File data) →
  {| Item := ""; Error := Some (Errorf "Failed reading %s") |}
    ∈ (Cas.Enumerate c interrupted d).1
  ∧ Cas.WarnIfFsckIsNeeded c (Cas.Enumerate c interrupted d).2 = true.
Proof using Hc EOK.
  intros Hrun Hok Htop Hp Hfile. split.
  - rewrite (Enumerate_items cs c Hc interrupted d top Hrun Hok Htop).
    unfold itemsOfStore. apply list_elem_of_In, in_flat_map. exists p. split.
    + apply list_elem_of_In, elem_of_dirNames. eauto.
    + apply list_elem_of_In. unfold itemsOfName.
      destruct (decide (p = TrashName)) as [->|_].
      { by rewrite TrashName_not_validPrefix in Hp. }
      rewrite Hp, Hfile. cbn. by left.
  - rewrite (Enumerate_scan cs c Hc interrupted d top Htop).
    apply (scanPrefixes_unreadable_flagged interrupted p (dirNames top) Hrun Hp 0 d top).
    + apply NoDup_dirNames.
    + by eapply namesOK_top.
    + by apply namesOK_shards.
    + done.
    + apply elem_of_dirNames. eauto.
    + intros m. by rewrite (walk_snoc_dir _ _ _ top Htop), Hfile.
Qed.
End Unreadable.

(** A shard that cannot be listed is reported, not repaired.  When a
    regular file bears the name of a shard, an uninterrupted Enumerate
    delivers the error "Failed reading %s" for it and sets the marker,
    but leaves the file where it is (it is not moved to the Trash); so
    the next Enumerate delivers the same error again. *)
Theorem Enumerate_reports_unreadable_shard {E : Env} {EOK : EnvOK E}
    (c : Cas.casTable) (interrupted : nat → bool) (d : disk)
    (top : gmap string node) (p : string) (data : list byte) :
  made c → uninterrupted interrupted → namesOK (casSegs c) (root d) →
  walk (root d) (casSegs c) = inr (Dir top) → validPrefix p = true →
  top !! p = Some (File data) →
  let unreadable := {| Item := ""; Error := Some (Errorf "Failed reading %s") |} in
  let scan := Cas.Enumerate c interrupted d in
  unreadable ∈ scan.1
  ∧ Cas.WarnIfFsckIsNeeded c scan.2 = true
  ∧ walk (root scan.2) (casSegs c ++ [p]) = inr (File data)
  ∧ unreadable ∈ (Cas.Enumerate c interrupted scan.2).1.
Proof.
  intros Hc%made_casSegs Hrun Hok Htop Hp Hfile unreadable scan.
  set (cs := casSegs c) in *.
  destruct (Enumerate_unreadable_item cs c Hc interrupted d top p data Hrun Hok Htop
              Hp Hfile) as [Hitem Hflag].
  pose proof (Enumerate_steps cs c Hc interrupted d Hok) as Hsteps.
  assert (walk (root scan.2) (cs ++ [p]) = inr (File data)) as Hkept.
  { eapply scanSteps_keeps_file; [exact Hsteps | done |].
    by rewrite (walk_snoc_dir _ _ _ top Htop), Hfile. }
  split; [done|]. split; [done|]. split; [done|].
  destruct (walk_prefix_dir (root scan.2) (File data) cs [p]) as [top2 Htop2];
    [done | done |].
  apply (Enumerate_unreadable_item cs c Hc interrupted scan.2 top2 p data Hrun).
  - by eapply scanSteps_namesOK.
  - done.
  - done.
  - rewrite (walk_snoc_dir _ _ _ top2 Htop2) in Hkept.
    destruct (top2 !! p); [by injection Hkept as -> | done].
Qed.

Lemma Enumerate_reports_unreadable_shard_witness :
  let unreadable := {| Item := ""; Error := Some (Errorf "Failed reading %s") |} in
  let scan := @Cas.Enumerate exampleEnv exampleTable (λ _, false) brokenDisk in
  @made exampleEnv exampleTable ∧ uninterrupted (λ _, false)
  ∧ namesOK (casSegs exampleTable) (root brokenDisk)
  ∧ walk (root brokenDisk) (casSegs exampleTable) = inr (Dir brokenTop)
  ∧ validPrefix "abc" = true
  ∧ brokenTop !! "abc" = Some (File (list_byte_of_string "x"))
  ∧ unreadable ∈ scan.1
  ∧ Cas.WarnIfFsckIsNeeded exampleTable scan.2 = true
  ∧ walk (root scan.2) (casSegs exampleTable ++ ["abc"])
    = inr (File (list_byte_of_string "x"))
  ∧ unreadable ∈ (@Cas.Enumerate exampleEnv exampleTable (λ _, false) scan.2).1.
Proof.
  intros unreadable scan.
  assert (namesOK (casSegs exampleTable) (root brokenDisk)) as Hok
    by (eapply namesOKb_correct; [reflexivity | vm_compute; reflexivity]).
  split; [exact exampleTable_made|]. split; [intros i; reflexivity|].
  split; [exact Hok|]. split; [reflexivity|]. split; [reflexivity|].
  split; [reflexivity|].
  exact (@Enumerate_reports_unreadable_shard exampleEnv exampleEnv_ok exampleTable
           (λ _, false) brokenDisk brokenTop "abc" (list_byte_of_string "x")
           exampleTable_made (λ i, eq_refl) Hok eq_refl eq_refl eq_refl).
Defined.

(** ** MakeCasTable on what is already there *)

(** MakeCasTable trusts whatever is called "cas": when the name exists in
    the root directory, it returns the table and touches nothing, so no
    missing shard is ever created; and it does so even when "cas" is a
    regular file, in which case every Enumerate of the table delivers
    the one error "Failed reading ss" and every AddEntry fails, the disk
    staying as it is. *)
Theorem MakeCasTable_trusts_an_existing_cas {E : Env} (rs : path) (d : disk)
    (n : node) :
  path_Clean ("" :: rs) = "" :: rs → walk (root d) (rs ++ [casName]) = inr n →
  ∃ c,
    Cas.MakeCasTable ("" :: rs) d = (inr c, d)
    ∧ Cas.casDir c = "" :: rs ++ [casName]
    ∧ ∀ data, n = File data →
        (∀ interrupted,
           Cas.Enumerate c interrupted d
           = ([{| Item := ""; Error := Some (Errorf "Failed reading ss") |}], d))
        ∧ ∀ source h,
            Cas.AddEntry c source h d = (Some (Errorf "Failed to copy(dst) %s: %s"), d).
Proof.
  intros Hclean Hn. eexists. split; [by apply (MakeCasTable_exists rs d n)|].
  split; [done|]. intros data ->.
  set (c := {| Cas.rootDir := "" :: rs |}).
  assert (tableAt (rs ++ [casName]) c) as Hc by done.
  split.
  - intros interrupted. apply (Enumerate_unreadable (rs ++ [casName]) c Hc).
    intros top. by rewrite Hn.
  - intros source h. destruct (validDigest h) eqn:Hh.
    + rewrite (AddEntry_valid (rs ++ [casName]) c Hc source h d Hh).
      unfold blobSegs. by rewrite walk_app, Hn.
    + by apply (AddEntry_invalid (rs ++ [casName])).
Qed.

Lemma MakeCasTable_trusts_an_existing_cas_witness :
  let d := {| root := Dir {[ "r" := Dir {[ "cas" := File [] ]} ]};
              quarantine := [] |} in
  path_Clean ("" :: ["r"]) = "" :: ["r"]
  ∧ walk (root d) (["r"] ++ [casName]) = inr (File [])
  ∧ ∃ c,
      @Cas.MakeCasTable exampleEnv ("" :: ["r"]) d = (inr c, d)
      ∧ Cas.casDir c = "" :: ["r"] ++ [casName]
      ∧ ∀ data, File [] = File data →
          (∀ interrupted,
             @Cas.Enumerate exampleEnv c interrupted d
             = ([{| Item := ""; Error := Some (Errorf "Failed reading ss") |}], d))
          ∧ ∀ source h,
              Cas.AddEntry c source h d
              = (Some (Errorf "Failed to copy(dst) %s: %s"), d).
Proof.
  intros d. split; [reflexivity|]. split; [reflexivity|].
  exact (@MakeCasTable_trusts_an_existing_cas exampleEnv ["r"] d (File []) eq_refl
           eq_refl).
Defined.

(** ** The table in memory against the table on disk *)

Section SideBySide.
Context {E : Env} {EOK : EnvOK E}.
Variables (cs : path) (c : Cas.casTable).
Hypothesis Hc : tableAt cs c.

Lemma tidy_cleanStore (d : disk) (top : gmap string node) :
  tidy cs d → walk (root d) cs = inr (Dir top) → cleanStore top.
Proof.
  intros (_ & top' & Htop' & Htidy) Htop. assert (top' = top) as -> by congruence.
  intros x n Hx Htr. destruct (Htidy x n Hx Htr) as (Hv & ms & -> & Hms).
  split; [done|]. exists ms. split; [done|]. intros r [n' Hn'].
  by destruct (Hms r n' Hn').
Qed.

(** In a tidy store the place of a digest holds a regular file or
    nothing. *)
Lemma tidy_blob (d : disk) (h : string) :
  tidy cs d → validDigest h = true →
  (∃ data, walk (root d) (blobSegs cs h) = inr (File data))
  ∨ walk (root d) (blobSegs cs h) = inl ENOENT.
Proof using EOK.
  intros (_ & top & Htop & Htidy) Hh.
  destruct (MatchString_hex_slices splitAt (hashLength - splitAt) h Hh) as [H1 H2].
  unfold blobSegs. rewrite cons_middle_snoc, walk_app, (walk_snoc_dir _ _ _ top Htop).
  destruct (top !! sliceTo splitAt h) as [n|] eqn:Hp; [|by right].
  destruct (Htidy _ n Hp) as (_ & ms & -> & Hms).
  { intros Heq. rewrite Heq in H1. change (validPrefix TrashName = true) in H1.
    by rewrite TrashName_not_validPrefix in H1. }
  cbn [walk]. destruct (ms !! sliceFrom splitAt h) as [n'|] eqn:Hr; [|by right].
  destruct (Hms _ n' Hr) as (_ & data & ->). left. by exists data.
Qed.

Lemma agrees_same_blobs (d d' : disk) (m : Mock.mockCasTable) :
  (∀ h, validDigest h = true →
        walk (root d') (blobSegs cs h) = walk (root d) (blobSegs cs h)) →
  agrees cs d m → agrees cs d' m.
Proof.
  intros Hsame Hag h. rewrite Hag. destruct (validDigest h) eqn:Hh; [|done].
  by rewrite Hsame.
Qed.

(** Rewriting an entry of a shard keeps the store tidy, when what is
    written is a blob or nothing. *)
Lemma tidy_alter_blob (f : option node → option node) (p r : string) (d : disk)
    (q : list (path * path * node)) :
  validPrefix p = true → validRest r = true →
  (∀ o, f o = None ∨ ∃ data, f o = Some (File data)) →
  namesOK cs (fs_alter f (cs ++ [p; r]) (root d)) →
  tidy cs d →
  tidy cs {| root := fs_alter f (cs ++ [p; r]) (root d); quarantine := q |}.
Proof using EOK.
  intros Hp Hr Hf Hok' (Hok & top & Htop & Htidy). split; [done|]. cbn [root].
  destruct (walk_alter_ancestor f cs [p; r] (root d) top) as [top1 Htop1];
    [done | done |].
  exists top1. split; [done|]. intros x n Hx Htr.
  destruct (decide (x = p)) as [->|Hxp].
  - split; [done|].
    assert (walk (fs_alter f (cs ++ [p; r]) (root d)) (cs ++ [p]) = inr n) as Hn
      by (by rewrite (walk_snoc_dir _ _ _ top1 Htop1), Hx).
    destruct (walk (root d) (cs ++ [p])) as [e|[data|ms]] eqn:Hsh.
    { rewrite cons_middle_snoc, fs_alter_no_parent in Hn
        by (intros ms; by rewrite Hsh).
      by rewrite Hsh in Hn. }
    { rewrite (walk_snoc_dir _ _ _ top Htop) in Hsh.
      destruct (top !! p) as [n0|] eqn:Hp0; [|done]. injection Hsh as ->.
      by destruct (Htidy p _ Hp0 Htr) as (_ & ms & [=] & _). }
    rewrite cons_middle_snoc, (walk_alter_parent f (cs ++ [p]) r _ ms Hsh) in Hn.
    injection Hn as <-. eexists. split; [done|]. intros r' n' Hr'.
    rewrite (walk_snoc_dir _ _ _ top Htop) in Hsh.
    destruct (top !! p) as [n0|] eqn:Hp0; [|done]. injection Hsh as ->.
    destruct (Htidy p _ Hp0 Htr) as (_ & ms0 & [= <-] & Hms).
    destruct (decide (r' = r)) as [->|Hne].
    + rewrite lookup_partial_alter_eq in Hr'. split; [done|].
      destruct (Hf (ms !! r)) as [Hnone|[data Hsome]]; [congruence|].
      exists data. congruence.
    + rewrite lookup_partial_alter_ne in Hr' by done. by apply (Hms r').
  - destruct (walk_alter_ancestor_lookup f cs p [r] (root d) top1 x) as (top0 & Htop0 & Heq);
      [done | done |].
    assert (top0 = top) as -> by congruence.
    rewrite Heq in Hx. by apply (Htidy x n).
Qed.

Lemma tidy_ensureDir (d : disk) (q : list (path * path * node)) :
  tidy cs d →
  tidy cs {| root := Trash.ensureDir (root d) ("" :: cs ++ [TrashName]);
             quarantine := q |}.
Proof using EOK.
  intros (Hok & top & Htop & Htidy). split; [by apply ensureDir_namesOK|]. cbn [root].
  destruct (ensureDir_parent (root d) cs TrashName top Htop) as (top1 & Htop1 & Hsame).
  exists top1. split; [done|]. intros x n Hx Htr.
  rewrite Hsame in Hx by done. by apply (Htidy x n).
Qed.

Lemma mock_Open_agrees (d : disk) (m : Mock.mockCasTable) (h : string) :
  tidy cs d → agrees cs d m → validDigest h = true →
  match Cas.Open c h d, Mock.Open m h with
  | inr f, inr g => ReadAllHandle f = ReadAllHandle g
  | inl _, inl _ => True
  | _, _ => False
  end.
Proof using Hc EOK.
  intros Htidy Hag Hh. rewrite (Open_valid cs c Hc h d Hh). unfold Mock.Open.
  rewrite (Hag h), Hh. fold (blobSegs cs h).
  by destruct (tidy_blob d h Htidy Hh) as [[data ->] | ->].
Qed.

Lemma mock_AddEntry_agrees (d : disk) (m : Mock.mockCasTable) (source : Reader)
    (h : string) (ms : gmap string node) :
  tidy cs d → agrees cs d m → validDigest h = true → rd_err source = None →
  walk (root d) (cs ++ [sliceTo splitAt h]) = inr (Dir ms) →
  ((Cas.AddEntry c source h d).1 = None ↔ (Mock.AddEntry m source h).1 = None)
  ∧ (∀ e1, (Cas.AddEntry c source h d).1 = Some e1 →
           os_IsExist e1 = true ∧ (Mock.AddEntry m source h).1 = Some ErrExist)
  ∧ tidy cs (Cas.AddEntry c source h d).2
  ∧ agrees cs (Cas.AddEntry c source h d).2 (Mock.AddEntry m source h).2.
Proof using Hc EOK.
  intros Htidy Hag Hh Hsrc Hsh.
  rewrite (AddEntry_valid cs c Hc source h d Hh). unfold Mock.AddEntry.
  pose proof (Hag h) as Hm. rewrite Hh in Hm. rewrite Hm, Hsh, Hsrc.
  destruct (MatchString_hex_slices splitAt (hashLength - splitAt) h Hh) as [H1 H2].
  destruct (tidy_blob d h Htidy Hh) as [[data Hw] | Hw]; rewrite Hw; cbn [fst snd].
  - split; [done|]. split; [|done]. by intros e1 [= <-].
  - split; [done|]. split; [done|]. split.
    + unfold fs_put, blobSegs.
      apply (tidy_alter_blob _ _ _
               {| root := fs_alter (λ _, Some (File []))
                            (cs ++ [sliceTo splitAt h; sliceFrom splitAt h]) (root d);
                  quarantine := quarantine d |} (quarantine d));
        [done | done | by right; eauto | |].
      * apply (namesOK_put_item cs); [apply (hex_nonempty 2), H1
                                      | apply (hex_nonempty 36), H2 |].
        apply (namesOK_put_item cs); [apply (hex_nonempty 2), H1
                                      | apply (hex_nonempty 36), H2 |].
        apply Htidy.
      * apply (tidy_alter_blob _ _ _ d (quarantine d)); [done | done | by right; eauto | |done].
        apply (namesOK_put_item cs); [apply (hex_nonempty 2), H1
                                      | apply (hex_nonempty 36), H2 |].
        apply Htidy.
    + intros h'. cbn [Mock.entries root]. destruct (decide (h' = h)) as [->|Hne].
      * rewrite lookup_insert_eq, Hh. unfold blobSegs, fs_put.
        rewrite cons_middle_snoc.
        erewrite (walk_alter_same _ (cs ++ [sliceTo splitAt h]) _ []); [done|].
        by eapply walk_put_parent.
      * rewrite lookup_insert_ne by done. rewrite (Hag h').
        destruct (validDigest h') eqn:Hh'; [|done].
        unfold fs_put. by rewrite !walk_alter_other_blob.
Qed.

Lemma mock_Remove_agrees (d : disk) (m : Mock.mockCasTable) (h : string) :
  tidy cs d → agrees cs d m → validDigest h = true →
  ((Cas.Remove c h d).1 = None ↔ (Mock.Remove m h).1 = None)
  ∧ tidy cs (Cas.Remove c h d).2
  ∧ agrees cs (Cas.Remove c h d).2 (Mock.Remove m h).2.
Proof using Hc EOK.
  intros Htidy Hag Hh. unfold Mock.Remove.
  pose proof (Hag h) as Hm. rewrite Hh in Hm. rewrite Hm.
  destruct (MatchString_hex_slices splitAt (hashLength - splitAt) h Hh) as [H1 H2].
  rewrite (Remove_valid cs c Hc h d Hh), (Move_spec cs c Hc) by done.
  fold (blobSegs cs h).
  destruct (tidy_blob d h Htidy Hh) as [[data Hw] | Hw]; rewrite Hw; cbn [fst snd];
    [|done].
  split; [done|]. split.
  - unfold fs_remove, blobSegs.
    apply (tidy_alter_blob _ _ _
             {| root := Trash.ensureDir (root d) ("" :: cs ++ [TrashName]);
                quarantine := quarantine d |}); [done | done | by left | |].
    + apply namesOK_remove_item; [apply (hex_nonempty 2), H1|].
      apply ensureDir_namesOK, Htidy.
    + by apply tidy_ensureDir.
  - intros h'. cbn [Mock.entries root]. destruct (decide (h' = h)) as [->|Hne].
    + rewrite lookup_delete_eq, Hh.
      destruct (walk_prefix_dir (root d) (File data) (cs ++ [sliceTo splitAt h])
                  [sliceFrom splitAt h]) as [ms Hms];
        [done | by rewrite <- cons_middle_snoc |].
      unfold blobSegs. rewrite cons_middle_snoc.
      erewrite (walk_remove_same _ _ _ []); [done|].
      rewrite <- (app_nil_r (cs ++ _)), <- app_assoc. cbn [app].
      eapply ensureDir_keeps. rewrite <- Hms. f_equal.
    + rewrite lookup_delete_ne by done. rewrite (Hag h').
      destruct (validDigest h') eqn:Hh'; [|done].
      unfold fs_remove. rewrite walk_alter_other_blob by done.
      destruct (MatchString_hex_slices splitAt (hashLength - splitAt) h' Hh')
        as [H1' _].
      unfold blobSegs. rewrite ensureDir_other; [done|].
      intros Heq. rewrite <- Heq in H1'. change (validPrefix TrashName = true) in H1'.
      by rewrite TrashName_not_validPrefix in H1'.
Qed.

Lemma mock_Enumerate_agrees (d : disk) (m : Mock.mockCasTable)
    (interrupted : nat → bool) :
  tidy cs d → agrees cs d m → uninterrupted interrupted →
  (Cas.Enumerate c interrupted d).2 = d
  ∧ (∀ e, e ∈ (Cas.Enumerate c interrupted d).1 → Error e = None)
  ∧ ∀ h, h ∈ Item <$> (Cas.Enumerate c interrupted d).1
         ↔ h ∈ Item <$> (Mock.Enumerate m).1.
Proof using Hc EOK.
  intros Htidy Hag Hrun. pose proof Htidy as (Hok & top & Htop & Hshape).
  pose proof (tidy_cleanStore d top Htidy Htop) as Hclean.
  split; [by apply (Enumerate_clean cs c Hc interrupted d top)|].
  rewrite (Enumerate_items cs c Hc interrupted d top Hrun Hok Htop).
  assert (∀ e, e ∈ itemsOfStore top → Error e = None) as Hnoerr.
  { intros e Hin. unfold itemsOfStore in Hin.
    apply list_elem_of_In, in_flat_map in Hin as (p & _ & Hin%list_elem_of_In).
    unfold itemsOfName in Hin. destruct (decide (p = TrashName)) as [|Htr].
    { by apply elem_of_nil in Hin. }
    destruct (validPrefix p); [|by apply elem_of_nil in Hin].
    destruct (top !! p) as [n|] eqn:Hp; [|by apply elem_of_nil in Hin].
    destruct (Hshape p n Hp Htr) as (_ & ms & -> & _). cbn in Hin.
    by apply list_elem_of_fmap in Hin as (r & -> & _). }
  split; [done|]. intros h.
  change (Item <$> (Mock.Enumerate m).1) with (enumerated m).
  rewrite mock_enumerated, (Hag h). split.
  - intros (e & -> & Hin)%list_elem_of_fmap.
    destruct (elem_of_itemsOfStore top e Hin (Hnoerr e Hin))
      as (p & ms & r & -> & Htr & Hp & Hr & Hpm & [n Hn]).
    cbn [Item]. pose proof (MatchString_hex_length _ _ Hp) as Hlen.
    assert (validDigest (p +:+ r) = true) as Hh.
    { unfold validDigest. change hashLength with (splitAt + (hashLength - splitAt)).
      rewrite MatchString_hex_app by done.
      change (validPrefix p && validRest r = true). by rewrite Hp, Hr. }
    rewrite Hh. unfold blobSegs. rewrite <- Hlen at 1 2.
    rewrite sliceTo_app, sliceFrom_app.
    rewrite cons_middle_snoc, walk_app, (walk_snoc_dir _ _ _ top Htop), Hpm.
    cbn [walk]. rewrite Hn.
    destruct (Hshape p _ Hpm Htr) as (_ & ms' & [= <-] & Hms).
    destruct (Hms r n Hn) as (_ & data & ->). eauto.
  - destruct (validDigest h) eqn:Hh; [|by intros [? ?]].
    destruct (MatchString_hex_slices splitAt (hashLength - splitAt) h Hh) as [H1 H2].
    unfold blobSegs. rewrite cons_middle_snoc, walk_app, (walk_snoc_dir _ _ _ top Htop).
    destruct (top !! sliceTo splitAt h) as [[data|ms]|] eqn:Hp;
      [by intros [? ?] | | by intros [? ?]].
    cbn [walk]. destruct (ms !! sliceFrom splitAt h) as [n|] eqn:Hr; [|by intros [? ?]].
    intros _. apply list_elem_of_fmap.
    exists {| Item := sliceTo splitAt h +:+ sliceFrom splitAt h; Error := None |}.
    split.
    + cbn. rewrite slices_join; [done|].
      rewrite (MatchString_hex_length hashLength h Hh). unfold splitAt, hashLength. lia.
    + by apply (itemsOfStore_elem_of top _ _ ms).
Qed.
End SideBySide.

(** mockCasTable behaves like casTable.  When the table in memory holds
    what a tidy store on disk holds, then for every well-formed digest
    Open succeeds on both or on neither, with the same bytes; AddEntry of
    a source that does not fail, into a shard that exists, succeeds on
    both or reports on both that the digest exists; Remove succeeds on
    both or on neither; after each of them the store is tidy and the two
    tables still hold the same; and an uninterrupted Enumerate leaves the
    disk as it is and delivers, without error, the digests the table in
    memory delivers. *)
Theorem mock_simulates_disk_table {E : Env} {EOK : EnvOK E} (c : Cas.casTable)
    (d : disk) (m : Mock.mockCasTable) :
  made c → tidy (casSegs c) d → agrees (casSegs c) d m →
  (∀ h, validDigest h = true →
        match Cas.Open c h d, Mock.Open m h with
        | inr f, inr g => ReadAllHandle f = ReadAllHandle g
        | inl _, inl _ => True
        | _, _ => False
        end)
  ∧ (∀ source h ms,
       validDigest h = true → rd_err source = None →
       walk (root d) (casSegs c ++ [sliceTo 3 h]) = inr (Dir ms) →
       ((Cas.AddEntry c source h d).1 = None ↔ (Mock.AddEntry m source h).1 = None)
       ∧ (∀ e1, (Cas.AddEntry c source h d).1 = Some e1 →
                os_IsExist e1 = true ∧ (Mock.AddEntry m source h).1 = Some ErrExist)
       ∧ tidy (casSegs c) (Cas.AddEntry c source h d).2
       ∧ agrees (casSegs c) (Cas.AddEntry c source h d).2 (Mock.AddEntry m source h).2)
  ∧ (∀ h, validDigest h = true →
       ((Cas.Remove c h d).1 = None ↔ (Mock.Remove m h).1 = None)
       ∧ tidy (casSegs c) (Cas.Remove c h d).2
       ∧ agrees (casSegs c) (Cas.Remove c h d).2 (Mock.Remove m h).2)
  ∧ (∀ interrupted, uninterrupted interrupted →
       (Cas.Enumerate c interrupted d).2 = d
       ∧ (∀ e, e ∈ (Cas.Enumerate c interrupted d).1 → Error e = None)
       ∧ ∀ h, h ∈ Item <$> (Cas.Enumerate c interrupted d).1
              ↔ h ∈ Item <$> (Mock.Enumerate m).1).
Proof.
  intros Hc%made_casSegs Htidy Hag. split; [|split; [|split]].
  - intros h Hh. by apply (mock_Open_agrees (casSegs c)).
  - intros source h ms Hh Hsrc Hsh. by apply (mock_AddEntry_agrees (casSegs c) c Hc _ _ _ _ ms).
  - intros h Hh. by apply (mock_Remove_agrees (casSegs c)).
  - intros interrupted Hrun. by apply (mock_Enumerate_agrees (casSegs c)).
Qed.

Lemma empty_shards_tidy {E : Env} (cs : path) (d : disk) (top : gmap string node) :
  walk (root d) cs = inr (Dir top) →
  (∀ p, top !! p = if validPrefix p then Some (Dir ∅) else None) →
  tidy cs d ∧ agrees cs d emptyMock.
Proof.
  intros Htop Hlook. split; [split|].
  - intros l m' [-> | [p ->]] Hw.
    + rewrite Htop in Hw. injection Hw as <-. by rewrite Hlook.
    + rewrite (walk_snoc_dir _ _ _ top Htop), Hlook in Hw.
      destruct (validPrefix p); [|done]. by injection Hw as <-.
  - exists top. split; [done|]. intros x n Hx _. rewrite Hlook in Hx.
    destruct (validPrefix x); [|done]. injection Hx as <-. split; [done|].
    exists ∅. split; [done|]. intros r n' Hr. by rewrite lookup_empty in Hr.
  - intros h. cbn [Mock.entries emptyMock]. rewrite lookup_empty.
    destruct (validDigest h) eqn:Hh; [|done].
    destruct (MatchString_hex_slices splitAt (hashLength - splitAt) h Hh) as [H1 _].
    unfold blobSegs. rewrite cons_middle_snoc, walk_app.
    rewrite (walk_snoc_dir _ _ _ top Htop), Hlook.
    change (MatchString rePrefix (sliceTo splitAt h)) with (validPrefix (sliceTo splitAt h))
      in H1.
    by rewrite H1.
Qed.

Lemma mock_simulates_disk_table_witness :
  let d := (@Cas.MakeCasTable exampleEnv [""; "r"] freshDisk).2 in
  @made exampleEnv exampleTable
  ∧ @tidy exampleEnv (casSegs exampleTable) d
  ∧ agrees (casSegs exampleTable) d emptyMock
  ∧ (∀ h, validDigest h = true →
          match Cas.Open exampleTable h d, Mock.Open emptyMock h with
          | inr f, inr g => ReadAllHandle f = ReadAllHandle g
          | inl _, inl _ => True
          | _, _ => False
          end)
  ∧ (∀ source h ms,
       validDigest h = true → rd_err source = None →
       walk (root d) (casSegs exampleTable ++ [sliceTo 3 h]) = inr (Dir ms) →
       ((Cas.AddEntry exampleTable source h d).1 = None
        ↔ (Mock.AddEntry emptyMock source h).1 = None)
       ∧ (∀ e1, (Cas.AddEntry exampleTable source h d).1 = Some e1 →
                os_IsExist e1 = true
                ∧ (Mock.AddEntry emptyMock source h).1 = Some ErrExist)
       ∧ @tidy exampleEnv (casSegs exampleTable) (Cas.AddEntry exampleTable source h d).2
       ∧ agrees (casSegs exampleTable) (Cas.AddEntry exampleTable source h d).2
           (Mock.AddEntry emptyMock source h).2)
  ∧ (∀ h, validDigest h = true →
       ((Cas.Remove exampleTable h d).1 = None ↔ (Mock.Remove emptyMock h).1 = None)
       ∧ @tidy exampleEnv (casSegs exampleTable) (Cas.Remove exampleTable h d).2
       ∧ agrees (casSegs exampleTable) (Cas.Remove exampleTable h d).2
           (Mock.Remove emptyMock h).2)
  ∧ (∀ interrupted, uninterrupted interrupted →
       (@Cas.Enumerate exampleEnv exampleTable interrupted d).2 = d
       ∧ (∀ e, e ∈ (@Cas.Enumerate exampleEnv exampleTable interrupted d).1 →
               Error e = None)
       ∧ ∀ h, h ∈ Item <$> (@Cas.Enumerate exampleEnv exampleTable interrupted d).1
              ↔ h ∈ Item <$> (Mock.Enumerate emptyMock).1).
Proof.
  intros d.
  destruct (@MakeCasTable_fresh_spec exampleEnv ["r"] freshDisk ∅ eq_refl eq_refl eq_refl)
    as (fs' & top' & Hmk & Htop' & Hlook & _).
  assert (d = {| root := fs'; quarantine := [] |}) as Hd.
  { subst d. by rewrite Hmk. }
  destruct (@empty_shards_tidy exampleEnv (casSegs exampleTable) d top') as [Htidy Hag].
  { by rewrite Hd. }
  { exact Hlook. }
  split; [exact exampleTable_made|]. split; [exact Htidy|]. split; [exact Hag|].
  exact (@mock_simulates_disk_table exampleEnv exampleEnv_ok exampleTable d emptyMock
           exampleTable_made Htidy Hag).
Defined.
